(** * VoiceAI: the streaming decoder, the playback scheduler, the session
      controller, the voice-activity detector and the TTS route.

    The development embeds the JavaScript of the repository:
    - [Js]       : strings as lists of code units, [trim], [indexOf], [\s];
    - [Server]   : [stripThinking], [cleanText], the sentence segmentation
                   of the /api/chat route and the guard of /api/tts;
    - [Queue]    : class [AudioQueueManager];
    - [Vad]      : [VAD.monitor];
    - [History]  : the conversation history of [API.chatStream];
    - [Session]  : the controller [Drishti] with its interaction version;
    - [Wire]     : the event-stream framing, the reading loops of the route
                   and of [API.chatStream];
    - [Runs], [Lock], [Playback] : runs of the detector and of the
                   controller, and their invariants;
    - [Wav]      : [WavEncoder.encodeWAV];
    - [Closing], [Prompt], [Pipeline] : the closed connection, the request
                   sent upstream and the path from a sentence event to its
                   synthesis request;
    - [Transcript] : [TranscriptUI].

    Asynchronous code is embedded as event-driven state passing: every
    callback of the source is one event, run to completion on the state. *)

From Stdlib Require Import ZArith QArith Qminmax Lia Lqa List Ascii String Bool.
From stdpp Require Import gmap list.
Import ListNotations.

Local Open Scope nat_scope.

(* ===================================================================== *)
(** ** AudioQueueManager: ordered gapless playback                        *)
(* ===================================================================== *)

Module Queue.

(** A decoded [AudioBuffer]: only its identity and its [duration] (seconds)
    matter to the scheduler. *)
Record AudioBuffer := mkBuffer { buf_id : nat; duration : Q }.

(** What the scheduler does to the outside world: [source.start(startTime)]
    for the buffer taken under key [index], and the call of the resolver of
    the promise returned by [waitForCompletion]. *)
Inductive Effect :=
| Start (index : nat) (buffer : AudioBuffer) (startTime : Q)
| Resolve (promise : nat).

(** The fields of [AudioQueueManager] (the audio context is the clock value
    passed to each callback). *)
Record AQM := mkAQM {
  queue : gmap nat AudioBuffer;
  nextPlayIndex : nat;
  isPlaying : bool;
  scheduledEndTime : Q;
  completionResolve : option nat;
  allEnqueued : bool;
  totalExpected : Z
}.

(** [constructor(audioContext)] *)
Definition new : AQM :=
  {| queue := ∅; nextPlayIndex := 0; isPlaying := false;
     scheduledEndTime := 0%Q; completionResolve := None;
     allEnqueued := false; totalExpected := (-1)%Z |}.

(** The fixed lead of [audioContext.currentTime + 0.02]. *)
Definition lead : Q := 2 # 100.

(** [allEnqueued && nextPlayIndex >= totalExpected && !isPlaying] *)
Definition completionCondition (s : AQM) : bool :=
  allEnqueued s && (totalExpected s <=? Z.of_nat (nextPlayIndex s))%Z
  && negb (isPlaying s).

(** [checkCompletion()] *)
Definition checkCompletion (s : AQM) : AQM * list Effect :=
  if completionCondition s then
    match completionResolve s with
    | Some p =>
        ({| queue := queue s; nextPlayIndex := nextPlayIndex s;
            isPlaying := isPlaying s; scheduledEndTime := scheduledEndTime s;
            completionResolve := None;
            allEnqueued := allEnqueued s; totalExpected := totalExpected s |},
         [Resolve p])
    | None => (s, [])
    end
  else (s, []).

(** One pass through the body of [tryPlayNext] up to its tail call: the
    buffer found under [nextPlayIndex] is deleted from the map, started at
    [max(currentTime + 0.02, scheduledEndTime)], and the fields advance. *)
Definition startTimeOf (now : Q) (s : AQM) : Q :=
  Qmax (now + lead) (scheduledEndTime s).

Definition playOne (now : Q) (buffer : AudioBuffer) (s : AQM) : AQM :=
  {| queue := delete (nextPlayIndex s) (queue s);
     nextPlayIndex := S (nextPlayIndex s);
     isPlaying := true;
     scheduledEndTime := (startTimeOf now s + duration buffer)%Q;
     completionResolve := completionResolve s;
     allEnqueued := allEnqueued s; totalExpected := totalExpected s |}.

(** [tryPlayNext()] calls itself after each started buffer; every call
    deletes one key, so [S (size queue)] calls are enough to reach the
    [return] of its first line. *)
Fixpoint tryPlayNext_fuel (fuel : nat) (now : Q) (s : AQM) : AQM * list Effect :=
  match fuel with
  | 0 => (s, [])
  | S fuel' =>
      match queue s !! nextPlayIndex s with
      | None => (s, [])
      | Some buffer =>
          let r := tryPlayNext_fuel fuel' now (playOne now buffer s) in
          (fst r, Start (nextPlayIndex s) buffer (startTimeOf now s) :: snd r)
      end
  end.

Definition tryPlayNext (now : Q) (s : AQM) : AQM * list Effect :=
  tryPlayNext_fuel (S (size (queue s))) now s.

Definition set_queue (q : gmap nat AudioBuffer) (s : AQM) : AQM :=
  {| queue := q; nextPlayIndex := nextPlayIndex s; isPlaying := isPlaying s;
     scheduledEndTime := scheduledEndTime s;
     completionResolve := completionResolve s;
     allEnqueued := allEnqueued s; totalExpected := totalExpected s |}.

(** [enqueue(index, audioBuffer)] *)
Definition enqueue (now : Q) (index : nat) (b : AudioBuffer) (s : AQM)
  : AQM * list Effect :=
  tryPlayNext now (set_queue (<[index := b]> (queue s)) s).

(** [markAllEnqueued(total)] *)
Definition markAllEnqueued (total : Z) (s : AQM) : AQM * list Effect :=
  checkCompletion
    {| queue := queue s; nextPlayIndex := nextPlayIndex s;
       isPlaying := isPlaying s; scheduledEndTime := scheduledEndTime s;
       completionResolve := completionResolve s;
       allEnqueued := true; totalExpected := total |}.

(** The [source.onended] callback installed by [tryPlayNext]. *)
Definition onended (now : Q) (s : AQM) : AQM * list Effect :=
  let r1 :=
    match queue s !! nextPlayIndex s with
    | None =>
        checkCompletion
          {| queue := queue s; nextPlayIndex := nextPlayIndex s;
             isPlaying := false; scheduledEndTime := scheduledEndTime s;
             completionResolve := completionResolve s;
             allEnqueued := allEnqueued s; totalExpected := totalExpected s |}
    | Some _ => (s, [])
    end in
  let r2 := tryPlayNext now (fst r1) in
  (fst r2, snd r1 ++ snd r2).

(** [waitForCompletion()]: the executor stores the resolver [p] of the new
    promise and checks completion at once. *)
Definition waitForCompletion (p : nat) (s : AQM) : AQM * list Effect :=
  checkCompletion
    {| queue := queue s; nextPlayIndex := nextPlayIndex s;
       isPlaying := isPlaying s; scheduledEndTime := scheduledEndTime s;
       completionResolve := Some p;
       allEnqueued := allEnqueued s; totalExpected := totalExpected s |}.

(** [clear()] *)
Definition clear (s : AQM) : AQM * list Effect :=
  ({| queue := ∅; nextPlayIndex := 0; isPlaying := false;
      scheduledEndTime := 0%Q; completionResolve := None;
      allEnqueued := false; totalExpected := (-1)%Z |},
   match completionResolve s with
   | Some p => [Resolve p]
   | None => []
   end).

(** The calls the rest of the program makes on a scheduler, each at the
    clock value [audioContext.currentTime] has when it runs. *)
Inductive Call :=
| Enqueue (index : nat) (b : AudioBuffer)
| MarkAllEnqueued (total : Z)
| Ended
| WaitForCompletion (p : nat)
| Clear.

Definition step (now : Q) (c : Call) (s : AQM) : AQM * list Effect :=
  match c with
  | Enqueue i b => enqueue now i b s
  | MarkAllEnqueued total => markAllEnqueued total s
  | Ended => onended now s
  | WaitForCompletion p => waitForCompletion p s
  | Clear => clear s
  end.

(** A run: the calls in order, the effects concatenated. *)
Fixpoint run (tr : list (Q * Call)) (s : AQM) : AQM * list Effect :=
  match tr with
  | [] => (s, [])
  | (now, c) :: tr' =>
      let r1 := step now c s in
      let r2 := run tr' (fst r1) in
      (fst r2, snd r1 ++ snd r2)
  end.

(** The buffers started, in order, with the key each was taken from. *)
Fixpoint starts (l : list Effect) : list (nat * AudioBuffer) :=
  match l with
  | [] => []
  | Start i b _ :: l' => (i, b) :: starts l'
  | Resolve _ :: l' => starts l'
  end.

Fixpoint resolves (l : list Effect) : list nat :=
  match l with
  | [] => []
  | Start _ _ _ :: l' => resolves l'
  | Resolve p :: l' => p :: resolves l'
  end.

(** The [(index, buffer)] pairs the [enqueue] calls of a trace admit, in
    arrival order. *)
Fixpoint admitted (tr : list (Q * Call)) : list (nat * AudioBuffer) :=
  match tr with
  | [] => []
  | (_, Enqueue i b) :: tr' => (i, b) :: admitted tr'
  | _ :: tr' => admitted tr'
  end.

Definition isClear (c : Call) : bool :=
  match c with Clear => true | _ => false end.

(** A trace in which [clear()] is never called. *)
Definition noClear (tr : list (Q * Call)) : Prop :=
  Forall (fun x => isClear (snd x) = false) tr.

(** The started buffers touch end to start: the first one starts at
    [from], every other one at the instant its predecessor ends. *)
Fixpoint backToBack (from : Q) (l : list Effect) : Prop :=
  match l with
  | [] => True
  | Start _ b t :: l' => t == from /\ backToBack (t + duration b) l'
  | Resolve _ :: l' => backToBack from l'
  end.

(** A call of a turn in which index [k] is never admitted, [clear()] is
    never called and every total recorded is above [k]. *)
Definition leavesOut (k : nat) (c : Call) : Prop :=
  match c with
  | Enqueue i _ => i <> k
  | MarkAllEnqueued total => (Z.of_nat k < total)%Z
  | Clear => False
  | _ => True
  end.

(** The invariant of a turn in which the indices [enq] have been admitted
    so far, the buffer of index [i] being [bufs i]: what has been started
    is exactly the buffers below the cursor, in index order, and what
    waits in the map lies above the cursor. *)
Definition inOrder (bufs : nat -> AudioBuffer) (enq : list nat) (s : AQM)
    (played : list (nat * AudioBuffer)) : Prop :=
  played = map (fun i => (i, bufs i)) (seq 0 (nextPlayIndex s)) /\
  queue s !! nextPlayIndex s = None /\
  (forall i b, queue s !! i = Some b ->
     b = bufs i /\ i ∈ enq /\ nextPlayIndex s < i) /\
  (forall i, i ∈ enq -> i < nextPlayIndex s \/ queue s !! i = Some (bufs i)) /\
  (forall i, i < nextPlayIndex s -> i ∈ enq).

(** The invariant of a turn that leaves out index [k]: the cursor is at
    or below [k], nothing waits under [k], and a recorded total is
    above [k]. *)
Definition stalledAt (k : nat) (s : AQM) : Prop :=
  nextPlayIndex s <= k /\ queue s !! k = None /\
  (allEnqueued s = true -> (Z.of_nat k < totalExpected s)%Z).

(** A turn of three sentences for the examples: its buffers, a trace in
    which index 1 arrives before index 0, a trace in which index 0 is
    still to come, and a trace in which the synthesis of index 1 failed. *)
Definition sampleBuffer (i : nat) : AudioBuffer :=
  mkBuffer (100 + i) (Z.of_nat (S i) # 2).

Definition outOfOrderTurn : list (Q * Call) :=
  [ (0, Enqueue 1 (sampleBuffer 1));
    (1 # 10, Enqueue 0 (sampleBuffer 0));
    (1, Ended);
    (2, Enqueue 2 (sampleBuffer 2));
    (2, MarkAllEnqueued 3);
    (3, WaitForCompletion 7) ]%Q.

Definition firstStillToCome : list (Q * Call) :=
  [ (0, Enqueue 2 (sampleBuffer 2));
    (1 # 10, Enqueue 1 (sampleBuffer 1)) ]%Q.

Definition secondFailedTurn : list (Q * Call) :=
  [ (0, Enqueue 0 (sampleBuffer 0));
    (1 # 10, Enqueue 2 (sampleBuffer 2));
    (1 # 5, MarkAllEnqueued 3);
    (1 # 4, WaitForCompletion 7);
    (2, Ended);
    (3, Ended) ]%Q.

(** Started buffers never overlap: none starts before [from], and each
    next one starts at or after the scheduled end of the one before. *)
Fixpoint noOverlap (from : Q) (l : list Effect) : Prop :=
  match l with
  | [] => True
  | Start _ b t :: l' => (from <= t)%Q /\ noOverlap (t + duration b) l'
  | Resolve _ :: l' => noOverlap from l'
  end.

(** The scheduled end after the effects [l], [from] being the scheduled
    end before them. *)
Fixpoint endAfter (from : Q) (l : list Effect) : Q :=
  match l with
  | [] => from
  | Start _ b t :: l' => endAfter (t + duration b) l'
  | Resolve _ :: l' => endAfter from l'
  end.

(** The calls made while the synthesis results of a turn arrive and
    play: [enqueue] and the [onended] callbacks. *)
Definition isPlayback (c : Call) : bool :=
  match c with Enqueue _ _ | Ended => true | _ => false end.

End Queue.

(* ===================================================================== *)
(** ** JavaScript strings                                                 *)
(* ===================================================================== *)

Module Js.

(** A string is its list of code units; the development stays below
    U+0100, where a code unit is one [ascii]. *)
Abbreviation jsstring := (list ascii).

Definition str (s : String.string) : jsstring := list_ascii_of_string s.

(** The class [\s] of a regular expression and the characters removed by
    [trim()]: TAB, LF, VT, FF, CR, SPACE and NBSP (U+00A0). *)
Definition is_space (c : ascii) : bool :=
  let n := nat_of_ascii c in
  ((9 <=? n) && (n <=? 13)) || (n =? 32) || (n =? 160).

Fixpoint trimStart (s : jsstring) : jsstring :=
  match s with
  | c :: s' => if is_space c then trimStart s' else s
  | [] => []
  end.

Definition trimEnd (s : jsstring) : jsstring := rev (trimStart (rev s)).

(** [s.trim()] *)
Definition trim (s : jsstring) : jsstring := trimEnd (trimStart s).

(** [s.startsWith(p)] *)
Fixpoint startsWith (p s : jsstring) : bool :=
  match p with
  | [] => true
  | a :: p' =>
      match s with
      | [] => false
      | b :: s' => Ascii.eqb a b && startsWith p' s'
      end
  end.

(** [s.indexOf(needle)], [None] for -1. *)
Fixpoint indexOf (needle s : jsstring) : option nat :=
  if startsWith needle s then Some 0
  else match s with
       | [] => None
       | _ :: s' => option_map S (indexOf needle s')
       end.

(** [s.includes(needle)] *)
Definition includes (needle s : jsstring) : bool :=
  match indexOf needle s with Some _ => true | None => false end.

(** [s.lastIndexOf(needle)], scanning left to right and remembering the
    last position at which [needle] starts. *)
Fixpoint lastIndexOf_from (needle s : jsstring) (pos : nat) (acc : option nat)
  : option nat :=
  let acc' := if startsWith needle s then Some pos else acc in
  match s with
  | [] => acc'
  | _ :: s' => lastIndexOf_from needle s' (S pos) acc'
  end.

Definition lastIndexOf (needle s : jsstring) : option nat :=
  lastIndexOf_from needle s 0 None.

(** [s.slice(a, b)] for [0 <= a] and [0 <= b]. *)
Definition slice (a b : nat) (s : jsstring) : jsstring := take (b - a) (drop a s).

(** Truthiness of a string: [!s] is [true] exactly for the empty string. *)
Definition falsy (s : jsstring) : bool :=
  match s with [] => true | _ => false end.

End Js.

(* ===================================================================== *)
(** ** The /api/chat decoder and the /api/tts guard (server.js, part_000) *)
(* ===================================================================== *)

Module Server.
Import Js.

Definition think_open : jsstring := str "<think>".
Definition think_close : jsstring := str "</think>".

(** [text.replace(/<think>[\s\S]*?<\/think>/g, '')]: the leftmost
    [<think>] that has a [</think>] after it is removed together with
    everything up to the nearest [</think>]; the search goes on after it.
    Every round consumes at least the two markers, so [length text] rounds
    are enough. *)
Fixpoint removeSpans_fuel (fuel : nat) (text : jsstring) : jsstring :=
  match fuel with
  | 0 => text
  | S fuel' =>
      match indexOf think_open text with
      | None => text
      | Some i =>
          let rest := drop (i + length think_open) text in
          match indexOf think_close rest with
          | None => text
          | Some j =>
              take i text ++
              removeSpans_fuel fuel' (drop (j + length think_close) rest)
          end
      end
  end.

Definition removeSpans (text : jsstring) : jsstring :=
  removeSpans_fuel (length text) text.

(** [text.replace(/<think>[\s\S]*/g, '')]: everything from the first
    [<think>] on is removed. *)
Definition removeFromOpen (text : jsstring) : jsstring :=
  match indexOf think_open text with
  | None => text
  | Some i => take i text
  end.

(** [text.replace(/[\s\S]*<\/think>/g, '')]: the star is greedy, so the
    match runs from the start of the text to the end of the last
    [</think>]. *)
Definition removeToClose (text : jsstring) : jsstring :=
  match lastIndexOf think_close text with
  | None => text
  | Some i => drop (i + length think_close) text
  end.

(** [stripThinking(text)]; the closure variable [insideThinking] is
    threaded through. *)
Definition stripThinking (insideThinking : bool) (text : jsstring)
  : bool * jsstring :=
  let text1 := removeSpans text in
  let '(inside2, text2) :=
    if includes think_open text1 then (true, removeFromOpen text1)
    else (insideThinking, text1) in
  let '(inside3, text3) :=
    if inside2 && includes think_close text2 then (false, removeToClose text2)
    else (inside2, text2) in
  if inside3 then (inside3, []) else (inside3, text3).

(** *** [cleanText] *)

(** [.replace(/\*\*/g, '')] *)
Fixpoint removeDoubleStars (s : jsstring) : jsstring :=
  match s with
  | a :: t =>
      match t with
      | b :: s' =>
          if Ascii.eqb a "*" && Ascii.eqb b "*" then removeDoubleStars s'
          else a :: removeDoubleStars t
      | [] => [a]
      end
  | [] => []
  end.

(** [.replace(/\*/g, '')] and [.replace(/`/g, '')] *)
Definition removeChar (c : ascii) (s : jsstring) : jsstring :=
  filter (fun x => Ascii.eqb x c = false) s.

Fixpoint countHashes (s : jsstring) : nat :=
  match s with
  | c :: s' => if Ascii.eqb c "#" then S (countHashes s') else 0
  | [] => 0
  end.

(** [.replace(/#{1,6}\s/g, '')]: at a position where a run of one to six
    [#] is followed by a white-space character, the run and that character
    are removed; a longer run cannot match at its first [#]. *)
Fixpoint removeHeadings_fuel (fuel : nat) (s : jsstring) : jsstring :=
  match fuel with
  | 0 => s
  | S fuel' =>
      match s with
      | [] => []
      | c :: s' =>
          let k := countHashes s in
          if (1 <=? k) && (k <=? 6) &&
             match drop k s with d :: _ => is_space d | [] => false end
          then removeHeadings_fuel fuel' (drop (S k) s)
          else c :: removeHeadings_fuel fuel' s'
      end
  end.

Definition removeHeadings (s : jsstring) : jsstring :=
  removeHeadings_fuel (length s) s.

(** The longest prefix without the character [c]. *)
Fixpoint runWithout (c : ascii) (s : jsstring) : jsstring :=
  match s with
  | x :: s' => if Ascii.eqb x c then [] else x :: runWithout c s'
  | [] => []
  end.

(** One attempt of [/\[([^\]]+)\]\([^)]+\)/] at the start of [s]: the
    label and what follows the closing parenthesis. *)
Definition matchLink (s : jsstring) : option (jsstring * jsstring) :=
  match s with
  | c :: s1 =>
      if Ascii.eqb c "[" then
        let label := runWithout "]" s1 in
        match label, drop (length label) s1 with
        | _ :: _, r :: p :: s2 =>
            if Ascii.eqb r "]" && Ascii.eqb p "(" then
              let url := runWithout ")" s2 in
              match url, drop (length url) s2 with
              | _ :: _, q :: s3 =>
                  if Ascii.eqb q ")" then Some (label, s3) else None
              | _, _ => None
              end
            else None
        | _, _ => None
        end
      else None
  | [] => None
  end.

(** [.replace(/\[([^\]]+)\]\([^)]+\)/g, '$1')] *)
Fixpoint collapseLinks_fuel (fuel : nat) (s : jsstring) : jsstring :=
  match fuel with
  | 0 => s
  | S fuel' =>
      match s with
      | [] => []
      | c :: s' =>
          match matchLink s with
          | Some (label, after) => label ++ collapseLinks_fuel fuel' after
          | None => c :: collapseLinks_fuel fuel' s'
          end
      end
  end.

Definition collapseLinks (s : jsstring) : jsstring :=
  collapseLinks_fuel (length s) s.

(** [cleanText(text)] (named [cleanForTTS] in the first version of the
    server). *)
Definition cleanText (text : jsstring) : jsstring :=
  trim (collapseLinks (removeChar "`" (removeHeadings
    (removeChar "*" (removeDoubleStars text))))).

(** *** Sentence segmentation *)

Definition is_terminal (c : ascii) : bool :=
  Ascii.eqb c "." || Ascii.eqb c "!" || Ascii.eqb c "?".

Fixpoint spaceRun (s : jsstring) : nat :=
  match s with
  | c :: s' => if is_space c then S (spaceRun s') else 0
  | [] => 0
  end.

(** [regex.exec(text)] for [/([.!?])\s+/g] with the search starting at
    [pos] in the remaining text [s]: [match.index] and the length of
    [match[0]]. *)
Fixpoint execBoundary_at (s : jsstring) (pos : nat) : option (nat * nat) :=
  match s with
  | c :: s' =>
      if is_terminal c && (1 <=? spaceRun s') then Some (pos, S (spaceRun s'))
      else execBoundary_at s' (S pos)
  | [] => None
  end.

Definition execBoundary (text : jsstring) (reLastIndex : nat)
  : option (nat * nat) :=
  execBoundary_at (drop reLastIndex text) reLastIndex.

(** The [while ((match = regex.exec(...)) !== null)] loop. [reLastIndex]
    is the [lastIndex] property of the regular expression, [lastIndex] the
    local variable of the source, [minLength] the constant the sentence
    length is compared with. Every match is at least two characters long,
    so [length text] rounds are enough. *)
Fixpoint scanLoop (fuel minLength : nat) (text : jsstring)
    (reLastIndex lastIndex : nat) (sentences : list jsstring)
  : list jsstring * nat :=
  match fuel with
  | 0 => (sentences, lastIndex)
  | S fuel' =>
      match execBoundary text reLastIndex with
      | None => (sentences, lastIndex)
      | Some (index, len) =>
          let sentence := trim (slice lastIndex (index + 1) text) in
          if minLength <=? length sentence then
            scanLoop fuel' minLength text (index + len) (index + len)
              (sentences ++ [sentence])
          else
            scanLoop fuel' minLength text (index + len) lastIndex sentences
      end
  end.

Definition scanSentences (minLength : nat) (text : jsstring)
  : list jsstring * nat :=
  scanLoop (S (length text)) minLength text 0 0 [].

(** What the route writes to the client. *)
Inductive Sse :=
| SseToken (token : jsstring)
| SseSentence (index : nat) (text : jsstring)
| SseDone (sentenceCount : nat).

(** The variables of the handler of one request. [aborted] is the flag
    that stops the writing. In part_000 it is set by [abortStream], on
    the 'aborted' event of the request and on a 'close' of the response
    that comes before its end: when the client goes away. In server.js
    it is set by the listener of the 'close' event of the request (line
    87), which Node emits once the body of the POST request has been
    read (part_000 lines 107-108 record it): while the handler still
    awaits the upstream response. *)
Record Decoder := mkDecoder {
  sentenceBuffer : jsstring;
  sentenceIndex : nat;
  insideThinking : bool;
  aborted : bool
}.

Definition init : Decoder :=
  {| sentenceBuffer := []; sentenceIndex := 0;
     insideThinking := false; aborted := false |}.

(** [for (const sentence of sentences)]: clean, write, count. *)
Fixpoint emitSentences (isAborted : bool) (sentences : list jsstring)
    (index : nat) : nat * list Sse :=
  match sentences with
  | [] => (index, [])
  | sentence :: rest =>
      let cleaned := cleanText sentence in
      if (0 <? length cleaned) && negb isAborted then
        let r := emitSentences isAborted rest (S index) in
        (fst r, SseSentence index cleaned :: snd r)
      else emitSentences isAborted rest index
  end.

(** The body of the [try] for one parsed frame whose
    [choices[0].delta.content] is [content]. *)
Definition onContent (content : jsstring) (d : Decoder) : Decoder * list Sse :=
  if falsy content then (d, []) else
  let '(inside, content') := stripThinking (insideThinking d) content in
  if falsy content' then
    ({| sentenceBuffer := sentenceBuffer d; sentenceIndex := sentenceIndex d;
        insideThinking := inside; aborted := aborted d |}, [])
  else
    let tokens := if aborted d then [] else [SseToken content'] in
    let buffer := sentenceBuffer d ++ content' in
    let '(sentences, lastIndex) := scanSentences 10 buffer in
    match sentences with
    | [] =>
        ({| sentenceBuffer := buffer; sentenceIndex := sentenceIndex d;
            insideThinking := inside; aborted := aborted d |}, tokens)
    | _ :: _ =>
        let r := emitSentences (aborted d) sentences (sentenceIndex d) in
        ({| sentenceBuffer := drop lastIndex buffer; sentenceIndex := fst r;
            insideThinking := inside; aborted := aborted d |},
         tokens ++ snd r)
    end.

(** The flush when the upstream stream ends. *)
Definition onEnd (d : Decoder) : Decoder * list Sse :=
  if aborted d then (d, []) else
  let remaining := cleanText (sentenceBuffer d) in
  if 0 <? length remaining then
    ({| sentenceBuffer := sentenceBuffer d;
        sentenceIndex := S (sentenceIndex d);
        insideThinking := insideThinking d; aborted := aborted d |},
     [SseSentence (sentenceIndex d) remaining;
      SseDone (S (sentenceIndex d))])
  else (d, [SseDone (sentenceIndex d)]).

Fixpoint feed (deltas : list jsstring) (d : Decoder) : Decoder * list Sse :=
  match deltas with
  | [] => (d, [])
  | delta :: rest =>
      let r1 := onContent delta d in
      let r2 := feed rest (fst r1) in
      (fst r2, snd r1 ++ snd r2)
  end.

(** A whole response while the flag is not set: the deltas in order,
    then the end of the stream. This is the response of the route of
    part_000 to a client that stays connected. The response of the route
    of server.js, whose flag is set before its first read, is
    [Closing.decodeClosed] below. *)
Definition decode (deltas : list jsstring) : list Sse :=
  let r1 := feed deltas init in
  snd r1 ++ snd (onEnd (fst r1)).

Fixpoint tokensOf (l : list Sse) : list jsstring :=
  match l with
  | SseToken t :: l' => t :: tokensOf l'
  | _ :: l' => tokensOf l'
  | [] => []
  end.

Fixpoint sentencesOf (l : list Sse) : list (nat * jsstring) :=
  match l with
  | SseSentence i t :: l' => (i, t) :: sentencesOf l'
  | _ :: l' => sentencesOf l'
  | [] => []
  end.

(** *** The first version of the route (part_001) *)

(** [extractSentences(text)]: the sentences, of 15 characters at least,
    and the remainder. *)
Definition extractSentences (text : jsstring) : list jsstring * jsstring :=
  let '(sentences, lastIndex) := scanSentences 15 text in
  (sentences, drop lastIndex text).

(** *** POST /api/tts *)

(** A value found in a parsed JSON body ([JObject] stands for arrays and
    objects), [JUndefined] for an absent field. *)
Inductive JsValue :=
| JUndefined
| JNull
| JBool (b : bool)
| JNumber (q : Q)
| JString (s : jsstring)
| JObject.

Definition truthy (v : JsValue) : bool :=
  match v with
  | JUndefined | JNull => false
  | JBool b => b
  | JNumber q => negb (Qeq_bool q 0)
  | JString s => negb (falsy s)
  | JObject => true
  end.

(** The request sent to the synthesis service: [input] and [voice] of its
    JSON body (model, format and speed are constants). *)
Record SpeechRequest := mkSpeechRequest {
  speech_input : jsstring;
  speech_voice : jsstring
}.

(** What [fetch] and the reading of its body do: a response, or an
    exception with its message. *)
Inductive Upstream :=
| UpResponse (ok : bool) (status : nat) (body : jsstring)
| UpThrows (message : jsstring).

(** What the handler sends. [ErrTtsFailed status detail] is the object
    [{ error: `TTS failed: ${status}`, detail }]. *)
Inductive Reply :=
| ReplyError (status : nat) (error : jsstring)
| ReplyTtsFailed (status : nat) (detail : jsstring)
| ReplyAudio (sentenceIndexHeader : JsValue) (bytes : jsstring).

(** The handler of [app.post('/api/tts')] on the fields [text] and
    [index] of [req.body]; [voice] is the voice of the upstream request,
    [process.env.TTS_VOICE || 'am_adam'] (in the last version of the
    server the [voice] field of the body comes first). The reply comes
    with the list of requests made upstream. *)
Definition tts (voice : jsstring) (upstream : SpeechRequest -> Upstream)
    (text index : JsValue) : Reply * list SpeechRequest :=
  if negb (truthy text) then (ReplyError 400 (str "No text provided"), [])
  else
    match text with
    | JString s =>
        if length (trim s) =? 0 then
          (ReplyError 400 (str "No text provided"), [])
        else
          let request := mkSpeechRequest s voice in
          match upstream request with
          | UpThrows message => (ReplyError 500 message, [request])
          | UpResponse false status detail =>
              (ReplyTtsFailed status detail, [request])
          | UpResponse true _ bytes =>
              (ReplyAudio (if truthy index then index else JNumber 0) bytes,
               [request])
          end
    | _ =>
        (* [text.trim] is not a function: the TypeError is caught *)
        (ReplyError 500 (str "text.trim is not a function"), [])
    end.

(** The [done] event. *)
Definition isDone (e : Sse) : bool :=
  match e with SseDone _ => true | _ => false end.

(** What one stretch of the handler does between the decoder states [d]
    and [d']: the [aborted] flag is kept, the sentence events written are
    numbered consecutively from the sentence index of [d] up to that of
    [d'], no [done] event is written, and every sentence text is a
    cleaned text that is not empty. *)
Definition stepFacts (d d' : Decoder) (evs : list Sse) : Prop :=
  aborted d' = aborted d /\
  exists n,
    sentenceIndex d' = sentenceIndex d + n /\
    map fst (sentencesOf evs) = seq (sentenceIndex d) n /\
    Forall (fun e => isDone e = false) evs /\
    Forall (fun it => exists raw, snd it = cleanText raw /\ snd it <> [])
      (sentencesOf evs).

(** A sentence the scan cuts: long enough, ending in the terminal
    punctuation mark of its boundary, and trimmed. *)
Definition wellCut (minLength : nat) (sentence : jsstring) : Prop :=
  minLength <= length sentence /\
  trim sentence = sentence /\
  exists w c, sentence = w ++ [c] /\ is_terminal c = true.

End Server.

(* ===================================================================== *)
(** ** VAD: voice-activity detection                                      *)
(* ===================================================================== *)

Module Vad.

Definition SPEECH_THRESHOLD : Q := 18 # 1000.
Definition SILENCE_THRESHOLD : Q := 9 # 1000.
Definition SILENCE_DURATION : Z := 900.

(** [a > b] and [a < b] on numbers. *)
Definition gtb (a b : Q) : bool := negb (Qle_bool a b).
Definition ltb (a b : Q) : bool := negb (Qle_bool b a).

(** The fields of the object [VAD]; the two callbacks are kept as "is
    installed", their calls are the output of [monitor]. *)
Record VAD := mkVAD {
  enabled : bool;
  speechDetected : bool;
  silenceStart : Z;
  onSpeechStart : bool;
  onSpeechEnd : bool
}.

Inductive Callback := SpeechStart | SpeechEnd.

(** The state [start(callbacks)] leaves before its first [monitor()]. *)
Definition started : VAD :=
  {| enabled := true; speechDetected := false; silenceStart := 0;
     onSpeechStart := true; onSpeechEnd := true |}.

(** [stop()] *)
Definition stop (v : VAD) : VAD :=
  {| enabled := false; speechDetected := false;
     silenceStart := silenceStart v;
     onSpeechStart := onSpeechStart v; onSpeechEnd := onSpeechEnd v |}.

(** One run of [monitor()]: [rms] is [AudioCapture.getRMSLevel()] and
    [now] is [Date.now()], in milliseconds. *)
Definition monitor (now : Z) (rms : Q) (v : VAD) : VAD * list Callback :=
  if negb (enabled v) then (v, [])
  else if gtb rms SPEECH_THRESHOLD then
    ({| enabled := enabled v; speechDetected := true; silenceStart := 0;
        onSpeechStart := onSpeechStart v; onSpeechEnd := onSpeechEnd v |},
     if negb (speechDetected v) && onSpeechStart v then [SpeechStart] else [])
  else if ltb rms SILENCE_THRESHOLD && speechDetected v then
    if (silenceStart v =? 0)%Z then
      ({| enabled := enabled v; speechDetected := speechDetected v;
          silenceStart := now;
          onSpeechStart := onSpeechStart v; onSpeechEnd := onSpeechEnd v |},
       [])
    else if (SILENCE_DURATION <? now - silenceStart v)%Z then
      ({| enabled := enabled v; speechDetected := false; silenceStart := 0;
          onSpeechStart := onSpeechStart v; onSpeechEnd := onSpeechEnd v |},
       if onSpeechEnd v then [SpeechEnd] else [])
    else (v, [])
  else (v, []).

(** The detector after a trace of samples [(now, rms)], one per animation
    frame. *)
Fixpoint after (samples : list (Z * Q)) (v : VAD) : VAD :=
  match samples with
  | [] => v
  | (now, rms) :: rest => after rest (fst (monitor now rms v))
  end.

(** Sample [n] of the trace makes the detector leave the speech state. *)
Definition exitsAt (samples : list (Z * Q)) (n : nat) : Prop :=
  exists now rms,
    samples !! n = Some (now, rms) /\
    speechDetected (after (take n samples) started) = true /\
    speechDetected (fst (monitor now rms (after (take n samples) started)))
      = false.

(** The condition of the specification for leaving the speech state at
    sample [n]: there is a sample [m] at least [SILENCE_DURATION] before
    it such that every sample from [m] to [n] is below the lower
    threshold. *)
Definition continuousSilenceBefore (samples : list (Z * Q)) (n : nat) : Prop :=
  exists m t_m r_m t_n r_n,
    m <= n /\ samples !! m = Some (t_m, r_m) /\
    samples !! n = Some (t_n, r_n) /\
    (SILENCE_DURATION <= t_n - t_m)%Z /\
    forall j t r, m <= j <= n -> samples !! j = Some (t, r) ->
      (r < SILENCE_THRESHOLD)%Q.

(** Speech, then a quiet sample, a sample between the two thresholds
    half a second later, and a quiet sample after another half second. *)
Definition murmurTrace : list (Z * Q) :=
  [ (1000%Z, 20 # 1000); (2000%Z, 5 # 1000);
    (2500%Z, 12 # 1000); (3000%Z, 5 # 1000) ].

End Vad.

(* ===================================================================== *)
(** ** The conversation history of API.chatStream                         *)
(* ===================================================================== *)

Module History.
Import Js.

Definition MAX_HISTORY : nat := 20.

Inductive Role := user | assistant.

Record Turn := mkTurn { role : Role; content : jsstring }.

(** The first statements of [chatStream]: push the user turn, then keep
    the last [MAX_HISTORY] entries if there are more, [slice(-MAX_HISTORY)].
    What is left is the [messages] field of the request. *)
Definition pushUser (userText : jsstring) (h : list Turn) : list Turn :=
  let h1 := h ++ [mkTurn user userText] in
  if MAX_HISTORY <? length h1 then drop (length h1 - MAX_HISTORY) h1 else h1.

(** [this.conversationHistory.push({ role: 'assistant', content })] after
    the stream has been read to its end. *)
Definition pushAssistant (fullResponse : jsstring) (h : list Turn)
  : list Turn :=
  h ++ [mkTurn assistant fullResponse].

(** How the body of [chatStream] ends: it returns the full response, or
    an exception leaves it before the assistant turn is pushed. *)
Inductive Outcome :=
| Returns (fullResponse : jsstring)
| Throws.

Definition chatStream (userText : jsstring) (o : Outcome) (h : list Turn)
  : list Turn :=
  match o with
  | Returns fullResponse => pushAssistant fullResponse (pushUser userText h)
  | Throws => pushUser userText h
  end.

(** The history after a sequence of calls, from the empty history the
    page starts with. *)
Fixpoint historyAfter (calls : list (jsstring * Outcome)) (h : list Turn)
  : list Turn :=
  match calls with
  | [] => h
  | (userText, o) :: rest => historyAfter rest (chatStream userText o h)
  end.

(** [n] calls of [chatStream] that all return. *)
Definition completedTurns (n : nat) (userText fullResponse : jsstring)
  : list (jsstring * Outcome) :=
  repeat (userText, Returns fullResponse) n.

End History.

(* ===================================================================== *)
(** ** The controller Drishti and its state machine                       *)
(* ===================================================================== *)

Module Session.
Import Js.

Inductive State := IDLE | LISTENING | PROCESSING | STREAMING | SPEAKING.

Definition State_eqb (a b : State) : bool :=
  match a, b with
  | IDLE, IDLE | LISTENING, LISTENING | PROCESSING, PROCESSING
  | STREAMING, STREAMING | SPEAKING, SPEAKING => true
  | _, _ => false
  end.

(** The [await] at which the activation of [stopListeningAndProcess] is
    suspended. *)
Inductive Await :=
| AwaitStopRecording
| AwaitTranscribe
| AwaitChatStream
| AwaitCompletion.

(** The local variables of that activation. [audioQueue] is a reference
    into the heap of [AudioQueueManager] objects. *)
Record Activation := mkActivation {
  runVersion : nat;
  awaiting : Await;
  audioQueue : option nat;
  sentenceCount : nat
}.

(** What the controller does to the outside: state transitions,
    synthesis requests and the effects of its schedulers. *)
Inductive Output :=
| Transition (newState : State)
| TtsRequest (version queueRef index : nat) (text : jsstring)
| Audio (queueRef : nat) (e : Queue.Effect).

(** The fields of [Drishti], [StateMachine.current], the
    [AudioQueueManager] objects created so far and the suspended
    activation of [stopListeningAndProcess], if there is one. *)
Record Drishti := mkDrishti {
  current : State;
  ttsEnabled : bool;
  currentQueue : option nat;
  pipelineBusy : bool;
  interactionVersion : nat;
  heap : list Queue.AQM;
  activation : option Activation;
  outputs : list Output
}.

Definition boot : Drishti :=
  {| current := IDLE; ttsEnabled := false; currentQueue := None;
     pipelineBusy := false; interactionVersion := 0; heap := [];
     activation := None; outputs := [] |}.

(** [StateMachine.transition(newState)]: nothing happens when the state
    is already [newState]. *)
Definition transition (newState : State) (d : Drishti) : Drishti :=
  if State_eqb (current d) newState then d
  else
    {| current := newState; ttsEnabled := ttsEnabled d;
       currentQueue := currentQueue d; pipelineBusy := pipelineBusy d;
       interactionVersion := interactionVersion d; heap := heap d;
       activation := activation d;
       outputs := outputs d ++ [Transition newState] |}.

(** [startListening()] *)
Definition startListening (d : Drishti) : Drishti :=
  transition LISTENING
    {| current := current d; ttsEnabled := ttsEnabled d;
       currentQueue := currentQueue d; pipelineBusy := pipelineBusy d;
       interactionVersion := S (interactionVersion d); heap := heap d;
       activation := activation d; outputs := outputs d |}.

(** [handlePressStart()] *)
Definition handlePressStart (d : Drishti) : Drishti :=
  if pipelineBusy d then d
  else if State_eqb (current d) IDLE then startListening d
  else d.

(** The [finally] block of [stopListeningAndProcess], which ends the
    activation [a]. *)
Definition finally (a : Activation) (d : Drishti) : Drishti :=
  let d1 :=
    {| current := current d; ttsEnabled := ttsEnabled d;
       currentQueue := None; pipelineBusy := false;
       interactionVersion := interactionVersion d; heap := heap d;
       activation := None; outputs := outputs d |} in
  if runVersion a =? interactionVersion d then transition IDLE d1 else d1.

Definition suspend (a : Activation) (d : Drishti) : Drishti :=
  {| current := current d; ttsEnabled := ttsEnabled d;
     currentQueue := currentQueue d; pipelineBusy := pipelineBusy d;
     interactionVersion := interactionVersion d; heap := heap d;
     activation := Some a; outputs := outputs d |}.

(** [stopListeningAndProcess()] up to its first [await]. *)
Definition stopListeningAndProcess (d : Drishti) : Drishti :=
  if pipelineBusy d then d
  else
    let d1 :=
      {| current := current d; ttsEnabled := ttsEnabled d;
         currentQueue := currentQueue d; pipelineBusy := true;
         interactionVersion := interactionVersion d; heap := heap d;
         activation := activation d; outputs := outputs d |} in
    suspend (mkActivation (interactionVersion d) AwaitStopRecording None 0)
      (transition PROCESSING d1).

(** [handlePressEnd()] *)
Definition handlePressEnd (d : Drishti) : Drishti :=
  if State_eqb (current d) LISTENING then stopListeningAndProcess d else d.

(** A call on the scheduler [q] of the heap at clock value [now]; the
    effects go to the outputs. If the call resolves the promise the
    activation awaits, the activation goes on into its [finally]. *)
Definition onQueue (q : nat) (now : Q) (c : Queue.Call) (d : Drishti)
  : Drishti :=
  match heap d !! q with
  | None => d
  | Some m =>
      let r := Queue.step now c m in
      let d1 :=
        {| current := current d; ttsEnabled := ttsEnabled d;
           currentQueue := currentQueue d; pipelineBusy := pipelineBusy d;
           interactionVersion := interactionVersion d;
           heap := <[q := fst r]> (heap d);
           activation := activation d;
           outputs := outputs d ++ map (Audio q) (snd r) |} in
      match Queue.resolves (snd r), activation d with
      | _ :: _, Some a =>
          match awaiting a, audioQueue a with
          | AwaitCompletion, Some q' =>
              if q =? q' then finally a d1 else d1
          | _, _ => d1
          end
      | _, _ => d1
      end
  end.

(** Everything that can run next: the user's gestures, the settling of
    the promise the activation awaits, the callbacks [chatStream] calls
    while it reads, and the callbacks of requests still in flight. The
    last three carry the variables their closure has captured. *)
Inductive Event :=
| PressStart
| PressEnd
| ToggleTts
| StopRecordingReturns (hasBlob : bool)
| TranscribeReturns (text : jsstring)
| TranscribeThrows
| ChatSentence (index : nat) (text : jsstring)
| ChatDone (sentenceCountField : nat)
| ChatReturns
| ChatThrows
| TtsDecoded (version queueRef index : nat) (buf : Queue.AudioBuffer)
| AllTtsSettled (queueRef : nat) (total : Z)
| SourceEnded (queueRef : nat).

(** The continuation of the activation [a] after the event. *)
Definition resume (now : Q) (e : Event) (a : Activation) (d : Drishti)
  : Drishti :=
  match awaiting a, e with
  | AwaitStopRecording, StopRecordingReturns hasBlob =>
      if hasBlob then
        suspend (mkActivation (runVersion a) AwaitTranscribe None 0) d
      else finally a d
  | AwaitTranscribe, TranscribeReturns text =>
      if falsy text || (length (trim text) =? 0) then finally a d
      else
        let d1 := transition STREAMING d in
        if ttsEnabled d1 then
          let q := length (heap d1) in
          suspend (mkActivation (runVersion a) AwaitChatStream (Some q) 0)
            {| current := current d1; ttsEnabled := ttsEnabled d1;
               currentQueue := Some q; pipelineBusy := pipelineBusy d1;
               interactionVersion := interactionVersion d1;
               heap := heap d1 ++ [Queue.new];
               activation := activation d1; outputs := outputs d1 |}
        else
          suspend (mkActivation (runVersion a) AwaitChatStream None 0) d1
  | AwaitTranscribe, TranscribeThrows => finally a d
  | AwaitChatStream, ChatSentence index text =>
      match ttsEnabled d, audioQueue a with
      | true, Some q =>
          suspend
            (mkActivation (runVersion a) AwaitChatStream (Some q)
               (S (sentenceCount a)))
            {| current := current d; ttsEnabled := ttsEnabled d;
               currentQueue := currentQueue d;
               pipelineBusy := pipelineBusy d;
               interactionVersion := interactionVersion d; heap := heap d;
               activation := activation d;
               outputs := outputs d ++ [TtsRequest (runVersion a) q index text] |}
      | _, _ => d
      end
  | AwaitChatStream, ChatReturns =>
      match ttsEnabled d, audioQueue a with
      | true, Some q =>
          onQueue q now (Queue.WaitForCompletion q)
            (suspend
               (mkActivation (runVersion a) AwaitCompletion (Some q)
                  (sentenceCount a)) d)
      | _, _ => finally a d
      end
  | AwaitChatStream, ChatThrows => finally a d
  | AwaitChatStream, ChatDone _ =>
      (* [onDone] only registers the callback that runs as
         [AllTtsSettled] *)
      d
  | _, _ => d
  end.

(** One event, run to completion. *)
Definition handle (now : Q) (e : Event) (d : Drishti) : Drishti :=
  match e with
  | PressStart => handlePressStart d
  | PressEnd => handlePressEnd d
  | ToggleTts =>
      {| current := current d; ttsEnabled := negb (ttsEnabled d);
         currentQueue := currentQueue d; pipelineBusy := pipelineBusy d;
         interactionVersion := interactionVersion d; heap := heap d;
         activation := activation d; outputs := outputs d |}
  | TtsDecoded _ q index buf =>
      (* the [.then((buf) => ...)] of [onSentence] *)
      let d1 := if index =? 0 then transition SPEAKING d else d in
      onQueue q now (Queue.Enqueue index buf) d1
  | AllTtsSettled q total =>
      onQueue q now (Queue.MarkAllEnqueued total) d
  | SourceEnded q => onQueue q now Queue.Ended d
  | _ =>
      match activation d with
      | Some a => resume now e a d
      | None => d
      end
  end.

Fixpoint handleAll (tr : list (Q * Event)) (d : Drishti) : Drishti :=
  match tr with
  | [] => d
  | (now, e) :: rest => handleAll rest (handle now e d)
  end.

(** A run for the examples. Synthesis is switched on; in the first turn
    the stream delivers sentence 0 and then fails, which ends the turn
    while the synthesis request of sentence 0 is still in flight; the
    user starts a second turn. *)
Definition interruptedTurn : list (Q * Event) :=
  [ (0, ToggleTts);
    (0, PressStart);
    (1, PressEnd);
    (1, StopRecordingReturns true);
    (2, TranscribeReturns (str "Hello"));
    (3, ChatSentence 0 (str "Hi there, how are you?"));
    (3, ChatThrows);
    (4, PressStart) ]%Q.

(** The synthesis request of sentence 0 of the first turn (run version
    1, scheduler 0) completes and its audio has been decoded. *)
Definition lateBuffer : Queue.AudioBuffer := Queue.mkBuffer 100 (3 # 2).

Definition lateCompletion : Event := TtsDecoded 1 0 0 lateBuffer.

End Session.

(* ===================================================================== *)
(** ** The event stream between server and page                           *)
(* ===================================================================== *)

Module Wire.
Import Js.

Definition newline : ascii := "010".

(** [s.split('\n')]: the pieces between the line feeds, at least one. *)
Fixpoint splitLines (s : jsstring) : list jsstring :=
  match s with
  | [] => [[]]
  | c :: s' =>
      if Ascii.eqb c newline then [] :: splitLines s'
      else match splitLines s' with
           | l :: ls => (c :: l) :: ls
           | [] => [[c]]
           end
  end.

(** One round of the reading loops of [chatStream] and of the /api/chat
    route:
      [buffer += chunk; lines = buffer.split('\n');
       buffer = lines.pop() || ''; lines.forEach(...)].
    The result is the new buffer and the lines handed on. *)
Definition readChunk (chunk buffer : jsstring) : jsstring * list jsstring :=
  let lines := splitLines (buffer ++ chunk) in
  (List.last lines [], removelast lines).

Fixpoint readChunks (chunks : list jsstring) (buffer : jsstring)
  : jsstring * list jsstring :=
  match chunks with
  | [] => (buffer, [])
  | chunk :: rest =>
      let r1 := readChunk chunk buffer in
      let r2 := readChunks rest (fst r1) in
      (fst r2, snd r1 ++ snd r2)
  end.

(** The lines the route handles while it reads the upstream response:
    what is left in the buffer when the stream ends is not looked at. *)
Definition serverLines (chunks : list jsstring) : list jsstring :=
  snd (readChunks chunks []).

(** The lines [chatStream] hands to [handleSSELine]: those of the loop,
    then, if what is left in the buffer is not blank, its pieces. *)
Definition clientLines (chunks : list jsstring) : list jsstring :=
  let r := readChunks chunks [] in
  snd r ++ (if 0 <? length (trim (fst r)) then splitLines (fst r) else []).

(** [handleSSELine(rawLine)] up to [JSON.parse]: the payload it parses,
    or [None] when it returns before. *)
Definition clientPayload (rawLine : jsstring) : option jsstring :=
  let line := trim rawLine in
  if negb (startsWith (str "data:") line) then None
  else
    let payload := trim (drop 5 line) in
    if falsy payload || bool_decide (payload = str "[DONE]") then None
    else Some payload.

(** The same for a line of the upstream response in the route:
    [if (!line.startsWith('data: ')) continue;
     payload = line.slice(6).trim(); if (payload === '[DONE]') continue]. *)
Definition serverPayload (line : jsstring) : option jsstring :=
  if negb (startsWith (str "data: ") line) then None
  else
    let payload := trim (drop 6 line) in
    if bool_decide (payload = str "[DONE]") then None else Some payload.

(** The payloads [chatStream] parses, in order (as long as no handler
    throws). *)
Definition clientPayloads (chunks : list jsstring) : list jsstring :=
  omap clientPayload (clientLines chunks).

(** The fallback of [chatStream] for a response without a readable
    body: [text.split('\n').forEach(handleSSELine)]. *)
Definition fallbackPayloads (text : jsstring) : list jsstring :=
  omap clientPayload (splitLines text).

(** What the route writes: an event [data: <json>] or a comment
    [: <text>], each followed by an empty line. *)
Inductive Frame :=
| Data (json : jsstring)
| Comment (text : jsstring).

Definition writeFrame (f : Frame) : jsstring :=
  match f with
  | Data json => str "data: " ++ json ++ [newline; newline]
  | Comment text => str ": " ++ text ++ [newline; newline]
  end.

(** The line a frame puts on the wire before its empty line. *)
Definition frameLine (f : Frame) : jsstring :=
  match f with
  | Data json => str "data: " ++ json
  | Comment text => str ": " ++ text
  end.

Fixpoint dataOf (frames : list Frame) : list jsstring :=
  match frames with
  | [] => []
  | Data json :: rest => json :: dataOf rest
  | Comment _ :: rest => dataOf rest
  end.

(** A text the route can put into a frame: one line. A JSON text as
    [JSON.stringify] produces it is moreover not empty, begins and ends
    with a character other than white space and is not [[DONE]]. *)
Definition oneLine (s : jsstring) : Prop := Forall (fun c => c <> newline) s.

Definition wellFramed (f : Frame) : Prop :=
  match f with
  | Data json =>
      oneLine json /\ json <> [] /\ trim json = json /\ json <> str "[DONE]"
  | Comment text => oneLine text
  end.

End Wire.

(* ===================================================================== *)
(** ** Runs of the detector and of the controller                         *)
(* ===================================================================== *)

Module Runs.
Import Js Vad History Session.

(** The callbacks the detector calls over a trace of samples, in order. *)
Fixpoint callbacks (samples : list (Z * Q)) (v : VAD) : list Callback :=
  match samples with
  | [] => []
  | (now, rms) :: rest =>
      snd (monitor now rms v) ++ callbacks rest (fst (monitor now rms v))
  end.

(** Calls that take turns: the next one is [onSpeechEnd] when [speaking]
    holds and [onSpeechStart] when it does not. *)
Fixpoint alternates (speaking : bool) (cs : list Callback) : bool :=
  match cs with
  | [] => true
  | SpeechStart :: rest => negb speaking && alternates true rest
  | SpeechEnd :: rest => speaking && alternates false rest
  end.

(** The states the state machine was put in, in order. *)
Fixpoint transitions (os : list Output) : list State :=
  match os with
  | [] => []
  | Transition s :: rest => s :: transitions rest
  | _ :: rest => transitions rest
  end.

Definition isTransition (o : Output) : bool :=
  match o with Transition _ => true | _ => false end.

Definition isToggle (e : Event) : bool :=
  match e with ToggleTts => true | _ => false end.

(** The lock, the version and the state agree with the activation of
    [stopListeningAndProcess]: while one is suspended the lock is taken,
    the interaction version is the one it captured and the state is one
    of the three of a turn; while none is, the lock is free. *)
Definition consistent (d : Drishti) : Prop :=
  match activation d with
  | Some a =>
      pipelineBusy d = true /\ runVersion a = interactionVersion d /\
      (current d = PROCESSING \/ current d = STREAMING \/ current d = SPEAKING)
  | None =>
      pipelineBusy d = false /\
      (current d = IDLE \/ current d = LISTENING \/ current d = SPEAKING)
  end.

(** With speech switched off nothing reaches a scheduler. *)
Definition silent (d : Drishti) : Prop :=
  ttsEnabled d = false /\ heap d = [] /\
  forallb isTransition (outputs d) = true.

(** The moves of the state machine: the cycle of a turn, its early
    ends, and the move to SPEAKING that the completion of sentence 0
    makes from whatever state it finds. *)
Definition edge (s s' : State) : bool :=
  match s, s' with
  | IDLE, LISTENING | LISTENING, PROCESSING | PROCESSING, STREAMING
  | PROCESSING, IDLE | STREAMING, IDLE | SPEAKING, IDLE
  | SPEAKING, STREAMING => true
  | IDLE, SPEAKING | LISTENING, SPEAKING | PROCESSING, SPEAKING
  | STREAMING, SPEAKING => true
  | _, _ => false
  end.

Fixpoint path (s : State) (l : list State) : bool :=
  match l with
  | [] => true
  | s' :: rest => edge s s' && path s' rest
  end.

(** The log of transitions is a path from IDLE that ends in the current
    state, and the interaction version counts its LISTENING entries. *)
Definition logged (d : Drishti) : Prop :=
  path IDLE (transitions (outputs d)) = true /\
  List.last (transitions (outputs d)) IDLE = current d /\
  interactionVersion d =
    length (List.filter (State_eqb LISTENING) (transitions (outputs d))).

End Runs.

(* ===================================================================== *)
(** ** A turn whose playback cannot complete                              *)
(* ===================================================================== *)

Module Lock.
Import Js Session.

(** An event that neither hands the buffer of index [k] to the scheduler
    [q] nor records for it a total of [k] or less. *)
Definition sparesIndex (q k : nat) (e : Event) : Prop :=
  match e with
  | TtsDecoded _ q' index _ => q' = q -> index <> k
  | AllTtsSettled q' total => q' = q -> (Z.of_nat k < total)%Z
  | _ => True
  end.

(** The activation of [stopListeningAndProcess] is suspended at
    [await audioQueue.waitForCompletion()] on the scheduler [q], and
    that scheduler cannot get past index [k]. *)
Definition waitsAt (q k : nat) (d : Drishti) : Prop :=
  pipelineBusy d = true /\
  (exists a, activation d = Some a /\ awaiting a = AwaitCompletion /\
             audioQueue a = Some q) /\
  (exists m, heap d !! q = Some m /\ Queue.stalledAt k m).

(** A turn of two sentences in which the synthesis of sentence 1 fails:
    its [catch] logs the error, [Promise.all] settles, and the total of 2
    is recorded while index 1 never arrives. *)
Definition failedSynthesisTurn : list (Q * Event) :=
  [ (0, ToggleTts);
    (0, PressStart);
    (1, PressEnd);
    (1, StopRecordingReturns true);
    (2, TranscribeReturns (str "Hello"));
    (3, ChatSentence 0 (str "Hi there, how are you?"));
    (3, ChatSentence 1 (str "It is good to hear you."));
    (3, ChatDone 2);
    (3, ChatReturns);
    (4, TtsDecoded 1 0 0 (Queue.sampleBuffer 0));
    (4, AllTtsSettled 0 2);
    (5, SourceEnded 0) ]%Q.

End Lock.

(* ===================================================================== *)
(** ** A turn that is spoken                                              *)
(* ===================================================================== *)

Module Playback.
Import Js Session.

(** The call an event makes on the scheduler [q] while the reply of a
    turn streams and plays. *)
Definition callOn (q : nat) (e : Event) : option Queue.Call :=
  match e with
  | TtsDecoded _ q' index buf =>
      if q' =? q then Some (Queue.Enqueue index buf) else None
  | SourceEnded q' => if q' =? q then Some Queue.Ended else None
  | _ => None
  end.

Fixpoint callsOn (q : nat) (tr : list (Q * Event)) : list (Q * Queue.Call) :=
  match tr with
  | [] => []
  | (now, e) :: rest =>
      match callOn q e with
      | Some c => (now, c) :: callsOn q rest
      | None => callsOn q rest
      end
  end.

(** The events of that stretch: the callbacks of [chatStream], and the
    synthesis completions and ended sources of the turn's scheduler. *)
Definition streams (q : nat) (e : Event) : bool :=
  match e with
  | ChatSentence _ _ | ChatDone _ => true
  | TtsDecoded _ q' _ _ | SourceEnded q' => q' =? q
  | _ => false
  end.

(** The buffers started on the scheduler [q], in order. *)
Fixpoint startsOn (q : nat) (os : list Output)
  : list (nat * Queue.AudioBuffer) :=
  match os with
  | [] => []
  | Audio q' (Queue.Start i b _) :: rest =>
      if q' =? q then (i, b) :: startsOn q rest else startsOn q rest
  | _ :: rest => startsOn q rest
  end.

(** The activation is suspended at [aw] with the scheduler [q], whose
    fields are [m]; speech is on and no total has been recorded yet. *)
Definition live (q : nat) (aw : Await) (m : Queue.AQM) (d : Drishti) : Prop :=
  ttsEnabled d = true /\ heap d !! q = Some m /\
  Queue.allEnqueued m = false /\
  exists a, activation d = Some a /\ awaiting a = aw /\
            audioQueue a = Some q /\ runVersion a = interactionVersion d.

(** A turn that has just begun to read its stream: speech is on and the
    scheduler [q] is new. *)
Definition reading (q : nat) (d : Drishti) : Prop :=
  live q AwaitChatStream Queue.new d.

(** The state after the transcription of a turn has returned, speech
    being on. *)
Definition readingTurn : Drishti :=
  handleAll [ (0, ToggleTts); (0, PressStart); (1, PressEnd);
              (1, StopRecordingReturns true);
              (2, TranscribeReturns (str "Hello")) ]%Q boot.

End Playback.

(* ===================================================================== *)
(** ** The WAV encoder of the page                                        *)
(* ===================================================================== *)

Module Wav.

(** An element of the [Float32Array] of samples. *)
Inductive Sample :=
| Finite (x : Q)
| PlusInfinity
| MinusInfinity
| NaN.

(** [Math.max(-1, Math.min(1, s))] *)
Definition clamp (s : Sample) : Sample :=
  match s with
  | Finite x => Finite (Qmax (-1) (Qmin 1 x))
  | PlusInfinity => Finite 1
  | MinusInfinity => Finite (-1)
  | NaN => NaN
  end.

(** [s < 0 ? s * 0x8000 : s * 0x7FFF]; a comparison with NaN is false
    and its product is NaN. The products of a 32-bit float with these
    two integers are exact in double precision. *)
Definition scale (s : Sample) : Sample :=
  match s with
  | Finite x =>
      if Qle_bool 0 x then Finite (x * 32767) else Finite (x * 32768)
  | other => other
  end.

(** The integer part of a rational, towards zero. *)
Definition truncate (y : Q) : Z := Z.quot (Qnum y) (Zpos (Qden y)).

(** The conversion [setInt16] applies to its value: NaN and the
    infinities give 0, a finite number is truncated and taken modulo
    2^16. The result is the 16-bit pattern that is stored. *)
Definition toInt16 (s : Sample) : Z :=
  match s with
  | Finite y => (truncate y mod 65536)%Z
  | _ => 0%Z
  end.

(** Bytes, least significant first. *)
Definition le16 (v : Z) : list Z := [v mod 256; v / 256 mod 256]%Z.

Definition le32 (v : Z) : list Z :=
  [v mod 256; v / 256 mod 256; v / 256 / 256 mod 256;
   v / 256 / 256 / 256 mod 256]%Z.

(** A write of [bytes] at offset [o] of the buffer; [None] is the
    [RangeError] of a write that does not fit. *)
Definition write (o : nat) (bytes buf : list Z) : option (list Z) :=
  if o + length bytes <=? length buf
  then Some (take o buf ++ bytes ++ drop (o + length bytes) buf)
  else None.

(** [v.setUint32(o, value, true)], [v.setUint16(o, value, true)] and
    [v.setInt16(o, value, true)] *)
Definition setUint32 (o : nat) (value : Z) : list Z -> option (list Z) :=
  write o (le32 (value mod 4294967296)).

Definition setUint16 (o : nat) (value : Z) : list Z -> option (list Z) :=
  write o (le16 (value mod 65536)).

Definition setInt16 (o : nat) (value : Sample) : list Z -> option (list Z) :=
  write o (le16 (toInt16 value)).

(** The helper [w(o, s)]: one [setUint8] for every character code. *)
Definition codes (s : string) : list Z :=
  map (fun c => Z.of_nat (nat_of_ascii c)) (list_ascii_of_string s).

Definition w (o : nat) (s : string) : list Z -> option (list Z) :=
  write o (codes s).

(** The loop over the samples, from [offset]. *)
Fixpoint writeSamples (samples : list Sample) (offset : nat) (buf : list Z)
  : option (list Z) :=
  match samples with
  | [] => Some buf
  | s :: rest =>
      buf' ← setInt16 offset (scale (clamp s)) buf;
      writeSamples rest (offset + 2) buf'
  end.

(** [encodeWAV(audioBuffer)]: the bytes of the blob, for the sample rate
    of the buffer (an integer; [blobToWav] renders at 16000) and the
    samples of its channel 0. *)
Definition encodeWAV (sampleRate : Z) (samples : list Sample)
  : option (list Z) :=
  let dataSize := length samples * 2 in
  let buffer := repeat 0%Z (44 + dataSize) in
  b ← w 0 "RIFF" buffer;
  b ← setUint32 4 (36 + Z.of_nat dataSize) b;
  b ← w 8 "WAVE" b;
  b ← w 12 "fmt " b;
  b ← setUint32 16 16 b;
  b ← setUint16 20 1 b;
  b ← setUint16 22 1 b;
  b ← setUint32 24 sampleRate b;
  b ← setUint32 28 (sampleRate * 2) b;
  b ← setUint16 32 2 b;
  b ← setUint16 34 16 b;
  b ← w 36 "data" b;
  b ← setUint32 40 (Z.of_nat dataSize) b;
  writeSamples samples 44 b.

(** What a reader of the file finds: the unsigned number in the [n]
    bytes at offset [o], least significant first, and the signed 16-bit
    number at offset [o]. *)
Fixpoint leValue (bytes : list Z) : Z :=
  match bytes with
  | [] => 0
  | b :: rest => b + 256 * leValue rest
  end%Z.

Definition uintAt (n o : nat) (buf : list Z) : Z :=
  leValue (take n (drop o buf)).

Definition int16At (o : nat) (buf : list Z) : Z :=
  let u := uintAt 2 o buf in
  if (u <? 32768)%Z then u else (u - 65536)%Z.

(** The 16-bit sample that stands for [s]. *)
Definition quantise (s : Sample) : Z :=
  match scale (clamp s) with
  | Finite y => truncate y
  | _ => 0%Z
  end.

(** The fixed part of the header, after the RIFF size and before the
    sample rate, and the sample bytes. *)
Definition header (sampleRate : Z) (n : nat) : list Z :=
  codes "RIFF" ++ le32 ((36 + Z.of_nat (n * 2)) mod 4294967296) ++
  codes "WAVE" ++ codes "fmt " ++ le32 (16 mod 4294967296) ++
  le16 (1 mod 65536) ++ le16 (1 mod 65536) ++
  le32 (sampleRate mod 4294967296) ++
  le32 ((sampleRate * 2) mod 4294967296) ++
  le16 (2 mod 65536) ++ le16 (16 mod 65536) ++
  codes "data" ++ le32 (Z.of_nat (n * 2) mod 4294967296).

Definition pcm (samples : list Sample) : list Z :=
  concat (map (fun s => le16 (toInt16 (scale (clamp s)))) samples).

End Wav.

(* ===================================================================== *)
(** ** A connection the client closes                                     *)
(* ===================================================================== *)

Module Closing.
Import Js Server.

(** [req.on('close', () => { aborted = true; })] *)
Definition close (d : Decoder) : Decoder :=
  {| sentenceBuffer := sentenceBuffer d; sentenceIndex := sentenceIndex d;
     insideThinking := insideThinking d; aborted := true |}.

(** What the route writes when the client closes the connection after
    the deltas [before]; the deltas [after] are those of the chunk whose
    read was under way, and the flush follows. In server.js as it runs
    the event comes before the first read: [before] is empty. *)
Definition decodeClosed (before after : list jsstring) : list Sse :=
  let r1 := feed before init in
  let r2 := feed after (close (fst r1)) in
  snd r1 ++ snd r2 ++ snd (onEnd (fst r2)).

End Closing.

(* ===================================================================== *)
(** ** The request the route sends upstream                               *)
(* ===================================================================== *)

Module Prompt.
Import Js History.

(** A message of the request the route sends upstream: the system
    prompt, or a message of the page. *)
Inductive Message :=
| System
| FromPage (t : Turn).

(** [[{ role: 'system', content: SYSTEM_PROMPT },
      ...(req.body.messages || [])]] *)
Definition upstreamMessages (bodyMessages : option (list Turn))
  : list Message :=
  System :: map FromPage (match bodyMessages with
                          | Some messages => messages
                          | None => []
                          end).

End Prompt.

(* ===================================================================== *)
(** ** The transcript panel                                               *)
(* ===================================================================== *)

Module Transcript.
Import Js History.

(** An entry of the transcript panel: the element, its role, whether it
    carries the class [streaming], and its text. *)
Record Entry := mkEntry {
  element : nat;
  entryRole : Role;
  streaming : bool;
  entryText : jsstring
}.

(** The object [TranscriptUI]: the children of the panel, the element
    of the active entry, and the number of elements created so far. *)
Record UI := mkUI {
  panel : list Entry;
  activeEntry : option nat;
  created : nat
}.

Definition emptyUI : UI := {| panel := []; activeEntry := None; created := 0 |}.

(** [trimEntries()]: the first child is removed while there are more
    than 50; every round removes one child. *)
Fixpoint trimLoop (fuel : nat) (children : list Entry) : list Entry :=
  match fuel with
  | 0 => children
  | S fuel' =>
      if 50 <? length children then trimLoop fuel' (tail children)
      else children
  end.

Definition trimEntries (children : list Entry) : list Entry :=
  trimLoop (length children) children.

(** [addEntry(role, text)] *)
Definition addEntry (role : Role) (text : jsstring) (ui : UI) : UI :=
  if falsy text || (length (trim text) =? 0) then ui
  else
    {| panel := trimEntries
                  (panel ui ++ [mkEntry (created ui) role false (" "%char :: text)]);
       activeEntry := activeEntry ui;
       created := S (created ui) |}.

(** [startStreaming()] *)
Definition startStreaming (ui : UI) : UI :=
  {| panel := panel ui ++ [mkEntry (created ui) assistant true [" "%char]];
     activeEntry := Some (created ui);
     created := S (created ui) |}.

Definition onElement (e : nat) (f : Entry -> Entry) (children : list Entry)
  : list Entry :=
  map (fun x => if element x =? e then f x else x) children.

(** [appendToken(token)] *)
Definition appendToken (token : jsstring) (ui : UI) : UI :=
  match activeEntry ui with
  | None => ui
  | Some e =>
      {| panel := onElement e
                    (fun x => mkEntry (element x) (entryRole x) (streaming x)
                                (entryText x ++ token)) (panel ui);
         activeEntry := activeEntry ui; created := created ui |}
  end.

(** [endStreaming()] *)
Definition endStreaming (ui : UI) : UI :=
  match activeEntry ui with
  | None =>
      {| panel := trimEntries (panel ui); activeEntry := None;
         created := created ui |}
  | Some e =>
      {| panel := trimEntries
                    (onElement e
                       (fun x => mkEntry (element x) (entryRole x) false
                                   (entryText x)) (panel ui));
         activeEntry := None; created := created ui |}
  end.

Inductive UiCall :=
| AddEntry (role : Role) (text : jsstring)
| StartStreaming
| AppendToken (token : jsstring)
| EndStreaming.

Definition uiStep (c : UiCall) (ui : UI) : UI :=
  match c with
  | AddEntry role text => addEntry role text ui
  | StartStreaming => startStreaming ui
  | AppendToken token => appendToken token ui
  | EndStreaming => endStreaming ui
  end.

Fixpoint uiRun (calls : list UiCall) (ui : UI) : UI :=
  match calls with
  | [] => ui
  | c :: rest => uiRun rest (uiStep c ui)
  end.

(** The way the controller uses the panel: it calls [startStreaming()]
    directly after an [addEntry('user', text)] whose text is not blank.
    [added] tells that the call before was such an [addEntry]. *)
Fixpoint afterAdd (added : bool) (calls : list UiCall) : bool :=
  match calls with
  | [] => true
  | AddEntry _ text :: rest =>
      afterAdd (negb (falsy text || (length (trim text) =? 0))) rest
  | StartStreaming :: rest => added && afterAdd false rest
  | _ :: rest => afterAdd false rest
  end.

(** The elements of the panel, oldest first. *)
Definition elements (ui : UI) : list nat := map element (panel ui).

(** A list of elements in the order of their creation, all created. *)
Fixpoint ascending (from : nat) (l : list nat) : Prop :=
  match l with
  | [] => True
  | x :: rest => from <= x /\ ascending (S x) rest
  end.

End Transcript.

(* ===================================================================== *)
(** ** From a sentence event to its synthesis request                     *)
(* ===================================================================== *)

Module Pipeline.
Import Js Server.

(** The body [{ text, index, voice }] the page posts to /api/tts for a
    sentence event, as the route reads it: its [text] and [index]. *)
Definition ttsBody (event : nat * jsstring) : JsValue * JsValue :=
  (JString (snd event), JNumber (inject_Z (Z.of_nat (fst event)))).

(** The route's answer to the request the page makes for a sentence
    event. *)
Definition synthesise (voice : jsstring) (upstream : SpeechRequest -> Upstream)
    (event : nat * jsstring) : Reply * list SpeechRequest :=
  tts voice upstream (fst (ttsBody event)) (snd (ttsBody event)).

End Pipeline.

(* ===================================================================== *)
(** * Theorems                                                            *)
(* ===================================================================== *)

(** ** The playback scheduler *)

Module QueueFacts.
Import Queue.

Lemma starts_app l1 l2 : starts (l1 ++ l2) = starts l1 ++ starts l2.
Proof. induction l1 as [|[i b t|p] l1 IH]; simpl; [done | by rewrite IH | done]. Qed.

Lemma resolves_app l1 l2 : resolves (l1 ++ l2) = resolves l1 ++ resolves l2.
Proof. induction l1 as [|[i b t|p] l1 IH]; simpl; [done | done | by rewrite IH]. Qed.

(** [checkCompletion] touches nothing but the stored resolver. *)
Lemma checkCompletion_fields s :
  let r := checkCompletion s in
  queue (fst r) = queue s /\ nextPlayIndex (fst r) = nextPlayIndex s /\
  isPlaying (fst r) = isPlaying s /\
  scheduledEndTime (fst r) = scheduledEndTime s /\
  allEnqueued (fst r) = allEnqueued s /\
  totalExpected (fst r) = totalExpected s /\
  starts (snd r) = [].
Proof.
  unfold checkCompletion.
  destruct (completionCondition s); [destruct (completionResolve s)|]; simpl; auto 10.
Qed.

Lemma checkCompletion_resolves s :
  let r := checkCompletion s in
  (completionCondition s = true /\
   resolves (snd r) = match completionResolve s with Some p => [p] | None => [] end /\
   completionResolve (fst r) = None) \/
  (completionCondition s = false /\ resolves (snd r) = [] /\
   completionResolve (fst r) = completionResolve s).
Proof.
  unfold checkCompletion.
  destruct (completionCondition s); [destruct (completionResolve s) eqn:E|]; simpl; auto.
Qed.

(** The loop of [tryPlayNext]: it starts the buffers found under the
    keys [nextPlayIndex], [nextPlayIndex + 1], ... up to the first key
    that is absent, removes them, and stops there. *)
Lemma tryPlayNext_fuel_spec fuel now s :
  size (queue s) < fuel ->
  let r := tryPlayNext_fuel fuel now s in
  exists n,
    nextPlayIndex (fst r) = nextPlayIndex s + n /\
    Forall2 (fun i kb => fst kb = i /\ queue s !! i = Some (snd kb))
      (seq (nextPlayIndex s) n) (starts (snd r)) /\
    queue (fst r) !! nextPlayIndex (fst r) = None /\
    (forall i, queue (fst r) !! i =
       if decide (nextPlayIndex s <= i < nextPlayIndex s + n) then None
       else queue s !! i) /\
    resolves (snd r) = [] /\
    completionResolve (fst r) = completionResolve s /\
    allEnqueued (fst r) = allEnqueued s /\
    totalExpected (fst r) = totalExpected s.
Proof.
  revert s. induction fuel as [|fuel IH]; intros s Hsz; [lia|].
  simpl. destruct (queue s !! nextPlayIndex s) as [b|] eqn:Hq.
  - assert (Hsz' : size (queue (playOne now b s)) < fuel).
    { simpl. rewrite map_size_delete_Some by eauto.
      assert (size (queue s) <> 0) by (eapply map_size_ne_0_lookup_2; eauto).
      lia. }
    destruct (IH _ Hsz') as (n & Hn & Hst & Hnone & Hlk & Hres & Hc & Ha & Ht).
    exists (S n). simpl in *. repeat split; try done.
    + lia.
    + constructor; [by split|].
      eapply Forall2_impl; [exact Hst|].
      intros i [k b'] [-> Hd]. simpl in *. split; [done|].
      destruct (decide (nextPlayIndex s = i)) as [He|Hne].
      * subst i. by rewrite lookup_delete_eq in Hd.
      * by rewrite lookup_delete_ne in Hd.
    + intros i. rewrite Hlk.
      destruct (decide (nextPlayIndex s = i)) as [He|Hne].
      * subst i. rewrite lookup_delete_eq. repeat case_decide; try done; lia.
      * rewrite lookup_delete_ne by done. repeat case_decide; try done; lia.
  - exists 0. simpl. repeat split; try done.
    all: try lia.
    intros i. case_decide; [lia|done].
Qed.

Lemma tryPlayNext_spec now s :
  let r := tryPlayNext now s in
  exists n,
    nextPlayIndex (fst r) = nextPlayIndex s + n /\
    Forall2 (fun i kb => fst kb = i /\ queue s !! i = Some (snd kb))
      (seq (nextPlayIndex s) n) (starts (snd r)) /\
    queue (fst r) !! nextPlayIndex (fst r) = None /\
    (forall i, queue (fst r) !! i =
       if decide (nextPlayIndex s <= i < nextPlayIndex s + n) then None
       else queue s !! i) /\
    resolves (snd r) = [] /\
    completionResolve (fst r) = completionResolve s /\
    allEnqueued (fst r) = allEnqueued s /\
    totalExpected (fst r) = totalExpected s.
Proof. apply tryPlayNext_fuel_spec. lia. Qed.


Lemma Forall2_starts_map bufs (q : gmap nat AudioBuffer) from n l :
  (forall i b, q !! i = Some b -> b = bufs i) ->
  Forall2 (fun i kb => fst kb = i /\ q !! i = Some (snd kb)) (seq from n) l ->
  l = map (fun i => (i, bufs i)) (seq from n).
Proof.
  intros Hb. revert from l. induction n as [|n IH]; intros from l H; simpl in *.
  - by inversion H.
  - inversion H as [|i [k b] l1 l2 [Hk Hq] Hrest]; simpl in *; subst.
    f_equal; [by rewrite (Hb _ _ Hq)|]. by apply IH.
Qed.

Lemma seq_snoc_app (n m : nat) : seq 0 (n + m) = seq 0 n ++ seq n m.
Proof. by rewrite seq_app. Qed.

(** The loop of [tryPlayNext] keeps the invariant, provided nothing waits
    under a key below the cursor. *)
Lemma tryPlayNext_inOrder bufs enq now s played :
  played = map (fun i => (i, bufs i)) (seq 0 (nextPlayIndex s)) ->
  (forall i b, queue s !! i = Some b ->
     b = bufs i /\ i ∈ enq /\ nextPlayIndex s <= i) ->
  (forall i, i ∈ enq -> i < nextPlayIndex s \/ queue s !! i = Some (bufs i)) ->
  (forall i, i < nextPlayIndex s -> i ∈ enq) ->
  inOrder bufs enq (fst (tryPlayNext now s))
    (played ++ starts (snd (tryPlayNext now s))).
Proof.
  intros Hp Hq Henq Hlt.
  destruct (tryPlayNext_spec now s) as (n & Hn & Hst & Hnone & Hlk & _).
  set (r := tryPlayNext now s) in *.
  pose proof Hst as Hst0.
  apply (Forall2_starts_map bufs) in Hst; [|intros i b Hi; by apply Hq].
  unfold inOrder. split; [|split; [|split; [|split]]].
  - rewrite Hn, seq_snoc_app, map_app, Hst, Hp. done.
  - done.
  - intros i b H. rewrite Hlk in H. case_decide as Hd; [done|].
    destruct (Hq _ _ H) as (? & ? & Hle). split; [done|split; [done|]].
    destruct (decide (i = nextPlayIndex (fst r))) as [->|Hne]; [|lia].
    rewrite Hlk in Hnone. case_decide; [lia|]. congruence.
  - intros i Hi. rewrite Hlk. case_decide; [left; lia|].
    destruct (Henq _ Hi); [left; lia|by right].
  - intros i Hi. rewrite Hn in Hi.
    destruct (decide (i < nextPlayIndex s)) as [|Hge]; [by apply Hlt|].
    assert (Hin : i ∈ seq (nextPlayIndex s) n) by (apply elem_of_seq; lia).
    assert (Hin' : (i, bufs i) ∈ starts (snd r)).
    { rewrite Hst. apply list_elem_of_fmap. by exists i. }
    apply list_elem_of_lookup in Hin' as [j Hj].
    destruct (Forall2_lookup_r _ _ _ _ _ Hst0 Hj) as (i' & Hi' & Hk & Hqi).
    simpl in *. subst i'. by destruct (Hq _ _ Hqi) as (_ & ? & _).
Qed.

(** Each call other than [clear()] keeps the invariant; an [enqueue]
    must bring a new index with its own buffer. *)
Lemma step_inOrder bufs enq now c s played :
  inOrder bufs enq s played ->
  isClear c = false ->
  (forall i b, c = Enqueue i b -> (i ∉ enq) /\ b = bufs i) ->
  inOrder bufs
    (match c with Enqueue i _ => i :: enq | _ => enq end)
    (fst (step now c s)) (played ++ starts (snd (step now c s))).
Proof.
  intros (Hp & Hnone & Hq & Henq & Hlt) Hc Hfresh.
  destruct c as [i b| total | | p |]; simpl in *; try done.
  - destruct (Hfresh i b eq_refl) as [Hni ->].
    assert (Hge : nextPlayIndex s <= i).
    { destruct (decide (nextPlayIndex s <= i)); [done|].
      exfalso. apply Hni, Hlt. lia. }
    unfold enqueue. apply tryPlayNext_inOrder; simpl; try done.
    + intros j b Hj. destruct (decide (i = j)) as [->|Hne].
      * rewrite lookup_insert_eq in Hj. inversion Hj; subst.
        repeat split; [apply elem_of_cons; by left|done].
      * rewrite lookup_insert_ne in Hj by done.
        destruct (Hq _ _ Hj) as (? & ? & ?).
        repeat split; [done|apply elem_of_cons; by right|lia].
    + intros j Hj. apply elem_of_cons in Hj as [->|Hj].
      * right. by rewrite lookup_insert_eq.
      * destruct (Henq _ Hj) as [|Hs]; [by left|right].
        destruct (decide (i = j)) as [->|Hne]; [by rewrite lookup_insert_eq|].
        by rewrite lookup_insert_ne.
    + intros j Hj. apply elem_of_cons. right. by apply Hlt.
  - unfold markAllEnqueued.
    match goal with |- context [checkCompletion ?x] =>
      destruct (checkCompletion_fields x) as (Hq1 & Hn1 & _ & _ & _ & _ & Hs1) end.
    simpl in *. rewrite Hs1, app_nil_r.
    unfold inOrder. rewrite Hq1, Hn1. done.
  - unfold onended. rewrite Hnone. simpl.
    match goal with |- context [checkCompletion ?x] =>
      destruct (checkCompletion_fields x) as (Hq1 & Hn1 & _ & _ & _ & _ & Hs1);
      set (r1 := checkCompletion x) in * end.
    simpl in *. rewrite starts_app, Hs1. simpl.
    apply tryPlayNext_inOrder; rewrite ?Hq1, ?Hn1; try done.
    intros j b Hj. destruct (Hq _ _ Hj) as (? & ? & ?). repeat split; [done..|lia].
  - unfold waitForCompletion.
    match goal with |- context [checkCompletion ?x] =>
      destruct (checkCompletion_fields x) as (Hq1 & Hn1 & _ & _ & _ & _ & Hs1) end.
    simpl in *. rewrite Hs1, app_nil_r.
    unfold inOrder. rewrite Hq1, Hn1. done.
Qed.

Lemma inOrder_new bufs : inOrder bufs [] new [].
Proof.
  unfold inOrder, new. simpl. split; [|split; [|split; [|split]]]; try done.
  - intros i Hi. by apply elem_of_nil in Hi.
  - intros i Hi. lia.
Qed.

(** A whole trace keeps the invariant when the indices it admits are
    new and pairwise different. *)
Lemma run_inOrder bufs tr : forall enq arrival s played,
  inOrder bufs enq s played ->
  noClear tr ->
  admitted tr = map (fun i => (i, bufs i)) arrival ->
  NoDup (arrival ++ enq) ->
  inOrder bufs (rev arrival ++ enq) (fst (run tr s))
    (played ++ starts (snd (run tr s))).
Proof.
  induction tr as [|[now c] tr IH]; intros enq arrival s played Hinv Hnc Hadm Hnd.
  - destruct arrival; [|done]. simpl. by rewrite app_nil_r.
  - apply Forall_cons in Hnc as [Hc Hnc]. simpl in Hc.
    simpl. rewrite starts_app, app_assoc.
    destruct c as [i b| total | | p |]; try done.
    + destruct arrival as [|i' arrival]; [done|]. simpl in Hadm.
      inversion Hadm; subst. simpl in Hnd. apply NoDup_cons in Hnd as [Hni Hnd].
      simpl. rewrite <- app_assoc. simpl.
      apply IH; try done.
      * apply (step_inOrder bufs enq now (Enqueue i' (bufs i'))); try done.
        intros ? ? [= <- <-]. split; [|done].
        intros Hin. apply Hni, elem_of_app. by right.
      * apply NoDup_app in Hnd as (Hd1 & Hd2 & Hd3).
        apply NoDup_app. split; [done|split].
        -- intros x Hx Hx'. apply elem_of_cons in Hx' as [->|Hx'].
           ++ apply Hni, elem_of_app. by left.
           ++ by apply (Hd2 x).
        -- apply NoDup_cons. split; [|done].
           intros Hin. apply Hni, elem_of_app. by right.
    + apply IH; try done.
      by apply (step_inOrder bufs enq now (MarkAllEnqueued total)).
    + apply IH; try done.
      by apply (step_inOrder bufs enq now Ended).
    + apply IH; try done.
      by apply (step_inOrder bufs enq now (WaitForCompletion p)).
Qed.


(** After a trace that admits each of the indices [0 .. N-1] once, all
    of them have been started in index order and the map is empty. *)
Lemma run_complete N bufs arrival tr :
  Permutation arrival (seq 0 N) ->
  admitted tr = map (fun i => (i, bufs i)) arrival ->
  noClear tr ->
  starts (snd (run tr new)) = map (fun i => (i, bufs i)) (seq 0 N) /\
  nextPlayIndex (fst (run tr new)) = N /\
  queue (fst (run tr new)) = ∅.
Proof.
  intros Hperm Hadm Hnc.
  assert (Hnd : NoDup (arrival ++ [])).
  { rewrite app_nil_r, Hperm. apply NoDup_seq. }
  pose proof (run_inOrder bufs tr [] arrival new [] (inOrder_new bufs) Hnc Hadm Hnd)
    as (Hp & Hnone & Hq & Henq & Hlt).
  simpl in Hp. rewrite app_nil_r in *.
  assert (Hmem : forall i, i ∈ rev arrival <-> i < N).
  { intros i. rewrite list_elem_of_In, <- in_rev, <- list_elem_of_In, Hperm, elem_of_seq. lia. }
  set (r := run tr new) in *.
  assert (HN : nextPlayIndex (fst r) = N).
  { destruct (Nat.lt_trichotomy (nextPlayIndex (fst r)) N) as [Hl|[He|Hg]]; [|done|].
    - apply Hmem in Hl. destruct (Henq _ Hl) as [|Hs]; [lia|congruence].
    - apply Hlt, Hmem in Hg. lia. }
  split; [by rewrite Hp, HN|split; [done|]].
  apply map_empty. intros i. destruct (queue (fst r) !! i) as [b|] eqn:Hi; [|done].
  destruct (Hq _ _ Hi) as (_ & Hin & Hgt). apply Hmem in Hin. lia.
Qed.

Lemma admitted_app tr1 tr2 : admitted (tr1 ++ tr2) = admitted tr1 ++ admitted tr2.
Proof.
  induction tr1 as [|[now c] tr1 IH]; [done|].
  destruct c; simpl; by rewrite ?IH.
Qed.

Lemma run_app tr1 tr2 s :
  run (tr1 ++ tr2) s =
  (fst (run tr2 (fst (run tr1 s))), snd (run tr1 s) ++ snd (run tr2 (fst (run tr1 s)))).
Proof.
  revert s. induction tr1 as [|[now c] tr1 IH]; intros s; simpl.
  - by destruct (run tr2 s).
  - rewrite IH. simpl. by rewrite app_assoc.
Qed.

(** The same holds after every prefix of such a trace, up to the cursor
    reached. *)
Lemma run_prefix_inOrder N bufs arrival tr1 tr2 :
  Permutation arrival (seq 0 N) ->
  admitted (tr1 ++ tr2) = map (fun i => (i, bufs i)) arrival ->
  noClear (tr1 ++ tr2) ->
  exists enq, inOrder bufs enq (fst (run tr1 new)) (starts (snd (run tr1 new))).
Proof.
  intros Hperm Hadm Hnc.
  rewrite admitted_app in Hadm. symmetry in Hadm.
  apply fmap_app_inv in Hadm as (a1 & a2 & H1 & H2 & ->).
  apply Forall_app in Hnc as [Hnc1 _].
  assert (Hnd : NoDup (a1 ++ [])).
  { rewrite app_nil_r.
    assert (Hall : NoDup (a1 ++ a2)) by (rewrite Hperm; apply NoDup_seq).
    by apply NoDup_app in Hall as [? _]. }
  exists (rev a1 ++ []).
  apply (run_inOrder bufs tr1 [] a1 new [] (inOrder_new bufs) Hnc1); by rewrite ?H1.
Qed.

(** If the loop starts nothing it changes nothing. *)
Lemma tryPlayNext_fuel_idle fuel now s :
  starts (snd (tryPlayNext_fuel fuel now s)) = [] ->
  fst (tryPlayNext_fuel fuel now s) = s.
Proof. destruct fuel; simpl; [done|]. by destruct (queue s !! nextPlayIndex s). Qed.

Lemma step_idle_schedule now c s :
  isClear c = false ->
  starts (snd (step now c s)) = [] ->
  scheduledEndTime (fst (step now c s)) = scheduledEndTime s.
Proof.
  intros Hc Hs. destruct c as [i b| total | | p |]; simpl in *; try done.
  - unfold enqueue, tryPlayNext in *. by rewrite tryPlayNext_fuel_idle.
  - unfold markAllEnqueued.
    match goal with |- context [checkCompletion ?x] =>
      by destruct (checkCompletion_fields x) as (_ & _ & _ & -> & _) end.
  - unfold onended in *. simpl in *. rewrite starts_app in Hs.
    apply app_eq_nil in Hs as [_ Hs]. unfold tryPlayNext in *.
    rewrite tryPlayNext_fuel_idle by done.
    destruct (queue s !! nextPlayIndex s); [done|].
    match goal with |- context [checkCompletion ?x] =>
      by destruct (checkCompletion_fields x) as (_ & _ & _ & -> & _) end.
  - unfold waitForCompletion.
    match goal with |- context [checkCompletion ?x] =>
      by destruct (checkCompletion_fields x) as (_ & _ & _ & -> & _) end.
Qed.

Lemma run_idle_schedule tr : forall s,
  noClear tr ->
  starts (snd (run tr s)) = [] ->
  scheduledEndTime (fst (run tr s)) = scheduledEndTime s.
Proof.
  induction tr as [|[now c] tr IH]; intros s Hnc Hs; [done|].
  apply Forall_cons in Hnc as [Hc Hnc]. simpl in *.
  rewrite starts_app in Hs. apply app_eq_nil in Hs as [Hs1 Hs2].
  rewrite IH by done. by apply step_idle_schedule.
Qed.

Lemma backToBack_proper from from' l :
  from == from' -> backToBack from l -> backToBack from' l.
Proof.
  revert from from'. induction l as [|[i b t|p] l IH]; intros from from' He; simpl.
  - done.
  - intros [Ht Hl]. split; [by rewrite Ht|done].
  - by apply IH.
Qed.

Lemma backToBack_idle from l1 l2 :
  starts l1 = [] -> backToBack from l2 -> backToBack from (l1 ++ l2).
Proof.
  induction l1 as [|[i b t|p] l1 IH]; simpl; try done.
Qed.

(** Buffers started by one run of the loop, at one clock value, touch:
    from the second on, the start time is the end time before it. *)
Lemma tryPlayNext_fuel_backToBack fuel now : forall s,
  (forall i b, queue s !! i = Some b -> 0 <= duration b)%Q ->
  backToBack (startTimeOf now s) (snd (tryPlayNext_fuel fuel now s)).
Proof.
  induction fuel as [|fuel IH]; intros s Hd; simpl; [done|].
  destruct (queue s !! nextPlayIndex s) as [b|] eqn:Hq; simpl; [|done].
  split; [reflexivity|].
  apply (backToBack_proper (startTimeOf now (playOne now b s))).
  - unfold startTimeOf at 1. simpl. apply Q.max_r.
    pose proof (Q.le_max_l (now + lead) (scheduledEndTime s)) as Hle.
    pose proof (Hd _ _ Hq) as Hb. unfold startTimeOf. lra.
  - apply IH. intros i b' Hi. simpl in Hi.
    destruct (decide (nextPlayIndex s = i)) as [He|Hne].
    + subst i. by rewrite lookup_delete_eq in Hi.
    + rewrite lookup_delete_ne in Hi by done. by apply (Hd i).
Qed.

Lemma tryPlayNext_unfold now s b :
  queue s !! nextPlayIndex s = Some b ->
  tryPlayNext now s =
  (fst (tryPlayNext now (playOne now b s)),
   Start (nextPlayIndex s) b (Qmax (now + lead) (scheduledEndTime s))
     :: snd (tryPlayNext now (playOne now b s))).
Proof.
  intros Hq. unfold tryPlayNext at 1. simpl. rewrite Hq.
  assert (Hsz : size (queue s) = S (size (queue (playOne now b s)))).
  { simpl. rewrite map_size_delete_Some by eauto.
    assert (size (queue s) <> 0) by (eapply map_size_ne_0_lookup_2; eauto).
    lia. }
  rewrite Hsz. done.
Qed.

Lemma stalledAt_condition k s : stalledAt k s -> completionCondition s = false.
Proof.
  intros (Hn & _ & Ht). unfold completionCondition.
  destruct (allEnqueued s); [|done]. specialize (Ht eq_refl).
  destruct (Z.leb_spec (totalExpected s) (Z.of_nat (nextPlayIndex s))); [lia|done].
Qed.

Lemma checkCompletion_stalled k s :
  stalledAt k s ->
  checkCompletion s = (s, []).
Proof.
  intros H. unfold checkCompletion. by rewrite (stalledAt_condition k).
Qed.

Lemma tryPlayNext_stalled k now s :
  stalledAt k s ->
  stalledAt k (fst (tryPlayNext now s)) /\ resolves (snd (tryPlayNext now s)) = [].
Proof.
  intros (Hn & Hk & Ht).
  destruct (tryPlayNext_spec now s) as (n & Hn' & Hst & _ & Hlk & Hres & _ & Ha & Htot).
  split; [|done]. unfold stalledAt. rewrite Ha, Htot, Hlk. split; [|split; [|done]].
  - destruct (decide (nextPlayIndex s + n <= k)) as [|Hgt]; [lia|]. exfalso.
    assert (Hl : seq (nextPlayIndex s) n !! (k - nextPlayIndex s) = Some k).
    { rewrite lookup_seq. split; lia. }
    destruct (Forall2_lookup_l _ _ _ _ _ Hst Hl) as (kb & _ & _ & Hq). congruence.
  - by case_decide.
Qed.

Lemma step_stalled k now c s :
  stalledAt k s -> leavesOut k c ->
  stalledAt k (fst (step now c s)) /\ resolves (snd (step now c s)) = [].
Proof.
  intros Hs Hc. pose proof Hs as (Hn & Hk & Ht).
  destruct c as [i b| total | | p |]; simpl in *; try done.
  - unfold enqueue. apply tryPlayNext_stalled.
    split; [done|split; [|done]]. simpl. by rewrite lookup_insert_ne.
  - unfold markAllEnqueued. rewrite (checkCompletion_stalled k); [|by split].
    simpl. split; [|done]. by split.
  - unfold onended.
    assert (Hcc : forall x, stalledAt k x -> stalledAt k (fst (tryPlayNext now x)) /\
              resolves ([] ++ snd (tryPlayNext now x)) = [])
      by (intros; by apply tryPlayNext_stalled).
    destruct (queue s !! nextPlayIndex s).
    + simpl. by apply Hcc.
    + rewrite (checkCompletion_stalled k); [|by split]. simpl. apply Hcc. by split.
  - unfold waitForCompletion. rewrite (checkCompletion_stalled k); [|by split].
    simpl. split; [|done]. by split.
Qed.

Lemma run_stalled k tr : forall s,
  stalledAt k s -> Forall (fun x => leavesOut k (snd x)) tr ->
  stalledAt k (fst (run tr s)) /\ resolves (snd (run tr s)) = [].
Proof.
  induction tr as [|[now c] tr IH]; intros s Hs Htr; [by split|].
  apply Forall_cons in Htr as [Hc Htr]. simpl in *.
  destruct (step_stalled k now c s Hs Hc) as [Hs1 Hr1].
  destruct (IH _ Hs1 Htr) as [Hs2 Hr2].
  split; [done|]. by rewrite resolves_app, Hr1, Hr2.
Qed.

(** C2. However the synthesis results of the indices 0 .. N-1 arrive
    (any permutation, at any clock values, with [onended],
    [markAllEnqueued] and [waitForCompletion] calls anywhere in between),
    the scheduler starts the buffers in index order 0, 1, ..., N-1 and
    ends with an empty map; after every prefix of the trace what has
    been started is the buffers of the indices below [nextPlayIndex], in
    order, each taken from the key equal to the cursor, and no key below
    the cursor is left in the map. *)
Theorem playback_in_index_order (N : nat) (bufs : nat -> AudioBuffer)
    (arrival : list nat) (tr : list (Q * Call)) :
  Permutation arrival (seq 0 N) ->
  admitted tr = map (fun i => (i, bufs i)) arrival ->
  noClear tr ->
  (starts (snd (run tr new)) = map (fun i => (i, bufs i)) (seq 0 N) /\
   nextPlayIndex (fst (run tr new)) = N /\
   queue (fst (run tr new)) = ∅) /\
  (forall tr1 tr2, tr = tr1 ++ tr2 ->
     starts (snd (run tr1 new)) =
       map (fun i => (i, bufs i)) (seq 0 (nextPlayIndex (fst (run tr1 new)))) /\
     (forall i, i <= nextPlayIndex (fst (run tr1 new)) ->
        queue (fst (run tr1 new)) !! i = None)).
Proof.
  intros Hperm Hadm Hnc. split; [by eapply run_complete|].
  intros tr1 tr2 ->.
  destruct (run_prefix_inOrder N bufs arrival tr1 tr2 Hperm Hadm Hnc)
    as (enq & Hp & Hnone & Hq & _).
  split; [done|]. intros i Hi.
  destruct (queue (fst (run tr1 new)) !! i) as [b|] eqn:Hb; [|done].
  destruct (Hq _ _ Hb) as (_ & _ & Hlt). lia.
Qed.

Lemma playback_in_index_order_witness :
  Permutation [1; 0; 2] (seq 0 3) /\
  starts (snd (run outOfOrderTurn new)) =
    [(0, sampleBuffer 0); (1, sampleBuffer 1); (2, sampleBuffer 2)].
Proof.
  assert (Hperm : Permutation [1; 0; 2] (seq 0 3)) by apply perm_swap.
  split; [exact Hperm|].
  apply (playback_in_index_order 3 sampleBuffer [1; 0; 2] outOfOrderTurn Hperm).
  - reflexivity.
  - repeat constructor.
Defined.

(** The first buffer of a turn: the scheduler is new, its end time is 0,
    the clock is at 1. The buffer, of half a second, starts at 1.02 and
    the end time becomes 1.52: it has advanced by more than the duration
    of the buffer. *)
Lemma first_buffer_advances_by_more :
  starts (snd (run [(1%Q, Enqueue 0 (sampleBuffer 0))] new))
    = [(0, sampleBuffer 0)] /\
  (scheduledEndTime new == 0)%Q /\
  (duration (sampleBuffer 0) == 1 # 2)%Q /\
  (scheduledEndTime (fst (run [(1%Q, Enqueue 0 (sampleBuffer 0))] new))
     == 152 # 100)%Q /\
  ~ (scheduledEndTime (fst (run [(1%Q, Enqueue 0 (sampleBuffer 0))] new))
       == scheduledEndTime new + duration (sampleBuffer 0))%Q.
Proof.
  split; [by vm_compute|]. split; [by vm_compute|]. split; [by vm_compute|].
  split; [by vm_compute|]. vm_compute. discriminate.
Qed.

(** C3, amended. A buffer found under the cursor is started at
    [max(currentTime + 0.02, scheduledEndTime)] and [scheduledEndTime]
    becomes that start time plus the duration of the buffer, after which
    the loop goes on. The end time so advances by exactly the duration
    when the buffer starts where its predecessor ends, and only then;
    when the clock plus the lead is later, as for the first buffer of a
    turn, it becomes the clock plus the lead plus the duration, which is
    more. Consequently, when index 0 is the last of the turn to be
    admitted (so that every buffer is in the map before the first one
    plays), the buffers [0 .. N] are all started by that one call, the
    first at [max(currentTime + 0.02, 0)] and each next one at the very
    instant the one before it ends: no overlap and no gap. *)
Theorem gapless_schedule (N : nat) (bufs : nat -> AudioBuffer)
    (arrival : list nat) (tr : list (Q * Call)) (now : Q) :
  Permutation arrival (seq 1 N) ->
  admitted tr = map (fun i => (i, bufs i)) arrival ->
  noClear tr ->
  (forall i, 0 <= duration (bufs i))%Q ->
  (forall clock s b, queue s !! nextPlayIndex s = Some b ->
     tryPlayNext clock s =
       (fst (tryPlayNext clock (playOne clock b s)),
        Start (nextPlayIndex s) b
          (Qmax (clock + (2 # 100)) (scheduledEndTime s))
          :: snd (tryPlayNext clock (playOne clock b s))) /\
     scheduledEndTime (playOne clock b s) =
       (Qmax (clock + (2 # 100)) (scheduledEndTime s) + duration b)%Q /\
     ((clock + (2 # 100) <= scheduledEndTime s)%Q <->
      (scheduledEndTime (playOne clock b s) ==
         scheduledEndTime s + duration b)%Q) /\
     ((scheduledEndTime s < clock + (2 # 100))%Q ->
      (scheduledEndTime (playOne clock b s) ==
         clock + (2 # 100) + duration b)%Q /\
      (scheduledEndTime s + duration b <
         scheduledEndTime (playOne clock b s))%Q)) /\
  starts (snd (run (tr ++ [(now, Enqueue 0 (bufs 0))]) new)) =
    map (fun i => (i, bufs i)) (seq 0 (S N)) /\
  backToBack (Qmax (now + (2 # 100)) 0)
    (snd (run (tr ++ [(now, Enqueue 0 (bufs 0))]) new)).
Proof.
  intros Hperm Hadm Hnc Hdur. split; [|split].
  - intros clock s b Hq. split; [by apply tryPlayNext_unfold|].
    split; [done|].
    cbn [playOne scheduledEndTime]. unfold startTimeOf.
    change lead with (2 # 100).
    pose proof (Q.max_spec (clock + (2 # 100)) (scheduledEndTime s)) as Hmax.
    revert Hmax. generalize (Qmax (clock + (2 # 100)) (scheduledEndTime s)).
    intros m Hmax. split; [split|].
    + intros Hle. destruct Hmax as [[Hlt Hm]|[Hge Hm]]; lra.
    + intros He. destruct Hmax as [[Hlt Hm]|[Hge Hm]]; lra.
    + intros Hlt. destruct Hmax as [[Hlt' Hm]|[Hge Hm]]; split; lra.
  - eapply (run_complete (S N) bufs (arrival ++ [0])).
    + rewrite <- Permutation_cons_append. simpl. by constructor.
    + rewrite admitted_app, Hadm, map_app. done.
    + apply Forall_app. split; [done|]. by repeat constructor.
  - assert (Hnd : NoDup (arrival ++ [])).
    { rewrite app_nil_r, Hperm. apply NoDup_seq. }
    pose proof (run_inOrder bufs tr [] arrival new [] (inOrder_new bufs) Hnc Hadm Hnd)
      as (Hp & _ & Hq & _ & Hlt).
    simpl in Hp. rewrite app_nil_r in *.
    assert (H0 : nextPlayIndex (fst (run tr new)) = 0).
    { destruct (nextPlayIndex (fst (run tr new))) as [|n] eqn:E; [done|].
      assert (Hin : 0 ∈ rev arrival) by (apply Hlt; lia).
      rewrite list_elem_of_In, <- in_rev, <- list_elem_of_In, Hperm, elem_of_seq in Hin.
      lia. }
    rewrite H0 in Hp. simpl in Hp.
    pose proof (run_idle_schedule tr new Hnc Hp) as Hsched. simpl in Hsched.
    rewrite run_app. simpl. apply backToBack_idle; [done|].
    rewrite app_nil_r. unfold enqueue, tryPlayNext.
    match goal with |- context [tryPlayNext_fuel ?f now ?x] =>
      pose proof (tryPlayNext_fuel_backToBack f now x) as Hb end.
    unfold startTimeOf in Hb at 1. simpl in Hb. rewrite Hsched in Hb.
    apply Hb. intros i b Hi.
    destruct (decide (0 = i)) as [<-|Hne].
    + rewrite lookup_insert_eq in Hi. inversion Hi; subst. apply Hdur.
    + rewrite lookup_insert_ne in Hi by done.
      destruct (Hq _ _ Hi) as (-> & _). apply Hdur.
Qed.

Lemma gapless_schedule_witness :
  Permutation [2; 1] (seq 1 2) /\
  backToBack (Qmax ((1 # 5) + (2 # 100)) 0)
    (snd (run (firstStillToCome ++ [((1 # 5)%Q, Enqueue 0 (sampleBuffer 0))]) new)).
Proof.
  assert (Hperm : Permutation [2; 1] (seq 1 2)) by apply perm_swap.
  split; [exact Hperm|].
  apply (gapless_schedule 2 sampleBuffer [2; 1] firstStillToCome (1 # 5) Hperm).
  - reflexivity.
  - repeat constructor.
  - intros i. unfold sampleBuffer. simpl. unfold Qle. simpl. lia.
Defined.

(** C4. From every state of the scheduler, [clear()] leaves the state of
    a new scheduler (empty map, cursor 0, scheduled end time 0, no total
    recorded, no resolver stored), starts nothing, and calls the resolver
    that was stored, if there was one; so a promise obtained from
    [waitForCompletion()] is resolved exactly once by the time a
    following [clear()] returns, whatever the map held. *)
Theorem clear_resets_and_resolves (s : AQM) :
  fst (clear s) = new /\
  queue (fst (clear s)) = ∅ /\
  nextPlayIndex (fst (clear s)) = 0 /\
  scheduledEndTime (fst (clear s)) = 0%Q /\
  completionResolve (fst (clear s)) = None /\
  starts (snd (clear s)) = [] /\
  resolves (snd (clear s)) =
    match completionResolve s with Some p => [p] | None => [] end /\
  (forall p,
     resolves (snd (waitForCompletion p s) ++
               snd (clear (fst (waitForCompletion p s)))) = [p]).
Proof.
  do 5 (split; [done|]). split; [|split].
  - simpl. by destruct (completionResolve s).
  - simpl. by destruct (completionResolve s).
  - intros p. rewrite resolves_app. unfold waitForCompletion.
    match goal with |- context [checkCompletion ?x] =>
      destruct (checkCompletion_resolves x) as [(_ & Hr & Hc)|(_ & Hr & Hc)];
      set (r := checkCompletion x) in * end.
    + simpl in *. rewrite Hr. unfold clear. simpl. by rewrite Hc.
    + simpl in *. rewrite Hr. unfold clear. simpl. by rewrite Hc.
Qed.

(** C5. In a turn in which index [k] is never admitted, [clear()] is
    never called and every total recorded by [markAllEnqueued] is above
    [k], the cursor never passes [k], the completion condition is false
    in every state reached and no resolver is ever called: a promise
    obtained from [waitForCompletion()] stays pending. *)
Theorem missing_index_stalls (k : nat) (tr : list (Q * Call)) :
  Forall (fun x => leavesOut k (snd x)) tr ->
  nextPlayIndex (fst (run tr new)) <= k /\
  completionCondition (fst (run tr new)) = false /\
  resolves (snd (run tr new)) = [].
Proof.
  intros Htr.
  assert (H0 : stalledAt k new).
  { split; [simpl; lia|split; [done|done]]. }
  destruct (run_stalled k tr new H0 Htr) as [Hs Hr].
  split; [apply Hs|split; [by apply (stalledAt_condition k)|done]].
Qed.

Lemma missing_index_stalls_witness :
  nextPlayIndex (fst (run secondFailedTurn new)) <= 1 /\
  completionCondition (fst (run secondFailedTurn new)) = false /\
  resolves (snd (run secondFailedTurn new)) = [].
Proof.
  apply (missing_index_stalls 1 secondFailedTurn).
  unfold secondFailedTurn. repeat constructor; simpl; lia.
Defined.

End QueueFacts.

(** ** Strings, the stream decoder and the TTS route *)

Module JsFacts.
Import Js.

Lemma startsWith_spec p : forall s, startsWith p s = true <-> exists r, s = p ++ r.
Proof.
  induction p as [|a p IH]; intros s; simpl.
  - split; [eauto|done].
  - destruct s as [|b s]; [split; [done|by intros [r Hr]]|].
    rewrite andb_true_iff, Ascii.eqb_eq, IH. split.
    + intros [-> [r ->]]. by exists r.
    + intros [r [= -> ->]]. eauto.
Qed.

Lemma startsWith_nil_r p s : startsWith p [] = true -> startsWith p s = true.
Proof. destruct p; [done|simpl; discriminate]. Qed.

Lemma startsWith_take p : forall m s,
  startsWith p (take m s) = true -> startsWith p s = true.
Proof.
  induction p as [|a p IH]; intros m s; simpl; [done|].
  destruct m, s as [|b s]; simpl; try done.
  rewrite !andb_true_iff. intros [? ?]. eauto.
Qed.

(** [indexOf] returns a position at which the needle starts, and none
    before it does. *)
Lemma indexOf_Some needle : forall s i,
  indexOf needle s = Some i ->
  i <= length s /\ startsWith needle (drop i s) = true.
Proof.
  induction s as [|c s IH]; intros i; simpl.
  - destruct (startsWith needle []) eqn:E; [|done]. intros [= <-]. split; [lia|done].
  - destruct (startsWith needle (c :: s)) eqn:E.
    + intros [= <-]. split; [lia|done].
    + destruct (indexOf needle s) as [j|]; [|done]. simpl. intros [= <-].
      destruct (IH j eq_refl). split; [lia|done].
Qed.

Lemma indexOf_None needle : forall s i,
  indexOf needle s = None -> startsWith needle (drop i s) = false.
Proof.
  induction s as [|c s IH]; intros i; simpl.
  - destruct (startsWith needle []) eqn:E; [done|]. intros _. by destruct i.
  - destruct (startsWith needle (c :: s)) eqn:E; [done|].
    destruct (indexOf needle s) eqn:E'; [done|]. intros _.
    destruct i; [done|]. simpl. by apply IH.
Qed.

Lemma indexOf_None_iff needle s :
  indexOf needle s = None <-> forall i, startsWith needle (drop i s) = false.
Proof.
  split; [intros H i; by apply indexOf_None|].
  intros H. destruct (indexOf needle s) as [i|] eqn:E; [|done].
  apply indexOf_Some in E as [_ E]. by rewrite H in E.
Qed.

Lemma includes_false needle s :
  includes needle s = false <-> forall i, startsWith needle (drop i s) = false.
Proof.
  unfold includes. rewrite <- indexOf_None_iff.
  destruct (indexOf needle s); split; done.
Qed.

Lemma includes_drop needle k s :
  includes needle s = false -> includes needle (drop k s) = false.
Proof.
  rewrite !includes_false. intros H i. rewrite drop_drop. apply H.
Qed.

Lemma includes_take needle k s :
  includes needle s = false -> includes needle (take k s) = false.
Proof.
  rewrite !includes_false. intros H i.
  destruct (startsWith needle (drop i (take k s))) eqn:E; [|done].
  rewrite <- (H i). symmetry.
  rewrite skipn_firstn_comm in E. by apply startsWith_take in E.
Qed.


Lemma startsWith_length p s : startsWith p s = true -> length p <= length s.
Proof. rewrite startsWith_spec. intros [r ->]. rewrite length_app. lia. Qed.

(** [lastIndexOf_from] returns the last position at which the needle
    starts, or the accumulator when it starts nowhere. *)
Lemma lastIndexOf_from_spec needle : forall s pos acc,
  ((forall j, j <= length s -> startsWith needle (drop j s) = false) /\
   lastIndexOf_from needle s pos acc = acc) \/
  (exists j, j <= length s /\ startsWith needle (drop j s) = true /\
     (forall j', j < j' -> j' <= length s ->
        startsWith needle (drop j' s) = false) /\
     lastIndexOf_from needle s pos acc = Some (pos + j)).
Proof.
  induction s as [|c s IH]; intros pos acc; simpl.
  - destruct (startsWith needle []) eqn:E.
    + right. exists 0. repeat split; try done; [intros; lia|f_equal; lia].
    + left. split; [|done]. intros j _. by destruct j.
  - destruct (IH (S pos)
      (if startsWith needle (c :: s) then Some pos else acc))
      as [[Hno Hr]|(j & Hj & Hs & Hmax & Hr)].
    + destruct (startsWith needle (c :: s)) eqn:E.
      * right. exists 0. repeat split; try done; [lia| |rewrite Hr; f_equal; lia].
        intros j' H1 H2. destruct j'; [lia|]. simpl. apply Hno. lia.
      * left. split; [|done]. intros j Hj. destruct j; [done|]. simpl. apply Hno. lia.
    + right. exists (S j). repeat split; try done; [lia| |rewrite Hr; f_equal; lia].
      intros j' H1 H2. destruct j'; [lia|]. simpl. apply Hmax; lia.
Qed.

End JsFacts.

Module ServerFacts.
Import Js Server JsFacts.

Lemma removeSpans_fuel_no_open fuel text :
  includes think_open text = false -> removeSpans_fuel fuel text = text.
Proof.
  unfold includes. destruct fuel; simpl; [done|].
  by destruct (indexOf think_open text).
Qed.

Lemma removeSpans_fuel_no_close fuel text :
  includes think_close text = false -> removeSpans_fuel fuel text = text.
Proof.
  intros H. destruct fuel; simpl; [done|].
  destruct (indexOf think_open text) as [i|]; [|done].
  apply (includes_drop _ (i + length think_open)) in H.
  unfold includes in H. by destruct (indexOf think_close _).
Qed.

(** In hidden mode a delta without the end marker forwards nothing and
    leaves the decoder hidden. *)
Lemma stripThinking_hidden_stays text :
  includes think_close text = false ->
  stripThinking true text = (true, []).
Proof.
  intros H. unfold stripThinking, removeSpans.
  rewrite removeSpans_fuel_no_close by done.
  destruct (includes think_open text) eqn:Ho.
  - unfold removeFromOpen. unfold includes in Ho.
    destruct (indexOf think_open text) as [i|]; [|done].
    by rewrite (includes_take _ i _ H).
  - by rewrite H.
Qed.

(** A delta with an unmatched start marker and no end marker puts the
    decoder into hidden mode and forwards nothing. *)
Lemma stripThinking_enters_hidden inside text :
  includes think_open text = true ->
  includes think_close text = false ->
  stripThinking inside text = (true, []).
Proof.
  intros Ho H. unfold stripThinking, removeSpans.
  rewrite removeSpans_fuel_no_close by done. rewrite Ho.
  unfold removeFromOpen. unfold includes in Ho.
  destruct (indexOf think_open text) as [i|]; [|done].
  by rewrite (includes_take _ i _ H).
Qed.

(** Outside hidden mode a delta without the start marker is forwarded
    as it is. *)
Lemma stripThinking_plain text :
  includes think_open text = false ->
  stripThinking false text = (false, text).
Proof.
  intros Ho. unfold stripThinking, removeSpans.
  rewrite removeSpans_fuel_no_open by done. by rewrite Ho.
Qed.

(** In hidden mode a delta with an end marker (and no start marker)
    leaves hidden mode and forwards what follows its last end marker. *)
Lemma stripThinking_leaves_hidden text :
  includes think_open text = false ->
  includes think_close text = true ->
  exists pre post,
    text = pre ++ think_close ++ post /\
    includes think_close post = false /\
    stripThinking true text = (false, post).
Proof.
  intros Ho Hc. unfold stripThinking, removeSpans.
  rewrite removeSpans_fuel_no_open by done. rewrite Ho, Hc. simpl.
  unfold removeToClose, lastIndexOf.
  destruct (lastIndexOf_from_spec think_close text 0 None)
    as [[Hno Hr]|(j & Hj & Hs & Hmax & Hr)].
  - exfalso. unfold includes in Hc.
    destruct (indexOf think_close text) as [i|] eqn:E; [|done].
    apply indexOf_Some in E as [Hi E]. by rewrite Hno in E.
  - rewrite Hr. simpl.
    pose proof Hs as Hs'. apply startsWith_spec in Hs' as [post Hpost].
    exists (take j text), post.
    assert (Hd : drop (j + 8) text = post).
    { rewrite <- drop_drop, Hpost. apply (drop_app_length think_close). }
    split; [|split].
    + rewrite <- (take_drop j text) at 1. by rewrite Hpost.
    + rewrite <- Hd. apply includes_false. intros i. rewrite drop_drop.
      destruct (decide (j + 8 + i <= length text)) as [Hle|Hgt].
      * apply Hmax; [lia|done].
      * rewrite drop_ge by lia. done.
    + by rewrite Hd.
Qed.

Lemma removeSpans_fuel_enough : forall f1 f2 text,
  length text <= f1 -> length text <= f2 ->
  removeSpans_fuel f1 text = removeSpans_fuel f2 text.
Proof.
  induction f1 as [|f1 IH]; intros f2 text H1 H2.
  - destruct text; [|simpl in *; lia]. by destruct f2.
  - destruct f2 as [|f2]; [destruct text; [done|simpl in *; lia]|].
    cbn [removeSpans_fuel].
    destruct (indexOf think_open text) as [i|] eqn:Ei; [|done].
    destruct (indexOf think_close (drop (i + length think_open) text))
      as [j|] eqn:Ej; [|done].
    f_equal. apply indexOf_Some in Ej as [Hj Hs].
    apply startsWith_length in Hs.
    rewrite !length_drop in *. simpl in *.
    apply IH; rewrite !length_drop; simpl; lia.
Qed.

Lemma indexOf_fresh a needle rest : forall pre,
  Forall (fun c => c <> a) pre ->
  indexOf (a :: needle) (pre ++ (a :: needle) ++ rest) = Some (length pre).
Proof.
  induction pre as [|c pre IH]; intros Hf.
  - assert (H : startsWith (a :: needle) ((a :: needle) ++ rest) = true)
      by (apply startsWith_spec; eauto).
    simpl in *. by rewrite H.
  - apply Forall_cons in Hf as [Hc Hf]. simpl.
    destruct (Ascii.eqb_spec a c) as [->|_]; [done|]. simpl.
    simpl in IH. by rewrite IH.
Qed.

(** A complete span [<think> ... </think>] is removed from a delta (the
    text before the span and the hidden text hold no [<]). *)
Lemma removeSpans_span pre hidden post :
  Forall (fun c => c <> "<"%char) pre ->
  Forall (fun c => c <> "<"%char) hidden ->
  removeSpans (pre ++ think_open ++ hidden ++ think_close ++ post) =
  pre ++ removeSpans post.
Proof.
  intros Hp Hh. unfold removeSpans.
  set (text := pre ++ think_open ++ hidden ++ think_close ++ post).
  assert (Hlen : length text = length pre + 7 + length hidden + 8 + length post).
  { unfold text. rewrite !length_app. simpl. lia. }
  assert (Hi : indexOf think_open text = Some (length pre)).
  { exact (indexOf_fresh "<"%char (str "think>") _ pre Hp). }
  assert (Hd : drop (length pre + length think_open) text =
               hidden ++ think_close ++ post).
  { unfold text. by rewrite <- drop_drop, drop_app_length, drop_app_length. }
  assert (Hj : indexOf think_close (hidden ++ think_close ++ post) =
               Some (length hidden)).
  { exact (indexOf_fresh "<"%char (str "/think>") _ hidden Hh). }
  destruct (length text) as [|f] eqn:Hf; [lia|].
  cbn [removeSpans_fuel]. rewrite Hi, Hd, Hj.
  unfold text at 1. rewrite take_app_length. f_equal.
  rewrite <- drop_drop, drop_app_length, drop_app_length.
  apply removeSpans_fuel_enough; lia.
Qed.

(** The remaining rounds of the fuelled loops are never needed: any two
    amounts of fuel that cover the length of the text give the same
    result. *)
Lemma removeHeadings_fuel_enough : forall f1 f2 s,
  length s <= f1 -> length s <= f2 ->
  removeHeadings_fuel f1 s = removeHeadings_fuel f2 s.
Proof.
  induction f1 as [|f1 IH]; intros f2 s H1 H2.
  - destruct s; [|simpl in *; lia]. by destruct f2.
  - destruct f2 as [|f2]; [destruct s; [done|simpl in *; lia]|].
    cbn [removeHeadings_fuel]. destruct s as [|c s]; [done|].
    simpl in H1, H2.
    destruct ((1 <=? countHashes (c :: s)) && (countHashes (c :: s) <=? 6) &&
              match drop (countHashes (c :: s)) (c :: s) with
              | d :: _ => is_space d
              | [] => false
              end).
    + apply IH; rewrite length_drop; simpl; lia.
    + f_equal. apply IH; lia.
Qed.

Lemma runWithout_length c s : length (runWithout c s) <= length s.
Proof.
  induction s as [|x s IH]; simpl; [done|].
  destruct (Ascii.eqb x c); simpl; lia.
Qed.

Lemma matchLink_shorter s label after :
  matchLink s = Some (label, after) -> length after < length s.
Proof.
  unfold matchLink. destruct s as [|c s1]; [done|].
  destruct (Ascii.eqb c "["); [|done].
  destruct (runWithout "]" s1) as [|l0 l] eqn:El; [done|].
  destruct (drop (length (l0 :: l)) s1) as [|r [|p s2]] eqn:Ed; try done.
  destruct (Ascii.eqb r "]" && Ascii.eqb p "("); [|done].
  destruct (runWithout ")" s2) as [|u0 u] eqn:Eu; [done|].
  destruct (drop (length (u0 :: u)) s2) as [|q s3] eqn:Ed2; [done|].
  destruct (Ascii.eqb q ")"); [|done].
  intros H. inversion H; subst.
  assert (H1 : length (drop (length (l0 :: l)) s1) <= length s1)
    by (rewrite length_drop; lia).
  assert (H2 : length (drop (length (u0 :: u)) s2) <= length s2)
    by (rewrite length_drop; lia).
  rewrite Ed in H1. rewrite Ed2 in H2. simpl in *. lia.
Qed.

Lemma collapseLinks_fuel_enough : forall f1 f2 s,
  length s <= f1 -> length s <= f2 ->
  collapseLinks_fuel f1 s = collapseLinks_fuel f2 s.
Proof.
  induction f1 as [|f1 IH]; intros f2 s H1 H2.
  - destruct s; [|simpl in *; lia]. by destruct f2.
  - destruct f2 as [|f2]; [destruct s; [done|simpl in *; lia]|].
    cbn [collapseLinks_fuel]. destruct s as [|c s]; [done|].
    destruct (matchLink (c :: s)) as [[label after]|] eqn:E.
    + apply matchLink_shorter in E. f_equal. apply IH; simpl in *; lia.
    + f_equal. apply IH; simpl in *; lia.
Qed.

Lemma spaceRun_length s : spaceRun s <= length s.
Proof.
  induction s as [|c s IH]; simpl; [done|]. destruct (is_space c); simpl; lia.
Qed.

Lemma execBoundary_at_bounds : forall s pos index len,
  execBoundary_at s pos = Some (index, len) ->
  pos <= index /\ 2 <= len /\ index + len <= pos + length s.
Proof.
  induction s as [|c s IH]; intros pos index len; cbn [execBoundary_at]; [done|].
  destruct (is_terminal c && (1 <=? spaceRun s)) eqn:E.
  - intros H. inversion H; subst. apply andb_true_iff in E as [_ E].
    apply Nat.leb_le in E. pose proof (spaceRun_length s). simpl. lia.
  - intros H. apply IH in H. simpl. lia.
Qed.

Lemma scanLoop_fuel_enough minLength text : forall f1 f2 re last acc,
  length text - re < f1 -> length text - re < f2 ->
  scanLoop f1 minLength text re last acc =
  scanLoop f2 minLength text re last acc.
Proof.
  induction f1 as [|f1 IH]; intros f2 re last acc H1 H2; [lia|].
  destruct f2 as [|f2]; [lia|]. cbn [scanLoop].
  destruct (execBoundary text re) as [[index len]|] eqn:E; [|done].
  unfold execBoundary in E. apply execBoundary_at_bounds in E.
  rewrite length_drop in E.
  destruct (minLength <=? length (trim (slice last (index + 1) text)));
    apply IH; lia.
Qed.

(** Small runs of the decoder. A delta whose start marker has no end
    marker forwards nothing, not even the text before the marker; a
    fragment below the minimum length is not cut when more text follows;
    markup is removed before a sentence is written. *)
Example stripThinking_unmatched_start :
  stripThinking false (str "Hello <think>hmm") = (true, []).
Proof. by vm_compute. Qed.

Example stripThinking_last_end_marker :
  stripThinking true (str "a</think>b</think>c") = (false, str "c").
Proof. by vm_compute. Qed.

Example short_fragment_is_not_cut :
  sentencesOf (decode [str "Ok. I will do that right now. And more"]) =
    [(0, str "Ok. I will do that right now."); (1, str "And more")].
Proof. by vm_compute. Qed.

Example cleanText_markup :
  cleanText (str "## Title **bold** and *it* `code` [label](http://x.y) ")
    = str "Title bold and it code label".
Proof. by vm_compute. Qed.

(** What [stripThinking] computes for a delta with a start marker and
    no end marker: the text before the marker, and then the empty
    string, which it returns. *)
Lemma stripThinking_drops_prefix inside text :
  includes think_open text = true ->
  includes think_close text = false ->
  exists i,
    indexOf think_open text = Some i /\
    removeFromOpen (removeSpans text) = take i text /\
    stripThinking inside text = (true, []).
Proof.
  intros Ho Hc. pose proof (stripThinking_enters_hidden inside text Ho Hc) as Hs.
  unfold removeSpans. rewrite removeSpans_fuel_no_close by done.
  unfold removeFromOpen. unfold includes in Ho.
  destruct (indexOf think_open text) as [i|]; [|done]. by exists i.
Qed.

(** C6 on the code. The two feeds of the claim forward the same, the
    single token ["visible text"]. But a start marker without its end
    marker does not discard the rest of the delta only: [stripThinking]
    computes the text before the marker and then returns the empty
    string, so that text is lost too - of ["Hello <think>hmm"] followed
    by ["</think> world. How are you?"] nothing but the second part is
    forwarded. When the text before the marker holds an end marker,
    hidden mode is not entered at all, and the hidden text of the next
    delta is forwarded. *)
Theorem text_before_think_marker_is_lost :
  tokensOf (decode [str "<think>secret</think>visible text"])
    = [str "visible text"] /\
  decode [str "<think>sec"; str "ret</think>visible text"]
    = decode [str "<think>secret</think>visible text"] /\
  removeFromOpen (removeSpans (str "Hello <think>hmm")) = str "Hello " /\
  stripThinking false (str "Hello <think>hmm") = (true, []) /\
  tokensOf (decode [str "Hello <think>hmm"; str "</think> world. How are you?"])
    = [str " world. How are you?"] /\
  (forall inside text,
     includes think_open text = true ->
     includes think_close text = false ->
     exists i,
       indexOf think_open text = Some i /\
       removeFromOpen (removeSpans text) = take i text /\
       stripThinking inside text = (true, [])) /\
  stripThinking false (str "x</think>y<think>z") = (false, str "y") /\
  tokensOf (decode [str "<think>a"; str "</think>b<think>c";
                    str "secret</think>d"])
    = [str "b"; str "secret</think>d"].
Proof.
  do 5 (split; [by vm_compute|]).
  split; [apply stripThinking_drops_prefix|].
  split; by vm_compute.
Qed.

(** The first version of the route compares the sentence length with 15:
    ["Hello world."] has 12 characters, so [extractSentences] cuts no
    sentence from ["Hello world. This is a test."] and the whole text
    stays in the accumulator: the unit ["Hello world."] of the claim is
    never produced. *)
Lemma first_version_cuts_no_sentence :
  extractSentences (str "Hello world. This is a test.")
    = ([], str "Hello world. This is a test.") /\
  length (str "Hello world.") = 12 /\
  ~ In (str "Hello world.")
      (fst (extractSentences (str "Hello world. This is a test."))).
Proof. split; [by vm_compute|]. split; [done|]. vm_compute. tauto. Qed.

(** C7, amended. With the route of part_000 (minimum length 10) the
    delta ["Hello world. This is a test."] followed by the end of the
    stream yields the two units ["Hello world."] (index 0, cut at the
    boundary when the delta arrives) and ["This is a test."] (index 1,
    by the flush), and ["Partial thought"] followed by the end of the
    stream yields exactly one unit ["Partial thought"], by the flush.
    The boundary scan of the two versions: with the minimum 10 it cuts
    ["Hello world."] and goes on after the blank that follows; with the
    minimum 15 of [extractSentences] it cuts nothing and leaves the
    whole text as the remainder. *)
Theorem sentence_units_of_the_examples :
  sentencesOf (decode [str "Hello world. This is a test."])
    = [(0, str "Hello world."); (1, str "This is a test.")] /\
  sentencesOf (snd (feed [str "Hello world. This is a test."] init))
    = [(0, str "Hello world.")] /\
  sentencesOf (decode [str "Partial thought"]) = [(0, str "Partial thought")] /\
  sentencesOf (snd (feed [str "Partial thought"] init)) = [] /\
  scanSentences 10 (str "Hello world. This is a test.")
    = ([str "Hello world."], 13) /\
  extractSentences (str "Hello world. This is a test.")
    = ([], str "Hello world. This is a test.") /\
  extractSentences (str "Partial thought") = ([], str "Partial thought").
Proof. repeat split; by vm_compute. Qed.

(** C10. When [req.body] has no [text] field, or [text] is a string that
    trims to the empty string, the handler replies with status 400 and
    [{ error: 'No text provided' }] and makes no request upstream. *)
Theorem tts_rejects_missing_text (voice : jsstring)
    (upstream : SpeechRequest -> Upstream) (text index : JsValue) :
  text = JUndefined \/ (exists s, text = JString s /\ trim s = []) ->
  tts voice upstream text index =
    (ReplyError 400 (str "No text provided"), []).
Proof.
  intros [->|(s & -> & Ht)]; [done|].
  unfold tts. destruct s as [|c s]; [done|]. simpl truthy. simpl negb.
  cbv iota. by rewrite Ht.
Qed.

Lemma tts_rejects_missing_text_witness :
  tts (str "am_adam") (fun _ => UpResponse true 200 []) (JString (str "   "))
    (JNumber 3) = (ReplyError 400 (str "No text provided"), []).
Proof.
  apply tts_rejects_missing_text. right. exists (str "   "). split; reflexivity.
Defined.

End ServerFacts.

(** ** The voice-activity detector *)

Module VadFacts.
Import Vad.

Local Ltac flags := split; [done|]; split; [done|]; split; [done|].

Lemma gtb_true a b : gtb a b = true <-> (b < a)%Q.
Proof.
  unfold gtb. rewrite negb_true_iff, <- not_true_iff_false, Qle_bool_iff.
  split; [apply Qnot_le_lt|apply Qlt_not_le].
Qed.

Lemma gtb_false a b : gtb a b = false <-> (a <= b)%Q.
Proof. unfold gtb. by rewrite negb_false_iff, Qle_bool_iff. Qed.

Lemma ltb_true a b : ltb a b = true <-> (a < b)%Q.
Proof. apply gtb_true. Qed.

Lemma after_snoc l : forall x v,
  after (l ++ [x]) v = fst (monitor (fst x) (snd x) (after l v)).
Proof.
  induction l as [|[t r] l IH]; intros [now rms] v; simpl; [done|]. apply IH.
Qed.

Lemma after_take_S samples n now rms v :
  samples !! n = Some (now, rms) ->
  after (take (S n) samples) v = fst (monitor now rms (after (take n samples) v)).
Proof. intros H. by rewrite (take_S_r _ _ _ H), after_snoc. Qed.

(** While the silence timer runs the detector is in speech, the timer
    was set by an earlier sample below the lower threshold, and no sample
    since has been above the upper threshold. *)
Lemma timer_invariant samples : forall n,
  n <= length samples ->
  let v := after (take n samples) started in
  enabled v = true /\ onSpeechStart v = true /\ onSpeechEnd v = true /\
  (silenceStart v <> 0%Z ->
   speechDetected v = true /\
   exists m r_m,
     m < n /\ samples !! m = Some (silenceStart v, r_m) /\
     (r_m < SILENCE_THRESHOLD)%Q /\
     forall j t r, m <= j < n -> samples !! j = Some (t, r) ->
       (r <= SPEECH_THRESHOLD)%Q).
Proof.
  induction n as [|n IH]; intros Hn.
  - simpl. flags. done.
  - destruct (lookup_lt_is_Some_2 samples n) as [[now rms] Hs]; [lia|].
    cbv zeta. rewrite (after_take_S _ _ _ _ _ Hs).
    destruct IH as (He & Hos & Hoe & Ht); [lia|].
    set (v := after (take n samples) started) in *.
    assert (Hext : forall m, m < n ->
      (forall j t r, m <= j < n -> samples !! j = Some (t, r) ->
         (r <= SPEECH_THRESHOLD)%Q) ->
      (rms <= SPEECH_THRESHOLD)%Q ->
      forall j t r, m <= j < S n -> samples !! j = Some (t, r) ->
         (r <= SPEECH_THRESHOLD)%Q).
    { intros m Hm Hold Hrms j t r Hj Hjs.
      destruct (decide (j = n)) as [->|Hne].
      - rewrite Hs in Hjs. by inversion Hjs; subst.
      - apply (Hold j t r); [lia|done]. }
    unfold monitor. rewrite He. simpl negb. cbv iota.
    destruct (gtb rms SPEECH_THRESHOLD) eqn:Hg; simpl.
    { flags. done. }
    apply gtb_false in Hg.
    destruct (ltb rms SILENCE_THRESHOLD) eqn:Hl; simpl.
    + destruct (speechDetected v) eqn:Hsp; simpl.
      * destruct (Z.eqb_spec (silenceStart v) 0) as [Hz|Hnz]; simpl.
        -- flags. intros _. split; [done|]. exists n, rms.
           split; [lia|]. split; [done|]. split; [by apply ltb_true|].
           intros j t r Hj Hjs. assert (j = n) by lia. subst j.
           rewrite Hs in Hjs. by inversion Hjs; subst.
        -- destruct (Z.ltb_spec SILENCE_DURATION (now - silenceStart v)); simpl.
           ++ flags. done.
           ++ flags. intros _.
              destruct (Ht Hnz) as (_ & m & r_m & Hm & Hsm & Hrm & Hall).
              split; [done|]. exists m, r_m.
              split; [lia|]. split; [done|]. split; [done|]. by apply Hext.
      * flags. intros Hnz. destruct (Ht Hnz) as (? & _). congruence.
    + flags. intros Hnz.
      destruct (Ht Hnz) as (Hsp & m & r_m & Hm & Hsm & Hrm & Hall).
      split; [done|]. exists m, r_m.
      split; [lia|]. split; [done|]. split; [done|]. by apply Hext.
Qed.

(** The trace of the example leaves the speech state at its last sample
    although the sample before it, inside the waiting window, is at or
    above the lower threshold: the silence has not been continuous. *)
Lemma vad_exits_despite_murmur :
  exitsAt murmurTrace 3 /\
  murmurTrace !! 2 = Some (2500%Z, 12 # 1000) /\
  (SILENCE_THRESHOLD <= 12 # 1000)%Q /\
  ~ continuousSilenceBefore murmurTrace 3.
Proof.
  split; [|split; [done|split; [by vm_compute|]]].
  - exists 3000%Z, (5 # 1000). by vm_compute.
  - intros (m & t_m & r_m & t_n & r_n & Hm & Hsm & Hsn & Hdur & Hall).
    assert (Hmur : m <= 2 -> False).
    { intros Hle. specialize (Hall 2 2500%Z (12 # 1000)).
      assert (Hlt : (12 # 1000 < SILENCE_THRESHOLD)%Q) by (apply Hall; [lia|done]).
      by vm_compute in Hlt. }
    destruct (decide (m <= 2)) as [|Hgt]; [auto|].
    assert (m = 3) by lia. subst m.
    vm_compute in Hsm, Hsn. inversion Hsm; inversion Hsn; subst.
    by vm_compute in Hdur.
Qed.

(** C8, amended. The detector enters the speech state exactly at a
    sample above the upper threshold taken while it is not in speech, and
    then calls [onSpeechStart]. It leaves the speech state (calling
    [onSpeechEnd]) only at a sample below the lower threshold that comes
    more than [SILENCE_DURATION] milliseconds after an earlier sample
    below the lower threshold, with no sample above the upper threshold
    from that one on. A sample between the two thresholds (from 0.009 to
    0.018) changes nothing, whatever the state of the detector: the
    silence timer keeps the value it has, so the wait is neither
    restarted nor ended, and no callback is called. *)
Theorem vad_hysteresis (samples : list (Z * Q)) (n : nat) (now : Z) (rms : Q) :
  samples !! n = Some (now, rms) ->
  ((speechDetected (after (take n samples) started) = false /\
    speechDetected (fst (monitor now rms (after (take n samples) started)))
      = true)
   <->
   (speechDetected (after (take n samples) started) = false /\
    (SPEECH_THRESHOLD < rms)%Q)) /\
  (speechDetected (after (take n samples) started) = false ->
   (SPEECH_THRESHOLD < rms)%Q ->
   snd (monitor now rms (after (take n samples) started)) = [SpeechStart]) /\
  (exitsAt samples n ->
   snd (monitor now rms (after (take n samples) started)) = [SpeechEnd] /\
   (rms < SILENCE_THRESHOLD)%Q /\
   exists m t_m r_m,
     m < n /\ samples !! m = Some (t_m, r_m) /\
     (r_m < SILENCE_THRESHOLD)%Q /\
     (SILENCE_DURATION < now - t_m)%Z /\
     forall j t r, m <= j <= n -> samples !! j = Some (t, r) ->
       (r <= SPEECH_THRESHOLD)%Q) /\
  (forall (v : VAD) (t : Z) (r : Q),
     (9 # 1000 <= r)%Q -> (r <= 18 # 1000)%Q ->
     monitor t r v = (v, [])).
Proof.
  intros Hs.
  destruct (timer_invariant samples n) as (He & Hos & Hoe & Ht).
  { apply lookup_lt_Some in Hs. lia. }
  set (v := after (take n samples) started) in *.
  split; [|split; [|split]]; [| | |clear; intros v t r Hlo Hhi].
  4: { unfold monitor. destruct (enabled v); [|done]. cbn [negb].
       assert (Hg : gtb r SPEECH_THRESHOLD = false) by (by apply gtb_false).
       assert (Hl : ltb r SILENCE_THRESHOLD = false).
       { apply not_true_iff_false. rewrite ltb_true.
         by apply Qle_not_lt. }
       by rewrite Hg, Hl. }
  - unfold monitor. rewrite He. simpl negb. cbv iota.
    destruct (gtb rms SPEECH_THRESHOLD) eqn:Hg.
    + apply gtb_true in Hg. simpl. split; intros [? _]; done.
    + assert (Hng : ~ (SPEECH_THRESHOLD < rms)%Q).
      { apply gtb_false in Hg. by apply Qle_not_lt. }
      split; [|intros [_ ?]; done].
      intros [Hf Htrue]. exfalso. revert Htrue. rewrite Hf, andb_false_r.
      simpl. congruence.
  - intros Hf Hlt. apply gtb_true in Hlt.
    unfold monitor. rewrite He, Hlt, Hf, Hos. done.
  - intros (now' & rms' & Hs' & Hsp & Hexit).
    rewrite Hs in Hs'. inversion Hs'; subst now' rms'. fold v in Hsp, Hexit.
    revert Hexit. unfold monitor. rewrite He, Hsp, Hoe. simpl negb. cbv iota.
    destruct (gtb rms SPEECH_THRESHOLD) eqn:Hg; [done|].
    apply gtb_false in Hg.
    destruct (ltb rms SILENCE_THRESHOLD) eqn:Hl; simpl; [|congruence].
    apply ltb_true in Hl.
    destruct (Z.eqb_spec (silenceStart v) 0) as [Hz|Hnz]; simpl; [congruence|].
    destruct (Z.ltb_spec SILENCE_DURATION (now - silenceStart v)) as [Hd|];
      simpl; [|congruence].
    intros _. split; [done|]. split; [done|].
    destruct (Ht Hnz) as (_ & m & r_m & Hm & Hsm & Hrm & Hall).
    exists m, (silenceStart v), r_m. repeat split; try done.
    intros j t r Hj Hjs. destruct (decide (j = n)) as [->|Hne].
    + rewrite Hs in Hjs. by inversion Hjs; subst.
    + apply (Hall j t r); [lia|done].
Qed.

Lemma vad_hysteresis_witness :
  murmurTrace !! 3 = Some (3000%Z, 5 # 1000) /\
  exists m t_m r_m,
    m < 3 /\ murmurTrace !! m = Some (t_m, r_m) /\
    (r_m < SILENCE_THRESHOLD)%Q /\
    (SILENCE_DURATION < 3000 - t_m)%Z /\
    forall j t r, m <= j <= 3 -> murmurTrace !! j = Some (t, r) ->
      (r <= SPEECH_THRESHOLD)%Q.
Proof.
  assert (Hs : murmurTrace !! 3 = Some (3000%Z, 5 # 1000)) by reflexivity.
  split; [exact Hs|].
  apply (vad_hysteresis murmurTrace 3 3000 (5 # 1000) Hs).
  exists 3000%Z, (5 # 1000). by vm_compute.
Defined.

End VadFacts.

(** ** The conversation history *)

Module HistoryFacts.
Import Js History.

(** What is sent to the server never exceeds the cap. *)
Lemma pushUser_length userText h :
  length (pushUser userText h) <= MAX_HISTORY.
Proof.
  unfold pushUser.
  destruct (Nat.ltb_spec MAX_HISTORY (length (h ++ [mkTurn user userText]))).
  - rewrite length_drop. lia.
  - done.
Qed.

Lemma chatStream_length userText o h :
  length (chatStream userText o h) <= S MAX_HISTORY.
Proof.
  pose proof (pushUser_length userText h).
  destruct o; simpl; [|lia].
  unfold pushAssistant. rewrite length_app. simpl. lia.
Qed.

(** The history never holds more than one turn above the cap. *)
Lemma historyAfter_length calls : forall h,
  length h <= S MAX_HISTORY ->
  length (historyAfter calls h) <= S MAX_HISTORY.
Proof.
  induction calls as [|[userText o] calls IH]; intros h Hh; [done|].
  simpl. apply IH, chatStream_length.
Qed.

(** C9 on the code: after eleven calls of [chatStream] that return, the
    history holds 21 turns, one more than [MAX_HISTORY]; the assistant
    turn is pushed after the trim. *)
Theorem history_exceeds_cap (userText fullResponse : jsstring) :
  length (historyAfter (completedTurns 11 userText fullResponse) []) = 21 /\
  MAX_HISTORY < length (historyAfter (completedTurns 11 userText fullResponse) []) /\
  length (pushUser userText
            (historyAfter (completedTurns 10 userText fullResponse) [])) = 20.
Proof. repeat split; vm_compute; lia. Qed.

End HistoryFacts.

(** ** The session controller *)

Module SessionFacts.
Import Js Session.

(** The callback of a synthesis completion never reads the interaction
    version: the version its closure captured makes no difference. *)
Lemma completion_ignores_version now v v' q index buf d :
  handle now (TtsDecoded v q index buf) d =
  handle now (TtsDecoded v' q index buf) d.
Proof. reflexivity. Qed.

Lemma transition_current newState d :
  current (transition newState d) = newState.
Proof.
  unfold transition. destruct (State_eqb (current d) newState) eqn:E; [|done].
  by destruct (current d), newState.
Qed.

(** The completion for sentence 0 leaves the state machine in SPEAKING
    from every state of the controller, whatever the versions are. *)
Lemma completion_of_first_sentence_speaks now v q buf d :
  current (handle now (TtsDecoded v q 0 buf) d) = SPEAKING.
Proof.
  simpl. unfold onQueue.
  pose proof (transition_current SPEAKING d) as Hc.
  set (d1 := transition SPEAKING d) in *.
  destruct (heap d1 !! q) as [m|]; [|done].
  simpl. unfold Queue.enqueue.
  match goal with |- context [Queue.tryPlayNext now ?x] =>
    destruct (QueueFacts.tryPlayNext_spec now x) as (n & _ & _ & _ & _ & Hr & _) end.
  by rewrite Hr.
Qed.

(** C1 on the code. A completion for sentence 0 puts the state machine
    in SPEAKING from every state. In particular, after the first turn
    has ended on a stream error and a new Listening phase has begun
    (interaction version 2, state LISTENING, no activation, no current
    scheduler), the completion of the synthesis request issued under run
    version 1 for sentence 0 fires the transition to SPEAKING and starts
    its buffer on the scheduler of the first turn; the release of the
    button then finds the state SPEAKING and no longer ends the
    recording. *)
Theorem late_completion_fires_transition :
  (forall now v q buf d,
     current (handle now (TtsDecoded v q 0 buf) d) = SPEAKING) /\
  current (handleAll interruptedTurn boot) = LISTENING /\
  interactionVersion (handleAll interruptedTurn boot) = 2 /\
  pipelineBusy (handleAll interruptedTurn boot) = false /\
  currentQueue (handleAll interruptedTurn boot) = None /\
  In (TtsRequest 1 0 0 (str "Hi there, how are you?"))
     (outputs (handleAll interruptedTurn boot)) /\
  current (handle 5 lateCompletion (handleAll interruptedTurn boot)) = SPEAKING /\
  outputs (handle 5 lateCompletion (handleAll interruptedTurn boot)) =
    outputs (handleAll interruptedTurn boot) ++
    [Transition SPEAKING; Audio 0 (Queue.Start 0 lateBuffer (502 # 100))] /\
  handle 6 PressEnd (handle 5 lateCompletion (handleAll interruptedTurn boot)) =
    handle 5 lateCompletion (handleAll interruptedTurn boot).
Proof.
  split; [apply completion_of_first_sentence_speaks|].
  do 4 (split; [by vm_compute|]). split; [vm_compute; tauto|].
  do 2 (split; [by vm_compute|]). by vm_compute.
Qed.

End SessionFacts.

(* ===================================================================== *)
(** * Further properties of the code                                       *)
(* ===================================================================== *)

(** ** The playback scheduler, for arbitrary calls *)

Module QueueMore.
Import Queue QueueFacts.

Lemma noOverlap_app from l1 l2 :
  noOverlap from l1 -> noOverlap (endAfter from l1) l2 ->
  noOverlap from (l1 ++ l2).
Proof.
  revert from. induction l1 as [|[i b t|p] l1 IH]; intros from; simpl; try done.
  - intros [H1 H2] H3. split; [done|]. by apply IH.
  - apply IH.
Qed.

Lemma endAfter_app from l1 l2 :
  endAfter from (l1 ++ l2) = endAfter (endAfter from l1) l2.
Proof.
  revert from. induction l1 as [|[i b t|p] l1 IH]; intros from; simpl; try done.
Qed.

Lemma tryPlayNext_fuel_schedule fuel now : forall s,
  noOverlap (scheduledEndTime s) (snd (tryPlayNext_fuel fuel now s)) /\
  scheduledEndTime (fst (tryPlayNext_fuel fuel now s)) =
    endAfter (scheduledEndTime s) (snd (tryPlayNext_fuel fuel now s)) /\
  Forall (fun e => match e with
                   | Start _ _ t => (now + lead <= t)%Q
                   | Resolve _ => True
                   end) (snd (tryPlayNext_fuel fuel now s)).
Proof.
  induction fuel as [|fuel IH]; intros s; simpl; [by repeat split|].
  destruct (queue s !! nextPlayIndex s) as [b|]; simpl; [|by repeat split].
  destruct (IH (playOne now b s)) as (H1 & H2 & H3). simpl in *.
  split; [|split].
  - split; [apply Q.le_max_r|done].
  - done.
  - constructor; [apply Q.le_max_l|done].
Qed.

Lemma checkCompletion_schedule s :
  scheduledEndTime (fst (checkCompletion s)) = scheduledEndTime s /\
  starts (snd (checkCompletion s)) = [].
Proof. by destruct (checkCompletion_fields s) as (_ & _ & _ & -> & _ & _ & ->). Qed.

Lemma idle_noOverlap from l : starts l = [] -> noOverlap from l /\ endAfter from l = from.
Proof. induction l as [|[i b t|p] l IH]; simpl; try done. Qed.

Lemma idle_clock (P : Q -> Prop) l :
  starts l = [] ->
  Forall (fun e => match e with Start _ _ t => P t | Resolve _ => True end) l.
Proof.
  induction l as [|[i b t|p] l IH]; simpl; try done.
  intros H. constructor; [done|by apply IH].
Qed.

Lemma step_schedule now c s :
  isClear c = false ->
  noOverlap (scheduledEndTime s) (snd (step now c s)) /\
  scheduledEndTime (fst (step now c s)) =
    endAfter (scheduledEndTime s) (snd (step now c s)) /\
  Forall (fun e => match e with
                   | Start _ _ t => (now + lead <= t)%Q
                   | Resolve _ => True
                   end) (snd (step now c s)).
Proof.
  intros Hc. destruct c as [i b| total | | p |]; simpl in *; try done.
  - unfold enqueue, tryPlayNext.
    match goal with |- context [tryPlayNext_fuel ?f now ?x] =>
      apply (tryPlayNext_fuel_schedule f now x) end.
  - unfold markAllEnqueued.
    match goal with |- context [checkCompletion ?x] =>
      destruct (checkCompletion_schedule x) as [H1 H2];
      set (r := checkCompletion x) in * end.
    simpl in H1. destruct (idle_noOverlap (scheduledEndTime s) _ H2) as [H3 H4].
    rewrite H1, H4. repeat split; [done|]. by apply idle_clock.
  - unfold onended.
    set (r1 := match queue s !! nextPlayIndex s with
               | Some _ => (s, [])
               | None => checkCompletion _
               end).
    assert (H1 : scheduledEndTime (fst r1) = scheduledEndTime s /\ starts (snd r1) = []).
    { unfold r1. destruct (queue s !! nextPlayIndex s); [done|].
      match goal with |- context [checkCompletion ?x] =>
        apply (checkCompletion_schedule x) end. }
    destruct H1 as [H1 H2].
    destruct (idle_noOverlap (scheduledEndTime s) _ H2) as [H3 H4].
    unfold tryPlayNext.
    match goal with |- context [tryPlayNext_fuel ?f now ?x] =>
      destruct (tryPlayNext_fuel_schedule f now x) as (H5 & H6 & H7);
      set (r2 := tryPlayNext_fuel f now x) in * end.
    simpl. rewrite H1 in *. split; [|split].
    + apply noOverlap_app; [done|by rewrite H4].
    + by rewrite endAfter_app, H4.
    + apply Forall_app. split; [by apply idle_clock|done].
  - unfold waitForCompletion.
    match goal with |- context [checkCompletion ?x] =>
      destruct (checkCompletion_schedule x) as [H1 H2];
      set (r := checkCompletion x) in * end.
    simpl in H1. destruct (idle_noOverlap (scheduledEndTime s) _ H2) as [H3 H4].
    rewrite H1, H4. repeat split; [done|]. by apply idle_clock.
Qed.

Lemma run_schedule tr : forall s,
  noClear tr ->
  noOverlap (scheduledEndTime s) (snd (run tr s)) /\
  scheduledEndTime (fst (run tr s)) =
    endAfter (scheduledEndTime s) (snd (run tr s)).
Proof.
  induction tr as [|[now c] tr IH]; intros s Hnc; [done|].
  apply Forall_cons in Hnc as [Hc Hnc]. simpl in *.
  destruct (step_schedule now c s Hc) as (H1 & H2 & _).
  destruct (IH (fst (step now c s)) Hnc) as [H3 H4].
  rewrite H2 in H3, H4. split.
  - by apply noOverlap_app.
  - by rewrite endAfter_app.
Qed.


Lemma Forall2_starts_keys (q : gmap nat AudioBuffer) from n l :
  Forall2 (fun i kb => fst kb = i /\ q !! i = Some (snd kb)) (seq from n) l ->
  map fst l = seq from n.
Proof.
  revert from l. induction n as [|n IH]; intros from l H; simpl in *.
  - by inversion H.
  - inversion H as [|i [k b] l1 l2 [Hk Hq] Hrest]; simpl in *; subst.
    f_equal. by apply IH.
Qed.

Lemma step_cursor now c s :
  isClear c = false ->
  exists n,
    nextPlayIndex (fst (step now c s)) = nextPlayIndex s + n /\
    map fst (starts (snd (step now c s))) = seq (nextPlayIndex s) n.
Proof.
  intros Hc. destruct c as [i b| total | | p |]; simpl in *; try done.
  - unfold enqueue.
    match goal with |- context [tryPlayNext now ?x] =>
      destruct (tryPlayNext_spec now x) as (n & Hn & Hst & _) end.
    exists n. split; [done|]. by apply Forall2_starts_keys in Hst.
  - exists 0. unfold markAllEnqueued.
    match goal with |- context [checkCompletion ?x] =>
      destruct (checkCompletion_fields x) as (_ & -> & _ & _ & _ & _ & ->) end.
    simpl. split; [lia|done].
  - unfold onended.
    set (r1 := match queue s !! nextPlayIndex s with
               | Some _ => (s, [])
               | None => checkCompletion _
               end).
    assert (H1 : nextPlayIndex (fst r1) = nextPlayIndex s /\ starts (snd r1) = []).
    { unfold r1. destruct (queue s !! nextPlayIndex s); [done|].
      match goal with |- context [checkCompletion ?x] =>
        by destruct (checkCompletion_fields x) as (_ & -> & _ & _ & _ & _ & ->) end. }
    destruct H1 as [H1 H2].
    destruct (tryPlayNext_spec now (fst r1)) as (n & Hn & Hst & _).
    exists n. simpl. rewrite starts_app, H2. simpl. rewrite <- H1.
    split; [done|]. by apply Forall2_starts_keys in Hst.
  - exists 0. unfold waitForCompletion.
    match goal with |- context [checkCompletion ?x] =>
      destruct (checkCompletion_fields x) as (_ & -> & _ & _ & _ & _ & ->) end.
    simpl. split; [lia|done].
Qed.

(** X1. Whatever is enqueued (any indices, repeated or far ahead), and
    whenever sources end, the keys under which buffers are started follow
    the cursor: they are the consecutive indices from the cursor the
    trace began with up to the cursor it ends with, so no index is
    started twice or out of order. *)
Theorem starts_follow_the_cursor (tr : list (Q * Call)) (s : AQM) :
  noClear tr ->
  nextPlayIndex s <= nextPlayIndex (fst (run tr s)) /\
  map fst (starts (snd (run tr s))) =
    seq (nextPlayIndex s) (nextPlayIndex (fst (run tr s)) - nextPlayIndex s).
Proof.
  revert s. induction tr as [|[now c] tr IH]; intros s Hnc.
  - simpl. split; [lia|]. by rewrite Nat.sub_diag.
  - apply Forall_cons in Hnc as [Hc Hnc]. simpl in *.
    destruct (step_cursor now c s Hc) as (n & Hn & Hk).
    destruct (IH (fst (step now c s)) Hnc) as [Hle Hks].
    split; [lia|].
    rewrite starts_app, map_app, Hk, Hks, Hn.
    replace (nextPlayIndex (fst (run tr (fst (step now c s)))) - nextPlayIndex s)
      with (n + (nextPlayIndex (fst (run tr (fst (step now c s)))) -
                 (nextPlayIndex s + n))) by lia.
    by rewrite seq_app.
Qed.

Lemma starts_follow_the_cursor_witness :
  map fst (starts (snd (run secondFailedTurn new))) = [0].
Proof.
  assert (Hnc : noClear secondFailedTurn) by (repeat constructor).
  destruct (starts_follow_the_cursor secondFailedTurn new Hnc) as [_ H].
  rewrite H. reflexivity.
Defined.

(** X2. Without [clear()], the start times the scheduler hands to the
    audio context never overlap: every buffer starts at or after the
    scheduled end of the buffer started before it (and the first at or
    after the scheduled end the trace began with); and every buffer is
    started at least the lead of 0.02 s after the clock value of the
    call that starts it. *)
Theorem schedule_never_overlaps (tr : list (Q * Call)) (s : AQM) :
  noClear tr ->
  noOverlap (scheduledEndTime s) (snd (run tr s)) /\
  scheduledEndTime (fst (run tr s)) =
    endAfter (scheduledEndTime s) (snd (run tr s)) /\
  (forall now c s' i b t,
     isClear c = false -> In (Start i b t) (snd (step now c s')) ->
     (now + lead <= t)%Q).
Proof.
  intros Hnc. destruct (run_schedule tr s Hnc) as [H1 H2].
  split; [done|split; [done|]].
  intros now c s' i b t Hc Hin.
  destruct (step_schedule now c s' Hc) as (_ & _ & Hall).
  rewrite Forall_forall in Hall. apply (Hall (Start i b t)).
  by apply list_elem_of_In.
Qed.

Lemma schedule_never_overlaps_witness :
  noOverlap 0 (snd (run outOfOrderTurn new)).
Proof.
  assert (Hnc : noClear outOfOrderTurn) by (repeat constructor).
  apply (schedule_never_overlaps outOfOrderTurn new Hnc).
Defined.

(** While only [enqueue] and [onended] run on a new scheduler, no
    resolver is stored, no total is recorded and nothing is resolved. *)
Lemma run_playback_only tr : forall s,
  Forall (fun x => isPlayback (snd x) = true) tr ->
  completionResolve s = None -> allEnqueued s = false ->
  completionResolve (fst (run tr s)) = None /\
  allEnqueued (fst (run tr s)) = false /\
  resolves (snd (run tr s)) = [].
Proof.
  induction tr as [|[now c] tr IH]; intros s Htr Hr Ha; [done|].
  apply Forall_cons in Htr as [Hc Htr]. simpl in *.
  assert (H1 : completionResolve (fst (step now c s)) = None /\
               allEnqueued (fst (step now c s)) = false /\
               resolves (snd (step now c s)) = []).
  { destruct c as [i b| total | | p |]; simpl in *; try done.
    - unfold enqueue.
      match goal with |- context [tryPlayNext now ?x] =>
        destruct (tryPlayNext_spec now x) as (n & _ & _ & _ & _ & H1 & H2 & H3 & _) end.
      simpl in *. by rewrite H1, H2, H3.
    - unfold onended.
      set (r1 := match queue s !! nextPlayIndex s with
                 | Some _ => (s, [])
                 | None => checkCompletion _
                 end).
      assert (Hr1 : completionResolve (fst r1) = None /\
                    allEnqueued (fst r1) = false /\ resolves (snd r1) = []).
      { unfold r1. destruct (queue s !! nextPlayIndex s); [done|].
        unfold checkCompletion, completionCondition. simpl. by rewrite Ha. }
      destruct Hr1 as (Hr1 & Ha1 & Hs1).
      destruct (tryPlayNext_spec now (fst r1))
        as (n & _ & _ & _ & _ & H1 & H2 & H3 & _).
      simpl. by rewrite resolves_app, Hs1, H1, H2, H3. }
  destruct H1 as (H1 & H2 & H3).
  destruct (IH _ Htr H1 H2) as (H4 & H5 & H6).
  by rewrite resolves_app, H3, H6.
Qed.

Lemma isPlayback_noClear tr :
  Forall (fun x => isPlayback (snd x) = true) tr -> noClear tr.
Proof.
  intros H. eapply Forall_impl; [exact H|]. intros [now c] Hc. by destruct c.
Qed.

Lemma checkCompletion_no_resolver x :
  completionResolve x = None -> checkCompletion x = (x, []).
Proof.
  intros H. unfold checkCompletion. rewrite H. by destruct (completionCondition x).
Qed.

Lemma tryPlayNext_nothing now x :
  queue x !! nextPlayIndex x = None -> tryPlayNext now x = (x, []).
Proof. intros H. unfold tryPlayNext. cbn [tryPlayNext_fuel]. by rewrite H. Qed.

(** The last three calls of a complete turn, on a scheduler that has
    started everything. *)
Lemma final_three (playing : bool) (sched t1 t2 t3 : Q) (te : Z) (p N : nat) :
  resolves (snd (run [(t1, MarkAllEnqueued (Z.of_nat N));
                      (t2, WaitForCompletion p); (t3, Ended)]
                   (mkAQM ∅ N playing sched None false te))) = [p].
Proof.
  assert (HZ : Z.leb (Z.of_nat N) (Z.of_nat N) = true) by apply Z.leb_refl.
  cbn [run step fst snd app]. unfold markAllEnqueued.
  cbn [queue nextPlayIndex isPlaying scheduledEndTime completionResolve
       allEnqueued totalExpected].
  rewrite checkCompletion_no_resolver by done. cbn [fst snd app].
  unfold waitForCompletion.
  cbn [queue nextPlayIndex isPlaying scheduledEndTime completionResolve
       allEnqueued totalExpected].
  unfold checkCompletion at 1 2. unfold completionCondition.
  cbn [queue nextPlayIndex isPlaying scheduledEndTime completionResolve
       allEnqueued totalExpected andb].
  rewrite HZ. destruct playing; cbn [negb andb fst snd app resolves].
  - unfold onended.
    cbn [queue nextPlayIndex isPlaying scheduledEndTime completionResolve
         allEnqueued totalExpected].
    rewrite lookup_empty. unfold checkCompletion, completionCondition.
    cbn [queue nextPlayIndex isPlaying scheduledEndTime completionResolve
         allEnqueued totalExpected andb negb].
    rewrite HZ. cbn [andb fst snd].
    rewrite tryPlayNext_nothing by apply lookup_empty. reflexivity.
  - unfold onended.
    cbn [queue nextPlayIndex isPlaying scheduledEndTime completionResolve
         allEnqueued totalExpected].
    rewrite lookup_empty. rewrite checkCompletion_no_resolver by done.
    cbn [fst snd]. rewrite tryPlayNext_nothing by apply lookup_empty.
    reflexivity.
Qed.

(** X3. A complete turn completes, once: when every index 0 .. N-1 has
    been admitted, the total N is then recorded and the promise [p] of
    [waitForCompletion()] taken, [p] is resolved exactly once by the time
    the next [onended] callback has run - at once by
    [waitForCompletion()] if nothing is playing, otherwise by that
    callback, which need not be the one of the last buffer. *)
Theorem complete_turn_resolves_once (N : nat) (bufs : nat -> AudioBuffer)
    (arrival : list nat) (tr : list (Q * Call)) (t1 t2 t3 : Q) (p : nat) :
  Permutation arrival (seq 0 N) ->
  admitted tr = map (fun i => (i, bufs i)) arrival ->
  Forall (fun x => isPlayback (snd x) = true) tr ->
  resolves (snd (run (tr ++ [(t1, MarkAllEnqueued (Z.of_nat N));
                             (t2, WaitForCompletion p);
                             (t3, Ended)]) new)) = [p].
Proof.
  intros Hperm Hadm Htr.
  destruct (run_complete N bufs arrival tr Hperm Hadm (isPlayback_noClear tr Htr))
    as (_ & HN & Hq).
  destruct (run_playback_only tr new Htr eq_refl eq_refl) as (Hr & Ha & Hs).
  rewrite run_app. cbn [snd]. rewrite resolves_app, Hs. cbn [app].
  destruct (fst (run tr new)) as [qu npi playing sched cr ae te].
  cbn [queue nextPlayIndex completionResolve allEnqueued] in *. subst.
  apply final_three.
Qed.

Lemma complete_turn_resolves_once_witness :
  resolves (snd (run ([ (0%Q, Enqueue 1 (sampleBuffer 1));
                        (0%Q, Enqueue 0 (sampleBuffer 0)) ] ++
                      [(1%Q, MarkAllEnqueued 2); (1%Q, WaitForCompletion 7);
                       (2%Q, Ended)]) new)) = [7].
Proof.
  apply (complete_turn_resolves_once 2 sampleBuffer [1; 0]
           [ (0%Q, Enqueue 1 (sampleBuffer 1));
             (0%Q, Enqueue 0 (sampleBuffer 0)) ] 1 1 2 7).
  - apply perm_swap.
  - reflexivity.
  - repeat constructor.
Defined.

End QueueMore.

(** ** Strings and the stream decoder, for arbitrary input *)

Module JsMore.
Import Js.

Lemma trimStart_head s c r : trimStart s = c :: r -> is_space c = false.
Proof.
  induction s as [|x s IH]; simpl; [done|].
  destruct (is_space x) eqn:E; [done|]. by intros [= -> ->].
Qed.

Lemma trimStart_fixed c r : is_space c = false -> trimStart (c :: r) = c :: r.
Proof. intros H. simpl. by rewrite H. Qed.

Lemma trimStart_idem s : trimStart (trimStart s) = trimStart s.
Proof.
  destruct (trimStart s) as [|c r] eqn:E; [done|].
  apply trimStart_fixed. by apply (trimStart_head s c r).
Qed.

Lemma trimStart_suffix s : exists pre, s = pre ++ trimStart s.
Proof.
  induction s as [|x s [pre IH]]; [by exists []|]. simpl.
  destruct (is_space x).
  - exists (x :: pre). simpl. by f_equal.
  - by exists [].
Qed.

Lemma trimEnd_prefix s : exists suf, s = trimEnd s ++ suf.
Proof.
  unfold trimEnd. destruct (trimStart_suffix (rev s)) as [pre H].
  exists (rev pre). rewrite <- rev_app_distr, <- H. by rewrite rev_involutive.
Qed.

Lemma trimEnd_idem s : trimEnd (trimEnd s) = trimEnd s.
Proof. unfold trimEnd. by rewrite rev_involutive, trimStart_idem. Qed.

(** [trim] returns a string without white space at either end. *)
Lemma trim_idem s : trim (trim s) = trim s.
Proof.
  unfold trim. set (u := trimStart s).
  assert (Hv : trimStart (trimEnd u) = trimEnd u).
  { destruct (trimEnd u) as [|c r] eqn:E; [done|].
    apply trimStart_fixed.
    destruct (trimEnd_prefix u) as [suf Hs]. rewrite E in Hs.
    unfold u in Hs. apply (trimStart_head s c (r ++ suf)). by rewrite Hs. }
  by rewrite Hv, trimEnd_idem.
Qed.

Lemma trimStart_Forall (P : ascii -> Prop) s : Forall P s -> Forall P (trimStart s).
Proof.
  induction 1 as [|x s Hx Hs IH]; simpl; [done|].
  destruct (is_space x); [done|by constructor].
Qed.

Lemma trim_Forall (P : ascii -> Prop) s : Forall P s -> Forall P (trim s).
Proof.
  intros H. unfold trim, trimEnd.
  apply Forall_rev, trimStart_Forall, Forall_rev. by apply trimStart_Forall.
Qed.

Lemma trimStart_snoc c : forall pre,
  is_space c = false -> exists w, trimStart (pre ++ [c]) = w ++ [c].
Proof.
  intros pre Hc. induction pre as [|x pre [w IH]]; simpl.
  - rewrite Hc. by exists [].
  - destruct (is_space x); [by exists w|]. by exists (x :: pre).
Qed.

(** A string that ends in a character other than white space keeps that
    character at its end when trimmed. *)
Lemma trim_snoc pre c :
  is_space c = false -> exists w, trim (pre ++ [c]) = w ++ [c].
Proof.
  intros Hc. destruct (trimStart_snoc c pre Hc) as [w Hw].
  exists w. unfold trim, trimEnd. rewrite Hw, rev_app_distr. simpl.
  rewrite Hc. simpl. by rewrite rev_involutive.
Qed.

End JsMore.

Module ServerMore.
Import Js Server JsFacts ServerFacts JsMore.

Lemma sentencesOf_app l1 l2 : sentencesOf (l1 ++ l2) = sentencesOf l1 ++ sentencesOf l2.
Proof. induction l1 as [|[t|i t|n] l1 IH]; simpl; by rewrite ?IH. Qed.

Lemma tokensOf_app l1 l2 : tokensOf (l1 ++ l2) = tokensOf l1 ++ tokensOf l2.
Proof. induction l1 as [|[t|i t|n] l1 IH]; simpl; by rewrite ?IH. Qed.

(** The loop that writes sentence events numbers them consecutively
    from the index it is given, writes nothing else, and writes only
    cleaned texts that are not empty. *)
Lemma emitSentences_spec isAborted : forall sentences index,
  exists n,
    fst (emitSentences isAborted sentences index) = index + n /\
    map fst (sentencesOf (snd (emitSentences isAborted sentences index)))
      = seq index n /\
    tokensOf (snd (emitSentences isAborted sentences index)) = [] /\
    Forall (fun e => isDone e = false)
      (snd (emitSentences isAborted sentences index)) /\
    Forall (fun it => exists raw, snd it = cleanText raw /\ snd it <> [])
      (sentencesOf (snd (emitSentences isAborted sentences index))).
Proof.
  induction sentences as [|s sentences IH]; intros index.
  - exists 0. simpl. split; [lia|]. split; [done|]. split; [done|].
    split; constructor.
  - cbn [emitSentences].
    destruct ((0 <? length (cleanText s)) && negb isAborted) eqn:E.
    + destruct (IH (S index)) as (n & H1 & H2 & H3 & H4 & H5).
      exists (S n). cbn [fst snd sentencesOf tokensOf map seq].
      rewrite H1, H2, H3. split; [lia|]. split; [done|]. split; [done|].
      split; [by constructor|].
      constructor; [|done]. exists s. split; [done|].
      apply andb_true_iff in E as [E _]. apply Nat.ltb_lt in E.
      simpl. intros Hn. rewrite Hn in E. simpl in E. lia.
    + apply IH.
Qed.

Lemma stepFacts_nil d d' :
  aborted d' = aborted d -> sentenceIndex d' = sentenceIndex d ->
  stepFacts d d' [].
Proof.
  intros Ha Hi. split; [done|]. exists 0. simpl.
  split; [lia|]. split; [done|]. split; constructor.
Qed.

Lemma onContent_facts content d :
  stepFacts d (fst (onContent content d)) (snd (onContent content d)).
Proof.
  assert (Hnil : stepFacts d d []) by (by apply stepFacts_nil).
  unfold onContent. destruct (falsy content); [done|].
  destruct (stripThinking (insideThinking d) content) as [inside content'].
  destruct (falsy content').
  { by apply stepFacts_nil. }
  destruct (scanSentences 10 (sentenceBuffer d ++ content')) as [sentences lastIndex].
  destruct sentences as [|s sentences].
  - split; [done|]. exists 0. cbn [sentenceIndex fst snd].
    split; [lia|]. destruct (aborted d); simpl.
    + split; [done|]. split; constructor.
    + split; [done|]. split; repeat constructor.
  - destruct (emitSentences_spec (aborted d) (s :: sentences) (sentenceIndex d))
      as (n & H1 & H2 & H3 & H4 & H5).
    split; [done|]. exists n. cbn [sentenceIndex fst snd].
    rewrite sentencesOf_app.
    assert (Ht : sentencesOf (if aborted d then [] else [SseToken content']) = [])
      by (by destruct (aborted d)).
    rewrite Ht. simpl app. split; [done|]. split; [done|]. split; [|done].
    apply Forall_app. split; [|done]. destruct (aborted d); by repeat constructor.
Qed.

Lemma feed_facts deltas : forall d,
  stepFacts d (fst (feed deltas d)) (snd (feed deltas d)).
Proof.
  induction deltas as [|delta deltas IH]; intros d.
  - by apply stepFacts_nil.
  - cbn [feed fst snd].
    destruct (onContent_facts delta d) as (Ha & n & H1 & H2 & H3 & H4).
    destruct (IH (fst (onContent delta d))) as (Ha' & n' & H1' & H2' & H3' & H4').
    split; [congruence|]. exists (n + n').
    rewrite sentencesOf_app, map_app, H2, H2', H1, seq_app.
    split; [lia|]. split; [done|]. split; by apply Forall_app.
Qed.

(** X4. Whatever deltas arrive, the route of part_000 writes to a client
    that stays connected sentence events whose indices are 0, 1, 2, ...
    without gap or repetition, then exactly one [done] event, last, whose
    [sentenceCount] is the number of sentence events written. *)
Theorem sentence_indices_are_contiguous (deltas : list jsstring) :
  exists evs k,
    decode deltas = evs ++ [SseDone k] /\
    Forall (fun e => isDone e = false) evs /\
    map fst (sentencesOf evs) = seq 0 k.
Proof.
  unfold decode.
  destruct (feed_facts deltas init) as (Ha & n & H1 & H2 & H3 & H4).
  set (r := feed deltas init) in *. simpl in Ha, H1, H2.
  unfold onEnd. rewrite Ha. cbn [aborted init].
  destruct (0 <? length (cleanText (sentenceBuffer (fst r)))).
  - exists (snd r ++ [SseSentence (sentenceIndex (fst r))
                        (cleanText (sentenceBuffer (fst r)))]), (S n).
    cbn [snd]. rewrite H1. split; [by rewrite <- app_assoc|].
    split; [apply Forall_app; split; [done|by repeat constructor]|].
    rewrite sentencesOf_app, map_app, H2, seq_S.
    reflexivity.
  - exists (snd r), n. cbn [snd]. by rewrite H1.
Qed.

(** Every stage of [cleanText] after a removal only deletes or keeps
    characters, so a property of all characters survives it. *)
Lemma removeHeadings_fuel_Forall (P : ascii -> Prop) : forall fuel s,
  Forall P s -> Forall P (removeHeadings_fuel fuel s).
Proof.
  induction fuel as [|fuel IH]; intros s H; [done|].
  cbn [removeHeadings_fuel]. destruct s as [|c s]; [done|].
  match goal with |- context [if ?b then _ else _] => destruct b end.
  - apply IH. by apply Forall_drop.
  - apply Forall_cons in H as [Hc Hs]. constructor; [done|by apply IH].
Qed.

Lemma runWithout_Forall (P : ascii -> Prop) c s :
  Forall P s -> Forall P (runWithout c s).
Proof.
  induction 1 as [|x s Hx Hs IH]; simpl; [done|].
  destruct (Ascii.eqb x c); [done|by constructor].
Qed.

Lemma matchLink_Forall (P : ascii -> Prop) s label after :
  Forall P s -> matchLink s = Some (label, after) ->
  Forall P label /\ Forall P after.
Proof.
  unfold matchLink. destruct s as [|c s1]; [done|].
  intros H. apply Forall_cons in H as [_ H1].
  destruct (Ascii.eqb c "["); [|done].
  pose proof (runWithout_Forall P "]" s1 H1) as Hl.
  destruct (runWithout "]" s1) as [|l0 l] eqn:El; [done|].
  pose proof (Forall_drop P (length (l0 :: l)) s1 H1) as Hd.
  destruct (drop (length (l0 :: l)) s1) as [|r [|p s2]] eqn:Ed; try done.
  destruct (Ascii.eqb r "]" && Ascii.eqb p "("); [|done].
  apply Forall_cons in Hd as [_ Hd]. apply Forall_cons in Hd as [_ H2].
  destruct (runWithout ")" s2) as [|u0 u] eqn:Eu; [done|].
  pose proof (Forall_drop P (length (u0 :: u)) s2 H2) as Hd2.
  destruct (drop (length (u0 :: u)) s2) as [|q s3] eqn:Ed2; [done|].
  destruct (Ascii.eqb q ")"); [|done].
  intros Heq. inversion Heq; subst. apply Forall_cons in Hd2 as [_ H3]. done.
Qed.

Lemma collapseLinks_fuel_Forall (P : ascii -> Prop) : forall fuel s,
  Forall P s -> Forall P (collapseLinks_fuel fuel s).
Proof.
  induction fuel as [|fuel IH]; intros s H; [done|].
  cbn [collapseLinks_fuel]. destruct s as [|c s]; [done|].
  destruct (matchLink (c :: s)) as [[label after]|] eqn:E.
  - destruct (matchLink_Forall P _ _ _ H E). apply Forall_app. split; [done|by apply IH].
  - apply Forall_cons in H as [Hc Hs]. constructor; [done|by apply IH].
Qed.

Lemma removeChar_Forall (P : ascii -> Prop) c s :
  Forall P s -> Forall P (removeChar c s).
Proof.
  intros H. unfold removeChar. rewrite Forall_forall in *.
  intros x Hx. apply list_elem_of_filter in Hx as [_ Hx]. by apply H.
Qed.

Lemma removeChar_gone c s : Forall (fun x => x <> c) (removeChar c s).
Proof.
  unfold removeChar. apply Forall_forall. intros x Hx.
  apply list_elem_of_filter in Hx as [Hx _]. intros ->.
  by rewrite Ascii.eqb_refl in Hx.
Qed.

(** What [cleanText] returns is trimmed and holds neither an asterisk
    nor a backtick. *)
Lemma cleanText_clean text :
  trim (cleanText text) = cleanText text /\
  Forall (fun c => c <> "*"%char /\ c <> "`"%char) (cleanText text).
Proof.
  split; [apply trim_idem|].
  unfold cleanText, collapseLinks, removeHeadings.
  apply trim_Forall, collapseLinks_fuel_Forall.
  apply Forall_and. split.
  - apply removeChar_Forall, removeHeadings_fuel_Forall, removeChar_gone.
  - apply removeChar_gone.
Qed.

(** X5. Every sentence event the route writes carries a text that is not
    empty, has no white space at either end and holds neither an
    asterisk nor a backtick. *)
Theorem sentence_texts_are_clean (deltas : list jsstring) :
  Forall (fun it =>
            snd it <> [] /\ trim (snd it) = snd it /\
            Forall (fun c => c <> "*"%char /\ c <> "`"%char) (snd it))
    (sentencesOf (decode deltas)).
Proof.
  assert (Hc : forall (it : nat * jsstring),
             (exists raw, snd it = cleanText raw /\ snd it <> []) ->
             snd it <> [] /\ trim (snd it) = snd it /\
             Forall (fun c => c <> "*"%char /\ c <> "`"%char) (snd it)).
  { intros it (raw & -> & Hne). split; [done|]. apply cleanText_clean. }
  unfold decode. rewrite sentencesOf_app. apply Forall_app.
  destruct (feed_facts deltas init) as (Ha & n & H1 & H2 & H3 & H4).
  split.
  - eapply Forall_impl; [exact H4|]. exact Hc.
  - unfold onEnd. rewrite Ha. cbn [aborted init].
    destruct (0 <? length (cleanText (sentenceBuffer (fst (feed deltas init)))))
      eqn:E; [|by constructor].
    cbn [snd sentencesOf]. constructor; [|constructor]. apply Hc.
    eexists. split; [reflexivity|]. simpl. intros Hn. rewrite Hn in E. done.
Qed.


Lemma onEnd_tokens d : tokensOf (snd (onEnd d)) = [].
Proof.
  unfold onEnd. destruct (aborted d); [done|].
  by destruct (0 <? length (cleanText (sentenceBuffer d))).
Qed.

Lemma feed_plain deltas : forall d,
  Forall (fun delta => includes think_open delta = false) deltas ->
  insideThinking d = false -> aborted d = false ->
  tokensOf (snd (feed deltas d)) = filter (fun delta => falsy delta = false) deltas.
Proof.
  induction deltas as [|delta deltas IH]; intros d Hp Hi Ha; [done|].
  apply Forall_cons in Hp as [Hdelta Hp].
  cbn [feed snd]. rewrite tokensOf_app.
  assert (Hstep : tokensOf (snd (onContent delta d)) =
                  filter (fun x => falsy x = false) [delta] /\
                  insideThinking (fst (onContent delta d)) = false /\
                  aborted (fst (onContent delta d)) = false).
  { unfold onContent. destruct (falsy delta) eqn:Ef.
    - rewrite filter_cons_False by (by rewrite Ef). done.
    - rewrite filter_cons_True by done.
      rewrite Hi, (stripThinking_plain delta Hdelta), Ef, Ha.
      destruct (scanSentences 10 (sentenceBuffer d ++ delta)) as [sentences lastIndex].
      destruct sentences as [|s sentences]; [done|].
      destruct (emitSentences_spec false (s :: sentences) (sentenceIndex d))
        as (n & _ & _ & Ht & _).
      cbn [fst snd insideThinking aborted]. rewrite tokensOf_app, Ht. done. }
  destruct Hstep as (Ht & Hi' & Ha').
  rewrite Ht, (IH _ Hp Hi' Ha'). rewrite (filter_app _ [delta] deltas). done.
Qed.

(** X6. When no delta of the stream holds the start marker [<think>],
    the token events the route of part_000 writes to a client that stays
    connected are exactly the non-empty deltas, unchanged and in
    order. *)
Theorem plain_deltas_are_forwarded (deltas : list jsstring) :
  Forall (fun delta => includes think_open delta = false) deltas ->
  tokensOf (decode deltas) = filter (fun delta => falsy delta = false) deltas.
Proof.
  intros Hp. unfold decode.
  rewrite tokensOf_app, onEnd_tokens, app_nil_r. by apply feed_plain.
Qed.

Lemma plain_deltas_are_forwarded_witness :
  tokensOf (decode [str "Hello "; []; str "world. How are you?"]) =
    [str "Hello "; str "world. How are you?"].
Proof.
  apply (plain_deltas_are_forwarded [str "Hello "; []; str "world. How are you?"]).
  repeat constructor.
Defined.

Lemma is_terminal_not_space c : is_terminal c = true -> is_space c = false.
Proof.
  unfold is_terminal. rewrite !orb_true_iff, !Ascii.eqb_eq.
  intros [[->| ->]| ->]; reflexivity.
Qed.

Lemma execBoundary_at_char : forall s pos index len,
  execBoundary_at s pos = Some (index, len) ->
  exists c, s !! (index - pos) = Some c /\ is_terminal c = true.
Proof.
  induction s as [|c s IH]; intros pos index len; cbn [execBoundary_at]; [done|].
  destruct (is_terminal c && (1 <=? spaceRun s)) eqn:E.
  - intros H. inversion H; subst. rewrite Nat.sub_diag.
    exists c. split; [done|]. by apply andb_true_iff in E as [E _].
  - intros H. pose proof (execBoundary_at_bounds _ _ _ _ H) as (Hle & _).
    destruct (IH _ _ _ H) as (c' & Hc & Ht). exists c'. split; [|done].
    replace (index - pos) with (S (index - S pos)) by lia. done.
Qed.

Lemma scanLoop_wellCut minLength text : forall fuel re last acc,
  last <= re -> last <= length text ->
  Forall (wellCut minLength) acc ->
  Forall (wellCut minLength) (fst (scanLoop fuel minLength text re last acc)) /\
  snd (scanLoop fuel minLength text re last acc) <= length text.
Proof.
  induction fuel as [|fuel IH]; intros re last acc Hle Hlen Hacc; [done|].
  cbn [scanLoop].
  destruct (execBoundary text re) as [[index len]|] eqn:E; [|done].
  unfold execBoundary in E.
  pose proof (execBoundary_at_bounds _ _ _ _ E) as (H1 & H2 & H3).
  destruct (execBoundary_at_char _ _ _ _ E) as (c & Hc & Ht).
  rewrite length_drop in H3. rewrite lookup_drop in Hc.
  replace (re + (index - re)) with index in Hc by lia.
  assert (Hre : re <= length text).
  { destruct (decide (re <= length text)); [done|].
    rewrite drop_ge in E by lia. done. }
  destruct (minLength <=? length (trim (slice last (index + 1) text))) eqn:Em.
  - apply IH; [lia|lia|]. apply Forall_app. split; [done|].
    constructor; [|done]. split; [by apply Nat.leb_le|]. split; [apply trim_idem|].
    unfold slice.
    assert (Hd : drop last text !! (index - last) = Some c).
    { rewrite lookup_drop. by replace (last + (index - last)) with index by lia. }
    replace (index + 1 - last) with (S (index - last)) by lia.
    rewrite (take_S_r _ _ _ Hd).
    destruct (trim_snoc (take (index - last) (drop last text)) c
                (is_terminal_not_space c Ht)) as [w Hw].
    exists w, c. by rewrite Hw.
  - apply IH; [lia|lia|done].
Qed.

(** X7. Every sentence the boundary scan cuts from a text has at least
    the minimum length, has no white space at either end and ends in
    the period, exclamation mark or question mark of its boundary; and
    the position after the last cut lies within the text. *)
Theorem cut_sentences_are_well_formed (minLength : nat) (text : jsstring) :
  Forall (wellCut minLength) (fst (scanSentences minLength text)) /\
  snd (scanSentences minLength text) <= length text.
Proof. unfold scanSentences. apply scanLoop_wellCut; [lia|lia|constructor]. Qed.


(** X8. The handler of /api/tts makes at most one request upstream, and
    makes one exactly when [text] is a string with a character other
    than white space; the [input] it sends is then the text as received,
    not trimmed. *)
Theorem tts_requests_upstream_once (voice : jsstring)
    (upstream : SpeechRequest -> Upstream) (text index : JsValue) :
  (snd (tts voice upstream text index) = [] \/
   exists s, text = JString s /\ trim s <> [] /\
     snd (tts voice upstream text index) = [mkSpeechRequest s voice]) /\
  ((exists s, text = JString s /\ trim s <> []) ->
   snd (tts voice upstream text index) <> []).
Proof.
  unfold tts. destruct text as [| |b|q|s|]; simpl truthy.
  1-4, 6: split; [left; by repeat case_match|intros (s & [=] & _)].
  destruct s as [|c s]; simpl.
  - split; [by left|]. intros (s' & [= <-] & H). done.
  - destruct (length (trim (c :: s)) =? 0) eqn:E.
    + split; [by left|]. intros (s' & [= <-] & H).
      apply Nat.eqb_eq in E. by destruct (trim (c :: s)).
    + assert (Hne : trim (c :: s) <> []).
      { intros Hn. rewrite Hn in E. done. }
      split.
      * right. exists (c :: s). split; [done|]. split; [done|].
        destruct (upstream _) as [[|] status body|message]; done.
      * intros _. destruct (upstream _) as [[|] status body|message]; done.
Qed.

(** X9. A [text] that is truthy but not a string - a number other than
    0, [true], an array or an object - is answered with status 500, not
    400, and without a request upstream: calling [trim] on it throws,
    and the [catch] block answers. *)
Theorem tts_non_string_text_is_500 (voice : jsstring)
    (upstream : SpeechRequest -> Upstream) (text index : JsValue) :
  truthy text = true ->
  (forall s, text <> JString s) ->
  exists message, tts voice upstream text index = (ReplyError 500 message, []).
Proof.
  intros Ht Hs. unfold tts. rewrite Ht. simpl.
  destruct text as [| |b|q|s|]; try (eexists; reflexivity).
  by destruct (Hs s).
Qed.

Lemma tts_non_string_text_is_500_witness :
  exists message,
    tts (str "am_adam") (fun _ => UpResponse true 200 []) (JNumber 5) JUndefined
      = (ReplyError 500 message, []).
Proof.
  apply tts_non_string_text_is_500; [reflexivity|]. intros s H. discriminate H.
Defined.

End ServerMore.

(** ** The event stream between server and page *)

Module WireFacts.
Import Js Wire JsMore.

Lemma splitLines_nonempty s : splitLines s <> [].
Proof.
  destruct s as [|c s]; simpl; [done|].
  destruct (Ascii.eqb c newline); [done|]. by destruct (splitLines s).
Qed.

(** Splitting a text after its first line. *)
Lemma splitLines_line l rest :
  oneLine l -> splitLines (l ++ newline :: rest) = l :: splitLines rest.
Proof.
  induction 1 as [|c l Hc Hl IH]; simpl; [done|].
  destruct (Ascii.eqb_spec c newline); [done|]. by rewrite IH.
Qed.

Lemma splitLines_oneLine l : oneLine l -> splitLines l = [l].
Proof.
  induction 1 as [|c l Hc Hl IH]; simpl; [done|].
  destruct (Ascii.eqb_spec c newline); [done|]. by rewrite IH.
Qed.

Lemma splitLines_all_oneLine s : Forall oneLine (splitLines s).
Proof.
  induction s as [|c s IH]; simpl; [repeat constructor|].
  destruct (Ascii.eqb_spec c newline) as [|Hne]; [constructor; [constructor|done]|].
  destruct (splitLines s) as [|l ls]; [repeat constructor; done|].
  apply Forall_cons in IH as [Hl Hls].
  constructor; [constructor; done|done].
Qed.

(** Splitting a concatenation: the lines of the first part but its
    last, then the lines of that last piece followed by the second
    part. *)
Lemma splitLines_app x y :
  splitLines (x ++ y) =
  removelast (splitLines x) ++ splitLines (List.last (splitLines x) [] ++ y).
Proof.
  induction x as [|c x IH]; simpl; [done|].
  destruct (Ascii.eqb_spec c newline) as [->|Hne].
  - rewrite IH. pose proof (splitLines_nonempty x).
    destruct (splitLines x) as [|l ls] eqn:E; [done|]. done.
  - rewrite IH. pose proof (splitLines_nonempty x).
    destruct (splitLines x) as [|l [|l' ls]] eqn:E; [done| |].
    + simpl. destruct (Ascii.eqb_spec c newline); [done|].
      pose proof (splitLines_nonempty (l ++ y)).
      by destruct (splitLines (l ++ y)).
    + simpl. done.
Qed.

Lemma removelast_last {A} (l : list A) d :
  l <> [] -> removelast l ++ [List.last l d] = l.
Proof. intros H. symmetry. by apply app_removelast_last. Qed.

Lemma last_app_ne {A} (l1 l2 : list A) d :
  l2 <> [] -> List.last (l1 ++ l2) d = List.last l2 d.
Proof.
  intros H. induction l1 as [|x l1 IH]; [done|]. simpl.
  destruct (l1 ++ l2) eqn:E; [|done]. by destruct l1, l2.
Qed.

(** The reading loop hands on the complete lines of all it has read and
    keeps what follows the last line feed. *)
Lemma readChunks_spec chunks : forall buffer,
  oneLine buffer ->
  snd (readChunks chunks buffer) = removelast (splitLines (buffer ++ concat chunks)) /\
  fst (readChunks chunks buffer) = List.last (splitLines (buffer ++ concat chunks)) [].
Proof.
  induction chunks as [|chunk chunks IH]; intros buffer Hb.
  - simpl. rewrite app_nil_r, (splitLines_oneLine buffer Hb). done.
  - cbn [readChunks fst snd concat]. unfold readChunk. cbn [fst snd].
    set (ls := splitLines (buffer ++ chunk)).
    assert (Hne : ls <> []) by apply splitLines_nonempty.
    assert (Hl : oneLine (List.last ls [])).
    { pose proof (splitLines_all_oneLine (buffer ++ chunk)) as Hall. fold ls in Hall.
      rewrite <- (removelast_last ls [] Hne) in Hall.
      apply Forall_app in Hall as [_ Hall]. by apply Forall_cons in Hall as [? _]. }
    destruct (IH (List.last ls []) Hl) as [H1 H2].
    rewrite H1, H2, app_assoc, (splitLines_app (buffer ++ chunk) (concat chunks)).
    fold ls.
    pose proof (splitLines_nonempty (List.last ls [] ++ concat chunks)) as Hne2.
    split.
    + rewrite removelast_app by done. done.
    + by rewrite last_app_ne.
Qed.


(** The lines of the two loops in terms of the whole text read. *)
Lemma reading_is_characterised (chunks : list jsstring) :
  serverLines chunks = removelast (splitLines (concat chunks)) /\
  clientLines chunks =
    removelast (splitLines (concat chunks)) ++
    (if 0 <? length (trim (List.last (splitLines (concat chunks)) []))
     then [List.last (splitLines (concat chunks)) []] else []).
Proof.
  split.
  - unfold serverLines.
    by destruct (readChunks_spec chunks []) as [-> _]; [constructor|].
  - unfold clientLines.
    destruct (readChunks_spec chunks []) as [H1 H2]; [constructor|].
    simpl in H1, H2. rewrite H1, H2. f_equal.
    destruct (0 <? _); [|done]. apply splitLines_oneLine.
    pose proof (splitLines_all_oneLine (concat chunks)) as Hall.
    rewrite <- (removelast_last (splitLines (concat chunks)) []
                  (splitLines_nonempty _)) in Hall.
    apply Forall_app in Hall as [_ Hall]. by apply Forall_cons in Hall as [? _].
Qed.



Lemma trim_fixed_last p :
  trim p = p -> p <> [] -> exists w c, p = w ++ [c] /\ is_space c = false.
Proof.
  intros Ht Hne. unfold trim, trimEnd in Ht.
  assert (Hr : rev p = trimStart (rev (trimStart p))).
  { rewrite <- Ht at 1. by rewrite rev_involutive. }
  destruct (rev p) as [|c r] eqn:E.
  - apply (f_equal (@rev ascii)) in E. rewrite rev_involutive in E. done.
  - exists (rev r), c. split.
    + apply (f_equal (@rev ascii)) in E. rewrite rev_involutive in E. done.
    + symmetry in Hr. by apply trimStart_head in Hr.
Qed.

Lemma trim_keep a w c :
  is_space a = false -> is_space c = false ->
  trim (a :: w ++ [c]) = a :: w ++ [c].
Proof.
  intros Ha Hc. unfold trim. rewrite (trimStart_fixed a _ Ha).
  unfold trimEnd.
  replace (rev (a :: w ++ [c])) with (c :: rev (a :: w))
    by (change (a :: w ++ [c]) with ((a :: w) ++ [c]);
        by rewrite rev_app_distr).
  rewrite (trimStart_fixed c _ Hc).
  change (rev (c :: rev (a :: w))) with (rev (rev (a :: w)) ++ [c]).
  by rewrite rev_involutive.
Qed.

Lemma clientPayload_data json :
  wellFramed (Data json) -> clientPayload (frameLine (Data json)) = Some json.
Proof.
  intros (Hl & Hne & Ht & Hd).
  destruct (trim_fixed_last json Ht Hne) as (w & c & -> & Hc).
  unfold clientPayload, frameLine.
  assert (Hk : trim (str "data: " ++ w ++ [c]) = str "data: " ++ w ++ [c]).
  { exact (trim_keep "d" (str "ata: " ++ w) c eq_refl Hc). }
  rewrite Hk. cbn [str list_ascii_of_string app startsWith Ascii.eqb Bool.eqb andb negb drop].
  assert (Hsp : trim (" "%char :: w ++ [c]) = w ++ [c]).
  { unfold trim at 1. cbn [trimStart]. change (is_space " ") with true.
    cbv iota. exact Ht. }
  simpl. rewrite Hsp.
  assert (Hfy : falsy (w ++ [c]) = false) by (by destruct w).
  rewrite Hfy, bool_decide_eq_false_2 by done. done.
Qed.

Lemma clientPayload_comment text : clientPayload (frameLine (Comment text)) = None.
Proof.
  unfold clientPayload, frameLine, trim. simpl trimStart.
  destruct (trimEnd_prefix (":"%char :: " "%char :: text)) as [suf Hs].
  destruct (trimEnd (":"%char :: " "%char :: text)) as [|x r]; [done|].
  inversion Hs; subst. done.
Qed.

Lemma clientPayload_empty : clientPayload [] = None.
Proof. reflexivity. Qed.

Lemma frameLine_oneLine f : wellFramed f -> oneLine (frameLine f).
Proof.
  destruct f as [json|text]; simpl.
  - intros (Hl & _). repeat (constructor; [done|]). exact Hl.
  - intros Hl. repeat (constructor; [done|]). exact Hl.
Qed.

Lemma writeFrame_line f : writeFrame f = frameLine f ++ [newline; newline].
Proof. destruct f; simpl; by rewrite <- ?app_assoc. Qed.

(** The lines of a well-framed stream: for every frame its line and an
    empty line, and one empty piece at the end. *)
Lemma splitLines_frames frames :
  Forall wellFramed frames ->
  splitLines (concat (map writeFrame frames)) =
  concat (map (fun f => [frameLine f; []]) frames) ++ [[]].
Proof.
  induction 1 as [|f frames Hf Hfs IH]; [done|].
  cbn [map concat]. rewrite writeFrame_line, <- app_assoc.
  change ([newline; newline] ++ ?x) with (newline :: newline :: x).
  rewrite (splitLines_line _ _ (frameLine_oneLine f Hf)).
  change (newline :: ?x) with ([] ++ newline :: x) at 1.
  rewrite (splitLines_line [] _ (List.Forall_nil _)). by rewrite IH.
Qed.

(** X11. What the route writes reaches the page whole: when the route
    writes a sequence of events [data: <json>] and of comments, each of
    one line, and the bytes arrive cut into chunks in any way, the
    payloads [chatStream] parses are exactly the JSON texts of the
    events, in order; the comments and the empty lines are skipped. *)
Theorem frames_reach_the_page (frames : list Frame) (chunks : list jsstring) :
  Forall wellFramed frames ->
  concat chunks = concat (map writeFrame frames) ->
  clientPayloads chunks = dataOf frames.
Proof.
  intros Hf He.
  destruct (reading_is_characterised chunks) as [_ Hc].
  unfold clientPayloads. rewrite Hc, He, (splitLines_frames frames Hf).
  rewrite removelast_app by done. rewrite last_app_ne by done.
  cbn [removelast List.last trim trimStart trimEnd rev length Nat.ltb Nat.leb].
  rewrite !app_nil_r.
  clear He Hc. induction Hf as [|f frames Hf Hfs IH]; [done|].
  cbn [map concat app].
  change (omap clientPayload (frameLine f :: [] :: ?l))
    with (match clientPayload (frameLine f) with
          | Some y => y :: omap clientPayload l
          | None => omap clientPayload l
          end).
  destruct f as [json|text].
  - rewrite (clientPayload_data json Hf). cbn [dataOf]. by rewrite <- IH.
  - rewrite clientPayload_comment. cbn [dataOf]. exact IH.
Qed.


Lemma frames_reach_the_page_witness :
  clientPayloads
    [str ": connected"; [newline; newline] ++ str "data: {a";
     str "}" ++ [newline]; [newline] ++ str "data: {b}" ++ [newline; newline]] =
  [str "{a}"; str "{b}"].
Proof.
  apply (frames_reach_the_page
           [Comment (str "connected"); Data (str "{a}"); Data (str "{b}")]).
  - repeat constructor; done.
  - reflexivity.
Defined.

Lemma clientPayload_blank line : length (trim line) = 0 -> clientPayload line = None.
Proof.
  unfold clientPayload.
  destruct (trim line); [reflexivity|discriminate].
Qed.

(** X12. The two ways [chatStream] reads a response agree: reading the
    body chunk by chunk parses the same payloads, in the same order, as
    the fallback that takes the whole text at once. *)
Theorem streaming_agrees_with_fallback (chunks : list jsstring) :
  clientPayloads chunks = fallbackPayloads (concat chunks).
Proof.
  destruct (reading_is_characterised chunks) as [_ Hc].
  unfold clientPayloads, fallbackPayloads. rewrite Hc.
  pose proof (removelast_last (splitLines (concat chunks)) []
                (splitLines_nonempty _)) as Hl.
  set (body := removelast (splitLines (concat chunks))) in *.
  set (rest := List.last (splitLines (concat chunks)) []) in *.
  rewrite <- Hl, !omap_app. f_equal.
  destruct (0 <? _) eqn:E; [done|].
  apply Nat.ltb_ge in E.
  change (omap clientPayload [?x])
    with (match clientPayload x with Some y => [y] | None => [] end).
  rewrite clientPayload_blank; [done|lia].
Qed.

End WireFacts.

(** ** Runs of the detector and of the controller *)

Module RunsFacts.
Import Js Vad History Session Runs.

(** *** The detector *)

Lemma monitor_installed now rms v :
  onSpeechStart (fst (monitor now rms v)) = onSpeechStart v /\
  onSpeechEnd (fst (monitor now rms v)) = onSpeechEnd v.
Proof.
  unfold monitor.
  repeat match goal with |- context [if ?b then _ else _] => destruct b end;
    done.
Qed.

Lemma monitor_alternates now rms v rest :
  onSpeechStart v = true -> onSpeechEnd v = true ->
  alternates (speechDetected (fst (monitor now rms v))) rest = true ->
  alternates (speechDetected v) (snd (monitor now rms v) ++ rest) = true.
Proof.
  intros Hs He. unfold monitor. rewrite Hs, He.
  destruct (enabled v); cbn [negb]; [|done].
  destruct (gtb rms SPEECH_THRESHOLD).
  { cbn [fst snd speechDetected]. by destruct (speechDetected v). }
  destruct (speechDetected v) eqn:Es; rewrite ?andb_false_r, ?andb_true_r;
    [|by cbn [fst snd app]; rewrite Es].
  destruct (ltb rms SILENCE_THRESHOLD); [|by cbn [fst snd app]; rewrite Es].
  destruct (silenceStart v =? 0)%Z; [by cbn [fst snd app speechDetected]|].
  destruct (SILENCE_DURATION <? now - silenceStart v)%Z;
    [|by cbn [fst snd app]; rewrite Es].
  by cbn [fst snd speechDetected].
Qed.

(** X13. The detector calls its two callbacks in turns, whatever the
    microphone delivers: over any trace of samples the first call is
    [onSpeechStart], and after it [onSpeechEnd] and [onSpeechStart]
    alternate; neither is ever called twice in a row. *)
Theorem vad_callbacks_alternate (samples : list (Z * Q)) :
  alternates false (callbacks samples started) = true.
Proof.
  change false with (speechDetected started).
  assert (Hs : onSpeechStart started = true) by done.
  assert (He : onSpeechEnd started = true) by done.
  revert Hs He. generalize started.
  induction samples as [|[now rms] samples IH]; intros v Hs He; [done|].
  cbn [callbacks].
  destruct (monitor_installed now rms v) as [Hs' He'].
  apply monitor_alternates; [done|done|]. apply IH; congruence.
Qed.

(** *** The history *)

(** X14. The request of every call of [chatStream] holds at most
    [MAX_HISTORY] messages, ends with the user's new message, and is the
    end of the history with that message added: what is left out is the
    oldest turns only, at most two of them. *)
Theorem request_holds_the_latest_turns
    (calls : list (jsstring * Outcome)) (userText : jsstring) :
  let h := historyAfter calls [] in
  length (pushUser userText h) <= MAX_HISTORY /\
  List.last (pushUser userText h) (mkTurn user userText) = mkTurn user userText /\
  pushUser userText h <> [] /\
  exists dropped,
    h ++ [mkTurn user userText] = dropped ++ pushUser userText h /\
    length dropped <= 2.
Proof.
  intros h.
  assert (Hh : length h <= S MAX_HISTORY).
  { apply HistoryFacts.historyAfter_length. simpl. lia. }
  unfold pushUser.
  set (h1 := h ++ [mkTurn user userText]).
  assert (Hl : length h1 = S (length h)).
  { unfold h1. rewrite length_app. simpl. lia. }
  destruct (Nat.ltb_spec MAX_HISTORY (length h1)) as [Hlt|Hge].
  - assert (Hd : drop (length h1 - MAX_HISTORY) h1 =
                 drop (length h1 - MAX_HISTORY) h ++ [mkTurn user userText]).
    { unfold h1. rewrite drop_app_le; [done|].
      rewrite length_app. unfold MAX_HISTORY. simpl. lia. }
    split; [rewrite length_drop; lia|].
    split; [rewrite Hd; apply last_last|].
    split; [rewrite Hd; by destruct (drop _ h)|].
    exists (take (length h1 - MAX_HISTORY) h1). split.
    + by rewrite take_drop.
    + rewrite length_take. unfold MAX_HISTORY in *. lia.
  - split; [done|]. split; [apply last_last|].
    split; [unfold h1; by destruct h|].
    exists []. split; [done|simpl; lia].
Qed.


(** *** The controller *)

Lemma transition_fields s d :
  ttsEnabled (transition s d) = ttsEnabled d /\
  currentQueue (transition s d) = currentQueue d /\
  pipelineBusy (transition s d) = pipelineBusy d /\
  interactionVersion (transition s d) = interactionVersion d /\
  heap (transition s d) = heap d /\
  activation (transition s d) = activation d /\
  current (transition s d) = s.
Proof.
  unfold transition. destruct (State_eqb (current d) s) eqn:E; [|done].
  repeat (split; [done|]). by destruct (current d), s.
Qed.

Lemma finally_consistent a d :
  runVersion a = interactionVersion d ->
  consistent (finally a d) /\ current (finally a d) = IDLE /\
  pipelineBusy (finally a d) = false /\ activation (finally a d) = None.
Proof.
  intros Hv. unfold finally. rewrite Hv, Nat.eqb_refl.
  match goal with |- context [transition IDLE ?x] =>
    destruct (transition_fields IDLE x) as (_ & _ & Hb & _ & _ & Ha & Hc) end.
  unfold consistent. rewrite Ha, Hb, Hc. cbn. tauto.
Qed.

(** A call on a scheduler leaves the lock, the version and the state as
    they are, or it runs the [finally] of the suspended activation. *)
Lemma onQueue_consistent q now c d :
  consistent d -> consistent (onQueue q now c d).
Proof.
  intros Hc. unfold onQueue.
  destruct (heap d !! q) as [m|]; [|done].
  generalize (Queue.step now c m). intros r.
  match goal with |- consistent (match _ with [] => ?x | _ => _ end) =>
    set (d1 := x) end.
  assert (H1 : consistent d1) by done.
  assert (Hv1 : interactionVersion d1 = interactionVersion d) by done.
  clearbody d1.
  destruct (Queue.resolves (snd r)); [done|].
  destruct (activation d) as [a|] eqn:Ea; [|done].
  destruct (awaiting a), (audioQueue a) as [q'|]; try done.
  destruct (q =? q'); [|done].
  apply finally_consistent. rewrite Hv1.
  unfold consistent in Hc. rewrite Ea in Hc. tauto.
Qed.

Lemma suspend_consistent a a' d :
  activation d = Some a -> consistent d -> runVersion a' = runVersion a ->
  consistent (suspend a' d).
Proof.
  unfold consistent. intros -> (Hb & Hv & Hc) Hr. cbn. rewrite Hr. tauto.
Qed.

Lemma resume_consistent now e a d :
  activation d = Some a -> consistent d -> consistent (resume now e a d).
Proof.
  intros Ea Hc.
  assert (Hv : runVersion a = interactionVersion d).
  { unfold consistent in Hc. rewrite Ea in Hc. tauto. }
  assert (Hb : pipelineBusy d = true).
  { unfold consistent in Hc. rewrite Ea in Hc. tauto. }
  assert (Hfin : consistent (finally a d)) by (by apply finally_consistent).
  unfold resume.
  destruct (awaiting a), e; try done.
  - destruct hasBlob; [|done]. by apply (suspend_consistent a).
  - destruct (falsy text || (length (trim text) =? 0)); [done|].
    destruct (transition_fields STREAMING d) as (Ht & _ & Hb' & Hv' & _ & Ha' & Hc').
    destruct (ttsEnabled (transition STREAMING d)).
    + unfold consistent. cbn. rewrite Hb', Hv', Hc', Hb, Hv. tauto.
    + unfold consistent. cbn. rewrite Hb', Hv', Hc', Hb, Hv. tauto.
  - destruct (ttsEnabled d); [|done]. destruct (audioQueue a); [|done].
    unfold consistent. cbn. unfold consistent in Hc. rewrite Ea in Hc. tauto.
  - destruct (ttsEnabled d); [|done]. destruct (audioQueue a); [|done].
    apply onQueue_consistent. by apply (suspend_consistent a).
Qed.

Lemma handle_consistent now e d : consistent d -> consistent (handle now e d).
Proof.
  intros Hc.
  assert (Hres : consistent match activation d with
                            | Some a => resume now e a d
                            | None => d
                            end).
  { destruct (activation d) as [a|] eqn:Ea; [|done].
    by apply resume_consistent. }
  destruct e; try exact Hres; cbn [handle].
  - (* PressStart *)
    unfold handlePressStart. destruct (pipelineBusy d) eqn:Eb; [done|].
    destruct (State_eqb (current d) IDLE); [|done].
    unfold startListening.
    match goal with |- context [transition LISTENING ?x] =>
      destruct (transition_fields LISTENING x) as (_ & _ & Hb & _ & _ & Ha & Hs) end.
    clear Hres. unfold consistent in *. rewrite Ha, Hb, Hs. cbn.
    destruct (activation d); [|tauto]. destruct Hc as [Hc _]. congruence.
  - (* PressEnd *)
    unfold handlePressEnd. destruct (State_eqb (current d) LISTENING); [|done].
    unfold stopListeningAndProcess. destruct (pipelineBusy d) eqn:Eb; [done|].
    match goal with |- context [transition PROCESSING ?x] =>
      destruct (transition_fields PROCESSING x) as (_ & _ & Hb & Hv & _ & _ & Hs) end.
    unfold consistent. cbn. rewrite Hb, Hv, Hs. cbn. tauto.
  - (* ToggleTts *)
    exact Hc.
  - (* TtsDecoded *)
    apply onQueue_consistent. destruct (index =? 0); [|done].
    destruct (transition_fields SPEAKING d) as (_ & _ & Hb & Hv & _ & Ha & Hs).
    clear Hres. unfold consistent in *. rewrite Ha, Hb, Hv, Hs.
    destruct (activation d); tauto.
  - by apply onQueue_consistent.
  - by apply onQueue_consistent.
Qed.

Lemma handleAll_consistent tr : forall d,
  consistent d -> consistent (handleAll tr d).
Proof.
  induction tr as [|[now e] tr IH]; intros d Hc; [done|].
  cbn [handleAll]. by apply IH, handle_consistent.
Qed.

(** [finally] run under the version it captured. *)
Lemma finally_ends a d :
  runVersion a = interactionVersion d ->
  current (finally a d) = IDLE /\ pipelineBusy (finally a d) = false /\
  currentQueue (finally a d) = None.
Proof.
  intros Hv. unfold finally. rewrite Hv, Nat.eqb_refl.
  match goal with |- context [transition IDLE ?x] =>
    destruct (transition_fields IDLE x) as (_ & Hq & Hb & _ & _ & _ & Hc) end.
  by rewrite Hq, Hb, Hc.
Qed.

(** A call on a scheduler either keeps the activation or ends it
    through its [finally]. *)
Lemma onQueue_ends q now c d a :
  activation d = Some a -> runVersion a = interactionVersion d ->
  activation (onQueue q now c d) = None ->
  current (onQueue q now c d) = IDLE /\
  pipelineBusy (onQueue q now c d) = false /\
  currentQueue (onQueue q now c d) = None.
Proof.
  intros Ea Hv. unfold onQueue.
  destruct (heap d !! q) as [m|]; [|by rewrite Ea].
  generalize (Queue.step now c m). intros r. rewrite Ea.
  destruct (Queue.resolves (snd r)); [done|].
  destruct (awaiting a), (audioQueue a) as [q'|]; try done.
  destruct (q =? q'); [|done].
  intros _. by apply finally_ends.
Qed.

Lemma resume_ends now e a d :
  activation d = Some a -> runVersion a = interactionVersion d ->
  activation (resume now e a d) = None ->
  current (resume now e a d) = IDLE /\
  pipelineBusy (resume now e a d) = false /\
  currentQueue (resume now e a d) = None.
Proof.
  intros Ea Hv.
  pose proof (finally_ends a d Hv) as Hfin.
  unfold resume.
  destruct (awaiting a), e; try (by rewrite Ea); try (by intros _).
  - by destruct hasBlob.
  - destruct (falsy text || (length (trim text) =? 0)); [by intros _|].
    by destruct (ttsEnabled (transition STREAMING d)).
  - destruct (ttsEnabled d); [|by rewrite Ea].
    by destruct (audioQueue a); [|rewrite Ea].
  - destruct (ttsEnabled d); [|by intros _].
    destruct (audioQueue a) as [q|]; [|by intros _].
    by apply (onQueue_ends q now _ _
                (mkActivation (runVersion a) AwaitCompletion (Some q)
                   (sentenceCount a))).
Qed.

Lemma handle_ends now e d a :
  consistent d -> activation d = Some a ->
  activation (handle now e d) = None ->
  current (handle now e d) = IDLE /\
  pipelineBusy (handle now e d) = false /\
  currentQueue (handle now e d) = None.
Proof.
  intros Hc Ea.
  assert (Hv : runVersion a = interactionVersion d).
  { unfold consistent in Hc. rewrite Ea in Hc. tauto. }
  assert (Hb : pipelineBusy d = true).
  { unfold consistent in Hc. rewrite Ea in Hc. tauto. }
  destruct e as [ | | |hasBlob|text| |index text|cnt| | |v q index buf
                |q total|q]; cbn [handle]; rewrite ?Ea;
    try (by apply resume_ends).
  - unfold handlePressStart. by rewrite Hb, Ea.
  - unfold handlePressEnd, stopListeningAndProcess. rewrite Hb.
    destruct (State_eqb (current d) LISTENING); by rewrite Ea.
  - cbn [activation]. done.
  - destruct (index =? 0); [|by apply (onQueue_ends q now _ d a)].
    destruct (transition_fields SPEAKING d) as (_ & _ & _ & Hv' & _ & Ha' & _).
    apply (onQueue_ends q now _ _ a); congruence.
  - by apply (onQueue_ends q now _ d a).
  - by apply (onQueue_ends q now _ d a).
Qed.

(** X15. Over every sequence of events the lock, the version and the
    state agree with the activation of [stopListeningAndProcess]: while
    a turn runs the lock is taken, the state is PROCESSING, STREAMING or
    SPEAKING and no new listening phase can begin, so the interaction
    version is still the one the turn captured. Hence the check in the
    [finally] block never fails: whenever a turn ends - at the event
    after which no activation is left - the state machine is in IDLE,
    the lock is released and the current scheduler is forgotten. Whether
    a turn ends at all is another matter. *)
Theorem a_turn_that_ends_returns_to_idle
    (tr : list (Q * Event)) (now : Q) (e : Event) :
  consistent (handleAll tr boot) /\
  (forall a, activation (handleAll tr boot) = Some a ->
     runVersion a = interactionVersion (handleAll tr boot)) /\
  (activation (handleAll tr boot) <> None ->
   activation (handle now e (handleAll tr boot)) = None ->
   current (handle now e (handleAll tr boot)) = IDLE /\
   pipelineBusy (handle now e (handleAll tr boot)) = false /\
   currentQueue (handle now e (handleAll tr boot)) = None).
Proof.
  assert (Hc : consistent (handleAll tr boot)).
  { apply handleAll_consistent. unfold consistent. cbn. tauto. }
  split; [exact Hc|]. split.
  - intros a Ea. unfold consistent in Hc. rewrite Ea in Hc. tauto.
  - intros Hsome. destruct (activation (handleAll tr boot)) as [a|] eqn:Ea;
      [|done]. by apply (handle_ends now e _ a).
Qed.

(** A call on a scheduler while no activation is suspended changes the
    heap and the outputs only. *)
Lemma onQueue_idle q now c d :
  activation d = None ->
  current (onQueue q now c d) = current d /\
  pipelineBusy (onQueue q now c d) = pipelineBusy d /\
  interactionVersion (onQueue q now c d) = interactionVersion d /\
  activation (onQueue q now c d) = None.
Proof.
  intros Ea. unfold onQueue.
  destruct (heap d !! q) as [m|]; [|done].
  generalize (Queue.step now c m). intros r. rewrite Ea.
  by destruct (Queue.resolves (snd r)).
Qed.

Lemma handle_speaking now e d :
  current d = SPEAKING -> activation d = None -> pipelineBusy d = false ->
  current (handle now e d) = SPEAKING /\
  activation (handle now e d) = None /\
  pipelineBusy (handle now e d) = false /\
  interactionVersion (handle now e d) = interactionVersion d.
Proof.
  intros Hc Ha Hb.
  destruct e; cbn [handle]; rewrite ?Ha; try done.
  - unfold handlePressStart. by rewrite Hb, Hc.
  - unfold handlePressEnd. by rewrite Hc.
  - assert (Ht : (if index =? 0 then transition SPEAKING d else d) = d).
    { destruct (index =? 0); [|done]. unfold transition. by rewrite Hc. }
    rewrite Ht. destruct (onQueue_idle queueRef now (Queue.Enqueue index buf) d Ha)
      as (-> & -> & -> & ->). done.
  - destruct (onQueue_idle queueRef now (Queue.MarkAllEnqueued total) d Ha)
      as (-> & -> & -> & ->). done.
  - destruct (onQueue_idle queueRef now Queue.Ended d Ha)
      as (-> & -> & -> & ->). done.
Qed.

(** X16. SPEAKING outside a turn is final. Once the state machine is in
    SPEAKING while no activation of [stopListeningAndProcess] is
    suspended - where a completion that arrives after its turn puts it -
    no event takes it out again: pressing and releasing the button do
    nothing, completions still in flight leave it, and no further turn
    or listening phase ever begins. *)
Theorem speaking_outside_a_turn_is_final (tr : list (Q * Event)) (d : Drishti) :
  current d = SPEAKING -> activation d = None -> pipelineBusy d = false ->
  current (handleAll tr d) = SPEAKING /\
  activation (handleAll tr d) = None /\
  interactionVersion (handleAll tr d) = interactionVersion d.
Proof.
  revert d. induction tr as [|[now e] tr IH]; intros d Hc Ha Hb; [done|].
  cbn [handleAll].
  destruct (handle_speaking now e d Hc Ha Hb) as (Hc' & Ha' & Hb' & Hv').
  destruct (IH _ Hc' Ha' Hb') as (? & ? & ?). repeat split; congruence.
Qed.

Lemma speaking_outside_a_turn_is_final_witness :
  current (handleAll [(6, PressEnd); (7, PressStart); (8, PressEnd)]%Q
             (handle 5 lateCompletion (handleAll interruptedTurn boot)))
    = SPEAKING /\
  activation (handleAll [(6, PressEnd); (7, PressStart); (8, PressEnd)]%Q
                (handle 5 lateCompletion (handleAll interruptedTurn boot)))
    = None /\
  interactionVersion
    (handleAll [(6, PressEnd); (7, PressStart); (8, PressEnd)]%Q
       (handle 5 lateCompletion (handleAll interruptedTurn boot))) =
  interactionVersion (handle 5 lateCompletion (handleAll interruptedTurn boot)).
Proof.
  apply (speaking_outside_a_turn_is_final
           [(6, PressEnd); (7, PressStart); (8, PressEnd)]%Q
           (handle 5 lateCompletion (handleAll interruptedTurn boot)));
    vm_compute; reflexivity.
Defined.

Lemma transition_silent s d : silent d -> silent (transition s d).
Proof.
  unfold silent, transition. intros (Ht & Hh & Ho).
  destruct (State_eqb (current d) s); [done|]. cbn.
  rewrite forallb_app, Ho. done.
Qed.

Lemma onQueue_silent q now c d : silent d -> onQueue q now c d = d.
Proof. intros (_ & Hh & _). unfold onQueue. by rewrite Hh. Qed.

Lemma finally_silent a d : silent d -> silent (finally a d).
Proof.
  intros Hs. unfold finally.
  destruct (runVersion a =? interactionVersion d); [apply transition_silent|];
    exact Hs.
Qed.

Lemma handle_silent now e d :
  isToggle e = false -> silent d -> silent (handle now e d).
Proof.
  intros He Hs. pose proof Hs as (Ht & Hh & Ho).
  destruct e; try discriminate He; cbn [handle].
  - unfold handlePressStart. destruct (pipelineBusy d); [done|].
    destruct (State_eqb (current d) IDLE); [|done].
    by apply transition_silent.
  - unfold handlePressEnd. destruct (State_eqb (current d) LISTENING); [|done].
    unfold stopListeningAndProcess. destruct (pipelineBusy d); [done|].
    match goal with |- silent (suspend _ (transition _ ?x)) =>
      assert (Hx : silent (transition PROCESSING x))
        by (by apply transition_silent) end.
    exact Hx.
  - destruct (activation d) as [a|]; [|done]. unfold resume.
    destruct (awaiting a); try done. destruct hasBlob; [done|].
    by apply finally_silent.
  - destruct (activation d) as [a|]; [|done]. unfold resume.
    destruct (awaiting a); try done.
    destruct (falsy text || (length (trim text) =? 0));
      [by apply finally_silent|].
    pose proof (transition_silent STREAMING d Hs) as Hx.
    pose proof Hx as (Ht' & _). rewrite Ht'. exact Hx.
  - destruct (activation d) as [a|]; [|done]. unfold resume.
    destruct (awaiting a); try done. by apply finally_silent.
  - destruct (activation d) as [a|]; [|done]. unfold resume.
    destruct (awaiting a); try done. by rewrite Ht.
  - destruct (activation d) as [a|]; [|done]. unfold resume.
    by destruct (awaiting a).
  - destruct (activation d) as [a|]; [|done]. unfold resume.
    destruct (awaiting a); try done. rewrite Ht. by apply finally_silent.
  - destruct (activation d) as [a|]; [|done]. unfold resume.
    destruct (awaiting a); try done. by apply finally_silent.
  - rewrite onQueue_silent; destruct (index =? 0);
      try done; by apply transition_silent.
  - by rewrite onQueue_silent.
  - by rewrite onQueue_silent.
Qed.

(** X17. With speech switched off the controller synthesises nothing:
    over every sequence of events without a click on the speech toggle,
    no [AudioQueueManager] is created, no request goes to /api/tts and
    nothing is scheduled for playback; the transitions of the state
    machine are all the controller puts out. *)
Theorem speech_off_synthesises_nothing (tr : list (Q * Event)) :
  forallb (fun x => negb (isToggle (snd x))) tr = true ->
  ttsEnabled (handleAll tr boot) = false /\
  heap (handleAll tr boot) = [] /\
  forallb isTransition (outputs (handleAll tr boot)) = true.
Proof.
  change (forallb (fun x => negb (isToggle (snd x))) tr = true ->
          silent (handleAll tr boot)).
  assert (H0 : silent boot) by done. revert H0. generalize boot.
  induction tr as [|[now e] tr IH]; intros d Hs Htr; [done|].
  cbn [forallb snd] in Htr. apply andb_true_iff in Htr as [He Htr].
  cbn [handleAll]. apply IH; [|done].
  apply handle_silent; [|done]. by apply negb_true_iff.
Qed.

Lemma speech_off_synthesises_nothing_witness :
  ttsEnabled (handleAll (tail interruptedTurn) boot) = false /\
  heap (handleAll (tail interruptedTurn) boot) = [] /\
  forallb isTransition (outputs (handleAll (tail interruptedTurn) boot)) = true.
Proof.
  apply (speech_off_synthesises_nothing (tail interruptedTurn)). reflexivity.
Defined.


Lemma transitions_app a b : transitions (a ++ b) = transitions a ++ transitions b.
Proof.
  induction a as [|[s|v q i t|q e] a IH]; cbn [app transitions]; [done| |done|done].
  by rewrite IH.
Qed.

Lemma transitions_audio q es : transitions (map (Audio q) es) = [].
Proof. by induction es. Qed.

Lemma last_cons_default (l : list State) : forall y s,
  List.last (y :: l) s = List.last l y.
Proof.
  induction l as [|z l IH]; intros y s; [done|].
  change (List.last (y :: z :: l) s) with (List.last (z :: l) s).
  by rewrite (IH z s), (IH z y).
Qed.

Lemma path_snoc l : forall s x,
  path s (l ++ [x]) = path s l && edge (List.last l s) x.
Proof.
  induction l as [|y l IH]; intros s x.
  - cbn. by rewrite andb_true_r.
  - cbn [app path]. by rewrite IH, andb_assoc, last_cons_default.
Qed.

(** A transition along an edge that does not enter LISTENING. *)
Lemma transition_logged s d :
  current d = s \/ edge (current d) s = true -> s <> LISTENING ->
  logged d -> logged (transition s d).
Proof.
  intros He Hn (Hp & Hl & Hv). unfold transition.
  destruct (State_eqb (current d) s) eqn:E; [done|].
  destruct He as [He|He]; [by rewrite He in E; destruct s|].
  unfold logged. cbn [outputs current interactionVersion].
  rewrite transitions_app. cbn [transitions].
  rewrite path_snoc, Hp, Hl, He, last_last, List.filter_app, length_app.
  split; [done|]. split; [done|]. cbn [List.filter].
  destruct s; try done; cbn; lia.
Qed.

Lemma finally_logged a d :
  current d = PROCESSING \/ current d = STREAMING \/ current d = SPEAKING ->
  logged d -> logged (finally a d).
Proof.
  intros Hc Hl. unfold finally.
  destruct (runVersion a =? interactionVersion d); [|exact Hl].
  apply transition_logged; [|done|exact Hl].
  right. cbn [current]. by destruct Hc as [-> | [-> | ->]].
Qed.

Lemma onQueue_logged q now c d :
  consistent d -> logged d -> logged (onQueue q now c d).
Proof.
  intros Hc Hl. unfold onQueue.
  destruct (heap d !! q) as [m|]; [|done].
  generalize (Queue.step now c m). intros r.
  match goal with |- logged (match _ with [] => ?x | _ => _ end) =>
    set (d1 := x) end.
  assert (H1 : logged d1).
  { destruct Hl as (Hp & Hl & Hv). unfold logged, d1.
    cbn [outputs current interactionVersion].
    by rewrite transitions_app, transitions_audio, app_nil_r. }
  assert (Hc1 : current d1 = current d) by done.
  clearbody d1.
  destruct (Queue.resolves (snd r)); [done|].
  destruct (activation d) as [a|] eqn:Ea; [|done].
  destruct (awaiting a), (audioQueue a) as [q'|]; try done.
  destruct (q =? q'); [|done].
  apply finally_logged; [|done]. rewrite Hc1.
  unfold consistent in Hc. rewrite Ea in Hc. tauto.
Qed.

Lemma resume_logged now e a d :
  activation d = Some a -> consistent d -> logged d ->
  logged (resume now e a d).
Proof.
  intros Ea Hc Hl.
  assert (Hs : current d = PROCESSING \/ current d = STREAMING \/
               current d = SPEAKING).
  { unfold consistent in Hc. rewrite Ea in Hc. tauto. }
  assert (Hfin : logged (finally a d)) by (by apply finally_logged).
  assert (Hstr : logged (transition STREAMING d)).
  { apply transition_logged; [|done|done].
    destruct Hs as [-> | [-> | ->]]; auto. }
  unfold resume.
  destruct (awaiting a), e; try done.
  - by destruct hasBlob.
  - destruct (falsy text || (length (trim text) =? 0)); [done|].
    by destruct (ttsEnabled (transition STREAMING d)).
  - destruct (ttsEnabled d); [|done]. destruct (audioQueue a); [|done].
    destruct Hl as (Hp & Hl & Hv). unfold logged.
    cbn [suspend outputs current interactionVersion].
    rewrite transitions_app. cbn [transitions]. by rewrite app_nil_r.
  - destruct (ttsEnabled d); [|done]. destruct (audioQueue a); [|done].
    apply onQueue_logged; [|done]. by apply (suspend_consistent a).
Qed.

Lemma handle_logged now e d :
  consistent d -> logged d -> logged (handle now e d).
Proof.
  intros Hc Hl.
  assert (Hres : logged match activation d with
                        | Some a => resume now e a d
                        | None => d
                        end).
  { destruct (activation d) as [a|] eqn:Ea; [|done].
    by apply resume_logged. }
  destruct e; try exact Hres; clear Hres; cbn [handle].
  - (* PressStart *)
    unfold handlePressStart. destruct (pipelineBusy d); [done|].
    destruct (current d) eqn:Ecur; try done. cbn [State_eqb].
    destruct Hl as (Hp & Hl & Hv).
    unfold startListening, transition. cbn [current]. rewrite Ecur.
    cbn [State_eqb]. unfold logged. cbn [outputs current interactionVersion].
    rewrite transitions_app. cbn [transitions].
    rewrite path_snoc, Hp, Hl, Ecur, last_last, List.filter_app, length_app, Hv.
    split; [done|]. split; [done|]. cbn. lia.
  - (* PressEnd *)
    unfold handlePressEnd. destruct (State_eqb (current d) LISTENING) eqn:E; [|done].
    unfold stopListeningAndProcess. destruct (pipelineBusy d); [done|].
    match goal with |- logged (suspend _ (transition _ ?x)) =>
      assert (Hx : logged (transition PROCESSING x)) end.
    { apply transition_logged; [|done|done]. right. cbn [current].
      by destruct (current d). }
    exact Hx.
  - (* ToggleTts *)
    exact Hl.
  - (* TtsDecoded *)
    assert (Hsp : logged (transition SPEAKING d)).
    { apply transition_logged; [|done|done]. destruct (current d); auto. }
    assert (Hcs : consistent (transition SPEAKING d)).
    { destruct (transition_fields SPEAKING d) as (_ & _ & Hb & Hv & _ & Ha & Hs).
      unfold consistent in *. rewrite Ha, Hb, Hv, Hs.
      destruct (activation d); tauto. }
    destruct (index =? 0); by apply onQueue_logged.
  - by apply onQueue_logged.
  - by apply onQueue_logged.
Qed.

(** X18. The state machine follows its diagram, and the interaction
    version counts the listening phases. Over every sequence of events
    the transitions made form a path from IDLE to the current state
    along the moves IDLE - LISTENING - PROCESSING - STREAMING, the ends
    of a turn (PROCESSING, STREAMING or SPEAKING to IDLE), SPEAKING to
    STREAMING, and the move to SPEAKING; LISTENING is entered from IDLE
    only and PROCESSING from LISTENING only, and the interaction version
    is the number of times LISTENING was entered. *)
Theorem state_machine_follows_its_diagram (tr : list (Q * Event)) :
  path IDLE (transitions (outputs (handleAll tr boot))) = true /\
  List.last (transitions (outputs (handleAll tr boot))) IDLE =
    current (handleAll tr boot) /\
  interactionVersion (handleAll tr boot) =
    length (List.filter (State_eqb LISTENING)
              (transitions (outputs (handleAll tr boot)))).
Proof.
  change (logged (handleAll tr boot)).
  assert (Hc : consistent boot) by (unfold consistent; cbn; tauto).
  assert (Hl : logged boot) by done.
  revert Hc Hl. generalize boot.
  induction tr as [|[now e] tr IH]; intros d Hc Hl; [done|].
  cbn [handleAll]. apply IH; [by apply handle_consistent|by apply handle_logged].
Qed.

End RunsFacts.

(** ** A turn whose playback cannot complete *)

Module LockFacts.
Import Js Session Lock.

Lemma transition_waits s q k d : waitsAt q k d -> waitsAt q k (transition s d).
Proof.
  unfold transition. by destruct (State_eqb (current d) s).
Qed.

Lemma transition_version s d :
  interactionVersion (transition s d) = interactionVersion d.
Proof. unfold transition. by destruct (State_eqb (current d) s). Qed.

Lemma onQueue_waits q k q' now c d :
  waitsAt q k d -> (q' = q -> Queue.leavesOut k c) ->
  waitsAt q k (onQueue q' now c d) /\
  interactionVersion (onQueue q' now c d) = interactionVersion d.
Proof.
  intros Hw Hc. pose proof Hw as (Hb & (a & Ea & Haw & Hq) & (m & Hm & Hst)).
  unfold onQueue. destruct (heap d !! q') as [m'|] eqn:Em'; [|done].
  rewrite Ea, Haw, Hq.
  destruct (decide (q' = q)) as [He|Hne].
  - subst q'. assert (m' = m) by congruence. subst m'.
    destruct (QueueFacts.step_stalled k now c m Hst (Hc eq_refl)) as [Hst' Hr].
    rewrite Hr. split; [|done]. split; [done|]. split; [by exists a|].
    exists (fst (Queue.step now c m)). split; [|done]. cbn [heap].
    apply list_lookup_insert_eq. by apply lookup_lt_Some in Hm.
  - assert (Hn : (q' =? q) = false) by (by apply Nat.eqb_neq). rewrite Hn.
    assert (Hd1 : forall os,
      waitsAt q k
        {| current := current d; ttsEnabled := ttsEnabled d;
           currentQueue := currentQueue d; pipelineBusy := pipelineBusy d;
           interactionVersion := interactionVersion d;
           heap := <[q' := fst (Queue.step now c m')]> (heap d);
           activation := Some a; outputs := os |}).
    { intros os. split; [done|]. split; [by exists a|]. exists m.
      split; [|done]. cbn [heap]. by rewrite list_lookup_insert_ne. }
    destruct (Queue.resolves (snd (Queue.step now c m')));
      (split; [apply Hd1|done]).
Qed.

Lemma handle_waits q k now e d :
  waitsAt q k d -> sparesIndex q k e ->
  waitsAt q k (handle now e d) /\
  interactionVersion (handle now e d) = interactionVersion d.
Proof.
  intros Hw He. pose proof Hw as (Hb & (a & Ea & Haw & Hq) & Hm).
  assert (Hres : forall e', resume now e' a d = d).
  { intros e'. unfold resume. rewrite Haw. by destruct e'. }
  destruct e as [ | | |hasBlob|text| |index text|cnt| | |v q' index buf
                |q' total|q']; cbn [handle]; rewrite ?Ea, ?Hres; try done.
  - unfold handlePressStart. by rewrite Hb.
  - unfold handlePressEnd, stopListeningAndProcess. rewrite Hb.
    by destruct (State_eqb (current d) LISTENING).
  - split; [|done]. split; [done|]. split; [by exists a|done].
  - destruct (index =? 0).
    + destruct (onQueue_waits q k q' now (Queue.Enqueue index buf)
                  (transition SPEAKING d)) as [H1 H2];
        [by apply transition_waits|exact He|].
      split; [done|]. by rewrite H2, transition_version.
    + by apply onQueue_waits.
  - by apply onQueue_waits.
  - by apply onQueue_waits.
Qed.

(** X19. One failed synthesis locks the controller for good. When the
    turn waits for its playback to complete and the scheduler cannot get
    past an index [k] - the buffer of sentence [k] never arrived and the
    total recorded is above [k] - then, as long as that buffer does not
    arrive after all, no event ends the wait: the lock stays taken, every
    press of the button is ignored and the interaction version never
    changes. *)
Theorem failed_synthesis_locks_the_controller
    (q k : nat) (tr : list (Q * Event)) (d : Drishti) :
  waitsAt q k d ->
  Forall (fun x => sparesIndex q k (snd x)) tr ->
  waitsAt q k (handleAll tr d) /\
  pipelineBusy (handleAll tr d) = true /\
  interactionVersion (handleAll tr d) = interactionVersion d /\
  forall now, handle now PressStart (handleAll tr d) = handleAll tr d.
Proof.
  intros Hw Htr.
  assert (H : waitsAt q k (handleAll tr d) /\
              interactionVersion (handleAll tr d) = interactionVersion d).
  { revert d Hw. induction Htr as [|[now e] tr He Htr IH]; intros d Hw; [done|].
    cbn [handleAll]. destruct (handle_waits q k now e d Hw He) as [Hw' Hv'].
    destruct (IH _ Hw') as [? ?]. split; [done|congruence]. }
  destruct H as [Hw' Hv']. split; [done|].
  pose proof Hw' as (Hb & _). split; [done|]. split; [done|].
  intros now. cbn [handle]. unfold handlePressStart. by rewrite Hb.
Qed.

Lemma failed_synthesis_locks_the_controller_witness :
  pipelineBusy
    (handleAll [(9, PressStart); (10, PressEnd); (11, SourceEnded 0)]%Q
       (handleAll failedSynthesisTurn boot)) = true.
Proof.
  apply (failed_synthesis_locks_the_controller 0 1
           [(9, PressStart); (10, PressEnd); (11, SourceEnded 0)]%Q
           (handleAll failedSynthesisTurn boot)).
  - split; [vm_compute; reflexivity|]. split.
    + eexists. split; [vm_compute; reflexivity|]. split; reflexivity.
    + eexists. split; [vm_compute; reflexivity|].
      split; [vm_compute; lia|]. split; [vm_compute; reflexivity|].
      intros _. vm_compute. reflexivity.
  - repeat constructor.
Defined.

End LockFacts.

(** ** A turn that is spoken *)

Module PlaybackFacts.
Import Js Session Playback.

Lemma checkCompletion_unmarked x :
  Queue.allEnqueued x = false -> Queue.checkCompletion x = (x, []).
Proof.
  intros H. unfold Queue.checkCompletion, Queue.completionCondition.
  by rewrite H.
Qed.

(** Before a total is recorded no call resolves the promise. *)
Lemma step_unmarked now c m :
  Queue.allEnqueued m = false ->
  match c with
  | Queue.Enqueue _ _ | Queue.Ended | Queue.WaitForCompletion _ => True
  | _ => False
  end ->
  Queue.resolves (snd (Queue.step now c m)) = [] /\
  Queue.allEnqueued (fst (Queue.step now c m)) = false /\
  Queue.completionResolve (fst (Queue.step now c m)) =
    match c with
    | Queue.WaitForCompletion p => Some p
    | _ => Queue.completionResolve m
    end.
Proof.
  intros Ha Hc. destruct c as [i b|total| |p|]; try done; cbn [Queue.step].
  - unfold Queue.enqueue.
    match goal with |- context [Queue.tryPlayNext now ?x] =>
      destruct (QueueFacts.tryPlayNext_spec now x)
        as (n & _ & _ & _ & _ & H1 & H2 & H3 & _) end.
    rewrite H1, H2, H3. by split.
  - unfold Queue.onended.
    assert (Hr1 : exists x, Queue.allEnqueued x = false /\
              Queue.completionResolve x = Queue.completionResolve m /\
              match Queue.queue m !! Queue.nextPlayIndex m with
              | Some _ => (m, [])
              | None => Queue.checkCompletion
                  {| Queue.queue := Queue.queue m;
                     Queue.nextPlayIndex := Queue.nextPlayIndex m;
                     Queue.isPlaying := false;
                     Queue.scheduledEndTime := Queue.scheduledEndTime m;
                     Queue.completionResolve := Queue.completionResolve m;
                     Queue.allEnqueued := Queue.allEnqueued m;
                     Queue.totalExpected := Queue.totalExpected m |}
              end = (x, [])).
    { destruct (Queue.queue m !! Queue.nextPlayIndex m).
      - by exists m.
      - eexists. split; [|split; [|by apply checkCompletion_unmarked]]; done. }
    destruct Hr1 as (x & Hx1 & Hx2 & ->). cbn [fst snd app].
    destruct (QueueFacts.tryPlayNext_spec now x)
      as (n & _ & _ & _ & _ & H1 & H2 & H3 & _).
    rewrite H1, H2, H3. by split.
  - unfold Queue.waitForCompletion. by rewrite checkCompletion_unmarked.
Qed.

(** A call that resolves nothing changes the scheduler and the outputs
    only. *)
Lemma onQueue_quiet q now c d m :
  heap d !! q = Some m ->
  Queue.resolves (snd (Queue.step now c m)) = [] ->
  onQueue q now c d =
  {| current := current d; ttsEnabled := ttsEnabled d;
     currentQueue := currentQueue d; pipelineBusy := pipelineBusy d;
     interactionVersion := interactionVersion d;
     heap := <[q := fst (Queue.step now c m)]> (heap d);
     activation := activation d;
     outputs := outputs d ++ map (Audio q) (snd (Queue.step now c m)) |}.
Proof. intros Hm Hr. unfold onQueue. by rewrite Hm, Hr. Qed.

(** A call that resolves the promise the activation awaits runs its
    [finally]. *)
Lemma onQueue_resolving q now c d m a :
  heap d !! q = Some m ->
  Queue.resolves (snd (Queue.step now c m)) <> [] ->
  activation d = Some a -> awaiting a = AwaitCompletion ->
  audioQueue a = Some q ->
  onQueue q now c d =
  finally a
    {| current := current d; ttsEnabled := ttsEnabled d;
       currentQueue := currentQueue d; pipelineBusy := pipelineBusy d;
       interactionVersion := interactionVersion d;
       heap := <[q := fst (Queue.step now c m)]> (heap d);
       activation := activation d;
       outputs := outputs d ++ map (Audio q) (snd (Queue.step now c m)) |}.
Proof.
  intros Hm Hr Ea Haw Hq. unfold onQueue. rewrite Hm, Ea, Haw, Hq, Nat.eqb_refl.
  by destruct (Queue.resolves (snd (Queue.step now c m))).
Qed.

Lemma startsOn_app q a b : startsOn q (a ++ b) = startsOn q a ++ startsOn q b.
Proof.
  induction a as [|[s|v q' i t|q' [i bf t|p]] a IH]; cbn [app startsOn];
    try done.
  destruct (q' =? q); [|done]. by rewrite IH.
Qed.

Lemma startsOn_audio q es : startsOn q (map (Audio q) es) = Queue.starts es.
Proof.
  induction es as [|[i b t|p] es IH]; cbn [map startsOn Queue.starts]; [done| |done].
  by rewrite Nat.eqb_refl, IH.
Qed.

Lemma transition_live s q aw m d :
  live q aw m d ->
  live q aw m (transition s d) /\
  startsOn q (outputs (transition s d)) = startsOn q (outputs d).
Proof.
  intros Hl. unfold transition. destruct (State_eqb (current d) s); [done|].
  split; [exact Hl|]. cbn [outputs]. rewrite startsOn_app. cbn.
  by rewrite app_nil_r.
Qed.

(** A call of the playback on the turn's scheduler, before the total is
    recorded. *)
Lemma onQueue_live q aw m now c d :
  live q aw m d ->
  match c with
  | Queue.Enqueue _ _ | Queue.Ended | Queue.WaitForCompletion _ => True
  | _ => False
  end ->
  live q aw (fst (Queue.step now c m)) (onQueue q now c d) /\
  startsOn q (outputs (onQueue q now c d)) =
    startsOn q (outputs d) ++ Queue.starts (snd (Queue.step now c m)).
Proof.
  intros (Ht & Hm & Ha & a & Ea & Haw & Hq & Hv) Hc.
  destruct (step_unmarked now c m Ha Hc) as (Hr & Ha' & _).
  rewrite (onQueue_quiet q now c d m Hm Hr). split.
  - split; [done|]. split.
    { cbn [heap]. apply list_lookup_insert_eq. by apply lookup_lt_Some in Hm. }
    split; [done|]. by exists a.
  - cbn [outputs]. by rewrite startsOn_app, startsOn_audio.
Qed.

Lemma handle_live q aw m now e d :
  aw = AwaitChatStream \/ aw = AwaitCompletion ->
  live q aw m d -> streams q e = true ->
  live q aw (fst (Queue.run (callsOn q [(now, e)]) m)) (handle now e d) /\
  Queue.completionResolve (fst (Queue.run (callsOn q [(now, e)]) m)) =
    Queue.completionResolve m /\
  startsOn q (outputs (handle now e d)) =
    startsOn q (outputs d) ++
    Queue.starts (snd (Queue.run (callsOn q [(now, e)]) m)).
Proof.
  intros Haw Hl He.
  pose proof Hl as (Ht & Hm & Ha & a & Ea & Haw' & Hq & Hv).
  destruct e as [ | | |hasBlob|text| |index text|cnt| | |v q' index buf
                |q' total|q']; try discriminate He;
    cbn [handle callsOn callOn streams Queue.run fst snd] in *;
    rewrite ?Ea, ?He; cbn [Queue.run fst snd]; rewrite ?app_nil_r.
  - (* ChatSentence *)
    unfold resume. rewrite Haw'.
    destruct Haw as [-> | ->]; [|done].
    rewrite Ht, Hq. split; [|split; [done|]].
    + split; [done|]. split; [done|]. split; [done|]. by eexists.
    + cbn [suspend outputs]. rewrite startsOn_app. cbn. by rewrite app_nil_r.
  - (* ChatDone *)
    unfold resume. rewrite Haw'.
    by destruct Haw as [-> | ->].
  - (* TtsDecoded *)
    apply Nat.eqb_eq in He. subst q'.
    assert (H1 : live q aw m (if index =? 0 then transition SPEAKING d else d) /\
                 startsOn q (outputs (if index =? 0 then transition SPEAKING d
                                      else d)) = startsOn q (outputs d)).
    { destruct (index =? 0); [by apply transition_live|done]. }
    destruct H1 as [H1 H2].
    destruct (onQueue_live q aw m now (Queue.Enqueue index buf) _ H1 I)
      as [H3 H4].
    destruct (step_unmarked now (Queue.Enqueue index buf) m Ha I)
      as (_ & _ & H5).
    split; [done|]. split; [done|]. by rewrite H4, H2.
  - (* SourceEnded *)
    apply Nat.eqb_eq in He. subst q'.
    destruct (onQueue_live q aw m now Queue.Ended d Hl I) as [H3 H4].
    destruct (step_unmarked now Queue.Ended m Ha I) as (_ & _ & H5).
    by split.
Qed.

Lemma callsOn_cons q now e tr :
  callsOn q ((now, e) :: tr) = callsOn q [(now, e)] ++ callsOn q tr.
Proof. cbn [callsOn]. by destruct (callOn q e). Qed.

Lemma handleAll_live q aw tr : forall m d,
  aw = AwaitChatStream \/ aw = AwaitCompletion ->
  live q aw m d -> Forall (fun x => streams q (snd x) = true) tr ->
  live q aw (fst (Queue.run (callsOn q tr) m)) (handleAll tr d) /\
  Queue.completionResolve (fst (Queue.run (callsOn q tr) m)) =
    Queue.completionResolve m /\
  startsOn q (outputs (handleAll tr d)) =
    startsOn q (outputs d) ++ Queue.starts (snd (Queue.run (callsOn q tr) m)).
Proof.
  induction tr as [|[now e] tr IH]; intros m d Haw Hl Htr.
  - cbn. by rewrite app_nil_r.
  - apply Forall_cons in Htr as [He Htr]. cbn [snd] in He.
    destruct (handle_live q aw m now e d Haw Hl He) as (H1 & H2 & H3).
    destruct (IH _ _ Haw H1 Htr) as (H4 & H5 & H6).
    rewrite callsOn_cons, QueueFacts.run_app. cbn [handleAll fst snd].
    split; [done|]. split; [congruence|].
    by rewrite H6, H3, QueueFacts.starts_app, app_assoc.
Qed.


(** [chatStream] returns: the activation goes on to
    [await audioQueue.waitForCompletion()], which stores its resolver. *)
Lemma returns_live q m now d :
  live q AwaitChatStream m d ->
  live q AwaitCompletion
    (fst (Queue.step now (Queue.WaitForCompletion q) m))
    (handle now ChatReturns d) /\
  Queue.completionResolve
    (fst (Queue.step now (Queue.WaitForCompletion q) m)) = Some q /\
  startsOn q (outputs (handle now ChatReturns d)) =
    startsOn q (outputs d) ++
    Queue.starts (snd (Queue.step now (Queue.WaitForCompletion q) m)).
Proof.
  intros (Ht & Hm & Ha & a & Ea & Haw & Hq & Hv).
  cbn [handle]. rewrite Ea. unfold resume. rewrite Haw, Ht, Hq.
  set (a' := mkActivation (runVersion a) AwaitCompletion (Some q)
               (sentenceCount a)).
  assert (Hl : live q AwaitCompletion m (suspend a' d)).
  { split; [done|]. split; [done|]. split; [done|]. by exists a'. }
  destruct (onQueue_live q AwaitCompletion m now (Queue.WaitForCompletion q)
              _ Hl I) as [H1 H2].
  destruct (step_unmarked now (Queue.WaitForCompletion q) m Ha I)
    as (_ & _ & H3).
  by split.
Qed.

Lemma finally_idle q a d :
  runVersion a = interactionVersion d ->
  current (finally a d) = IDLE /\ pipelineBusy (finally a d) = false /\
  activation (finally a d) = None /\
  startsOn q (outputs (finally a d)) = startsOn q (outputs d) /\
  heap (finally a d) = heap d.
Proof.
  intros Hv. unfold finally. rewrite Hv, Nat.eqb_refl. unfold transition.
  cbn [current]. destruct (State_eqb (current d) IDLE) eqn:E.
  - cbn. split; [by destruct (current d)|done].
  - cbn. rewrite startsOn_app. cbn. by rewrite app_nil_r.
Qed.

Lemma mark_step t (N : nat) playing sched te (p : nat) :
  Queue.step t (Queue.MarkAllEnqueued (Z.of_nat N))
    (Queue.mkAQM ∅ N playing sched (Some p) false te) =
  (Queue.mkAQM ∅ N playing sched (if playing then Some p else None) true
     (Z.of_nat N),
   if playing then [] else [Queue.Resolve p]).
Proof.
  cbn [Queue.step]. unfold Queue.markAllEnqueued, Queue.checkCompletion,
    Queue.completionCondition.
  cbn [Queue.queue Queue.nextPlayIndex Queue.isPlaying Queue.scheduledEndTime
       Queue.completionResolve Queue.allEnqueued Queue.totalExpected andb].
  rewrite Z.leb_refl. by destruct playing.
Qed.

Lemma ended_step t (N : nat) sched (r : option nat) :
  Queue.step t Queue.Ended
    (Queue.mkAQM ∅ N true sched r true (Z.of_nat N)) =
  (Queue.mkAQM ∅ N false sched None true (Z.of_nat N),
   match r with Some p => [Queue.Resolve p] | None => [] end).
Proof.
  cbn [Queue.step]. unfold Queue.onended.
  cbn [Queue.queue Queue.nextPlayIndex]. rewrite lookup_empty.
  unfold Queue.checkCompletion, Queue.completionCondition.
  cbn [Queue.queue Queue.nextPlayIndex Queue.isPlaying Queue.scheduledEndTime
       Queue.completionResolve Queue.allEnqueued Queue.totalExpected andb negb].
  rewrite Z.leb_refl.
  destruct r; cbn [fst snd]; rewrite QueueMore.tryPlayNext_nothing; done.
Qed.

Lemma ended_idle_step t (N : nat) sched :
  Queue.step t Queue.Ended
    (Queue.mkAQM ∅ N false sched None true (Z.of_nat N)) =
  (Queue.mkAQM ∅ N false sched None true (Z.of_nat N), []).
Proof.
  cbn [Queue.step]. unfold Queue.onended.
  cbn [Queue.queue Queue.nextPlayIndex]. rewrite lookup_empty.
  rewrite QueueMore.checkCompletion_no_resolver by done.
  cbn [fst snd]. rewrite QueueMore.tryPlayNext_nothing; done.
Qed.

(** The total is recorded when every buffer has been started, and a
    source ends. *)
Lemma final_two q (N : nat) playing sched te t1 t2 d :
  ttsEnabled d = true ->
  heap d !! q = Some (Queue.mkAQM ∅ N playing sched (Some q) false te) ->
  (exists a, activation d = Some a /\ awaiting a = AwaitCompletion /\
             audioQueue a = Some q /\ runVersion a = interactionVersion d) ->
  let d' := handleAll [(t1, AllTtsSettled q (Z.of_nat N));
                       (t2, SourceEnded q)] d in
  current d' = IDLE /\ pipelineBusy d' = false /\ activation d' = None /\
  startsOn q (outputs d') = startsOn q (outputs d).
Proof.
  intros Ht Hm (a & Ea & Haw & Hq & Hv). cbn [handleAll handle].
  assert (Hlt : q < length (heap d)) by (by apply lookup_lt_Some in Hm).
  destruct playing.
  - (* still playing: the source that ends resolves the promise *)
    rewrite (onQueue_quiet q t1 _ d _ Hm) by (by rewrite mark_step).
    rewrite mark_step. cbn [fst snd map].
    match goal with |- context [onQueue q t2 Queue.Ended ?x] =>
      set (d1 := x) end.
    assert (Hm1 : heap d1 !! q =
                  Some (Queue.mkAQM ∅ N true sched (Some q) true (Z.of_nat N))).
    { unfold d1. cbn [heap]. by apply list_lookup_insert_eq. }
    rewrite (onQueue_resolving q t2 Queue.Ended d1 _ a Hm1);
      [|by rewrite ended_step|done|done|done].
    rewrite ended_step. cbn [fst snd map].
    match goal with |- context [finally a ?x] =>
      destruct (finally_idle q a x Hv) as (H1 & H2 & H3 & H4 & _) end.
    split; [done|]. split; [done|]. split; [done|].
    rewrite H4. unfold d1. cbn [outputs].
    rewrite !startsOn_app. cbn. by rewrite !app_nil_r.
  - (* nothing is playing: recording the total resolves the promise *)
    rewrite (onQueue_resolving q t1 _ d _ a Hm);
      [|by rewrite mark_step|done|done|done].
    rewrite mark_step. cbn [fst snd map].
    match goal with |- context [finally a ?x] =>
      set (d1 := x);
      destruct (finally_idle q a x Hv) as (H1 & H2 & H3 & H4 & H5) end.
    fold d1 in H1, H2, H3, H4, H5.
    assert (Hh : heap (finally a d1) !! q =
                 Some (Queue.mkAQM ∅ N false sched None true (Z.of_nat N))).
    { rewrite H5. unfold d1. cbn [heap]. by apply list_lookup_insert_eq. }
    destruct (RunsFacts.onQueue_idle q t2 Queue.Ended (finally a d1) H3)
      as (-> & -> & _ & ->).
    split; [done|]. split; [done|]. split; [done|].
    rewrite (onQueue_quiet q t2 _ _ _ Hh) by (by rewrite ended_idle_step).
    rewrite ended_idle_step. cbn [outputs fst snd map].
    rewrite app_nil_r, H4. unfold d1. cbn [outputs].
    rewrite startsOn_app. cbn. by rewrite app_nil_r.
Qed.

Lemma handleAll_app a : forall b d,
  handleAll (a ++ b) d = handleAll b (handleAll a d).
Proof. induction a as [|[now e] a IH]; intros b d; [done|]. apply IH. Qed.

Lemma callsOn_app q a b : callsOn q (a ++ b) = callsOn q a ++ callsOn q b.
Proof.
  induction a as [|[now e] a IH]; [done|].
  cbn [app callsOn]. destruct (callOn q e); by rewrite IH.
Qed.

Lemma callsOn_playback q tr :
  Forall (fun x => Queue.isPlayback (snd x) = true) (callsOn q tr).
Proof.
  induction tr as [|[now e] tr IH]; [constructor|].
  cbn [callsOn]. destruct e; cbn [callOn]; try done;
    destruct (_ =? q); try done; by constructor.
Qed.

(** X20. A turn whose sentences are all synthesised is spoken in order
    and returns to IDLE. While the reply streams, and after [chatStream]
    has returned, the decoded buffers of the sentences 0 .. N-1 arrive in
    any order and sources end at any time; when all have arrived the
    total N is recorded. Then, by the time the next source has ended,
    the buffers have been started on the turn's scheduler in the order
    0, 1, ..., N-1, each once, the state machine is in IDLE and the lock
    is released. *)
Theorem spoken_turn_returns_to_idle
    (N : nat) (bufs : nat -> Queue.AudioBuffer) (arrival : list nat)
    (q : nat) (tr1 tr2 : list (Q * Event)) (t1 t2 t3 : Q) (d : Drishti) :
  reading q d ->
  Forall (fun x => streams q (snd x) = true) tr1 ->
  Forall (fun x => streams q (snd x) = true) tr2 ->
  Permutation arrival (seq 0 N) ->
  Queue.admitted (callsOn q (tr1 ++ tr2)) = map (fun i => (i, bufs i)) arrival ->
  let d' := handleAll (tr1 ++ [(t1, ChatReturns)] ++ tr2 ++
                       [(t2, AllTtsSettled q (Z.of_nat N));
                        (t3, SourceEnded q)]) d in
  current d' = IDLE /\ pipelineBusy d' = false /\ activation d' = None /\
  startsOn q (outputs d') =
    startsOn q (outputs d) ++ map (fun i => (i, bufs i)) (seq 0 N).
Proof.
  intros Hr H1 H2 Hperm Hadm d'. unfold d'. clear d'.
  rewrite handleAll_app, handleAll_app. cbn [handleAll].
  rewrite handleAll_app.
  destruct (handleAll_live q AwaitChatStream tr1 Queue.new d (or_introl eq_refl)
              Hr H1) as (L1 & _ & S1).
  set (m1 := fst (Queue.run (callsOn q tr1) Queue.new)) in *.
  set (d1 := handleAll tr1 d) in *.
  destruct (returns_live q m1 t1 d1 L1) as (L2 & R2 & S2).
  set (mW := fst (Queue.step t1 (Queue.WaitForCompletion q) m1)) in *.
  set (d2 := handle t1 ChatReturns d1) in *.
  destruct (handleAll_live q AwaitCompletion tr2 mW d2 (or_intror eq_refl)
              L2 H2) as (L3 & R3 & S3).
  set (m2 := fst (Queue.run (callsOn q tr2) mW)) in *.
  set (d3 := handleAll tr2 d2) in *.
  (* the scheduler has run the calls of both stretches *)
  set (qtr := callsOn q tr1 ++ (t1, Queue.WaitForCompletion q) :: callsOn q tr2).
  assert (Hrun : Queue.run qtr Queue.new =
                 (m2, snd (Queue.run (callsOn q tr1) Queue.new) ++
                      snd (Queue.step t1 (Queue.WaitForCompletion q) m1) ++
                      snd (Queue.run (callsOn q tr2) mW))).
  { unfold qtr. rewrite QueueFacts.run_app. done. }
  assert (Hqadm : Queue.admitted qtr = map (fun i => (i, bufs i)) arrival).
  { unfold qtr. rewrite QueueFacts.admitted_app. cbn [Queue.admitted].
    by rewrite <- QueueFacts.admitted_app, <- callsOn_app. }
  assert (Hnc : Queue.noClear qtr).
  { unfold qtr. apply Forall_app. split.
    - apply QueueMore.isPlayback_noClear, callsOn_playback.
    - constructor; [done|].
      apply QueueMore.isPlayback_noClear, callsOn_playback. }
  destruct (QueueFacts.run_complete N bufs arrival qtr Hperm Hqadm Hnc)
    as (Hst & Hn & Hq).
  rewrite Hrun in Hst, Hn, Hq. cbn [fst snd] in Hst, Hn, Hq.
  destruct L3 as (Ht3 & Hm3 & Ha3 & Hact3).
  rewrite R2 in R3.
  assert (Hm2 : m2 = Queue.mkAQM ∅ N (Queue.isPlaying m2)
                       (Queue.scheduledEndTime m2) (Some q) false
                       (Queue.totalExpected m2)).
  { destruct m2 as [qu npi pl sc cr ae te]. cbn in *. by subst. }
  rewrite Hm2 in Hm3.
  destruct (final_two q N _ _ _ t2 t3 d3 Ht3 Hm3 Hact3) as (F1 & F2 & F3 & F4).
  split; [done|]. split; [done|]. split; [done|].
  rewrite F4, S3, S2, S1, <- Hst, !QueueFacts.starts_app, <- !app_assoc. done.
Qed.

Lemma spoken_turn_returns_to_idle_witness :
  current
    (handleAll
       ([(3, ChatSentence 0 (str "Hi there, how are you?"));
         (3, ChatSentence 1 (str "It is good to hear you."));
         (3, ChatDone 2)]%Q ++ [(4, ChatReturns)]%Q ++
        [(5, TtsDecoded 1 0 1 (Queue.sampleBuffer 1));
         (6, TtsDecoded 1 0 0 (Queue.sampleBuffer 0));
         (7, SourceEnded 0)]%Q ++
        [(8, AllTtsSettled 0 (Z.of_nat 2)); (9, SourceEnded 0)]%Q)
       readingTurn) = IDLE.
Proof.
  apply (spoken_turn_returns_to_idle 2 Queue.sampleBuffer [1; 0] 0
           [(3, ChatSentence 0 (str "Hi there, how are you?"));
            (3, ChatSentence 1 (str "It is good to hear you."));
            (3, ChatDone 2)]%Q
           [(5, TtsDecoded 1 0 1 (Queue.sampleBuffer 1));
            (6, TtsDecoded 1 0 0 (Queue.sampleBuffer 0));
            (7, SourceEnded 0)]%Q 4 8 9 readingTurn).
  - split; [reflexivity|]. split; [reflexivity|]. split; [reflexivity|].
    eexists. split; [reflexivity|]. split; [reflexivity|].
    split; reflexivity.
  - repeat constructor.
  - repeat constructor.
  - apply perm_swap.
  - reflexivity.
Defined.

End PlaybackFacts.

(** ** The WAV encoder *)

Module WavFacts.
Import Wav.

Lemma write_at pre old bytes rest :
  length old = length bytes ->
  write (length pre) bytes (pre ++ old ++ rest) = Some (pre ++ bytes ++ rest).
Proof.
  intros Hl. unfold write.
  rewrite !length_app, <- Hl.
  destruct (Nat.leb_spec (length pre + length old)
              (length pre + (length old + length rest))) as [_|]; [|lia].
  by rewrite take_app_length, drop_app_add, drop_app_length.
Qed.

Lemma writeSamples_spec samples : forall pre rest,
  length rest = length samples * 2 ->
  writeSamples samples (length pre) (pre ++ rest) = Some (pre ++ pcm samples).
Proof.
  induction samples as [|s samples IH]; intros pre rest Hl.
  - destruct rest; [|done]. done.
  - destruct rest as [|a [|b rest]]; try done.
    cbn [writeSamples]. unfold setInt16.
    change (a :: b :: rest) with ([a; b] ++ rest).
    rewrite (write_at pre [a; b]) by done. cbn [mbind option_bind].
    specialize (IH (pre ++ le16 (toInt16 (scale (clamp s)))) rest).
    rewrite length_app in IH. cbn [le16 length] in IH.
    rewrite <- app_assoc in IH. cbn [le16]. rewrite IH by (cbn in Hl; lia).
    unfold pcm. cbn [map concat le16]. by rewrite <- app_assoc.
Qed.

Lemma write_next o pre old bytes rest :
  o = length pre -> length old = length bytes ->
  write o bytes (pre ++ old ++ rest) = Some ((pre ++ bytes) ++ rest).
Proof. intros -> Hl. by rewrite write_at, app_assoc. Qed.

(** The writes of the encoder all fit, and leave the header followed by
    the samples. *)
Lemma encodeWAV_layout sampleRate samples :
  encodeWAV sampleRate samples =
  Some (header sampleRate (length samples) ++ pcm samples).
Proof.
  unfold encodeWAV.
  set (d := length samples * 2).
  change (repeat 0%Z (44 + d))
    with ([] ++ repeat 0%Z 4 ++ repeat 0%Z 4 ++ repeat 0%Z 4 ++
          repeat 0%Z 4 ++
          repeat 0%Z 4 ++ repeat 0%Z 2 ++ repeat 0%Z 2 ++ repeat 0%Z 4 ++
          repeat 0%Z 4 ++ repeat 0%Z 2 ++ repeat 0%Z 2 ++ repeat 0%Z 4 ++
          repeat 0%Z 4 ++ repeat 0%Z d).
  unfold w, setUint32, setUint16.
  do 13 (rewrite write_next by reflexivity; cbn [mbind option_bind]).
  match goal with |- writeSamples _ _ (?h ++ _) = _ =>
    change 44 with (length h); rewrite writeSamples_spec
  end.
  - unfold header. fold d. by rewrite <- !app_assoc.
  - by rewrite repeat_length.
Qed.


(** *** Reading the file back *)

Lemma le16_value v :
  (0 <= v < 65536)%Z ->
  (v mod 256 + 256 * (v / 256 mod 256 + 256 * 0))%Z = v.
Proof.
  intros Hv. pose proof (Z.div_mod v 256 ltac:(lia)).
  assert (0 <= v / 256 < 256)%Z.
  { split; [apply Z.div_pos; lia|apply Z.div_lt_upper_bound; lia]. }
  rewrite (Z.mod_small (v / 256)) by lia. lia.
Qed.

Lemma le32_value v :
  (0 <= v < 4294967296)%Z ->
  (v mod 256 + 256 * (v / 256 mod 256 + 256 * (v / 256 / 256 mod 256 +
     256 * (v / 256 / 256 / 256 mod 256 + 256 * 0))))%Z = v.
Proof.
  intros Hv.
  pose proof (Z.div_mod v 256 ltac:(lia)).
  pose proof (Z.div_mod (v / 256) 256 ltac:(lia)).
  pose proof (Z.div_mod (v / 256 / 256) 256 ltac:(lia)).
  assert (0 <= v / 256 < 16777216)%Z.
  { split; [apply Z.div_pos; lia|apply Z.div_lt_upper_bound; lia]. }
  assert (0 <= v / 256 / 256 < 65536)%Z.
  { split; [apply Z.div_pos; lia|apply Z.div_lt_upper_bound; lia]. }
  assert (0 <= v / 256 / 256 / 256 < 256)%Z.
  { split; [apply Z.div_pos; lia|apply Z.div_lt_upper_bound; lia]. }
  rewrite (Z.mod_small (v / 256 / 256 / 256)) by lia. lia.
Qed.

Lemma pcm_length samples : length (pcm samples) = 2 * length samples.
Proof.
  unfold pcm. induction samples as [|s samples IH]; [done|].
  cbn [map concat le16 app length]. rewrite IH. lia.
Qed.

Lemma header_length sampleRate n : length (header sampleRate n) = 44.
Proof. reflexivity. Qed.

Lemma pcm_at samples : forall i s,
  samples !! i = Some s ->
  take 2 (drop (2 * i) (pcm samples)) = le16 (toInt16 (scale (clamp s))).
Proof.
  induction samples as [|s0 samples IH]; intros i s Hi; [done|].
  destruct i as [|i].
  - cbn in Hi. by inversion Hi.
  - cbn [lookup list_lookup] in Hi. specialize (IH i s Hi).
    replace (2 * S i) with (S (S (2 * i))) by lia.
    unfold pcm in *. cbn [map concat le16 app drop]. exact IH.
Qed.

(** X21. The encoder never writes outside its buffer, and the file it
    produces is a well-formed PCM WAV file: 44 bytes of header and two
    bytes for every sample; the tags RIFF, WAVE, fmt and data in their
    places; format 1 (PCM), one channel, 16 bits per sample, block
    alignment 2; the RIFF size is the length of the file less 8 and the
    data size is the length less 44, as long as the file is shorter than
    2^32 bytes; and the byte rate is the sample rate times the block
    alignment. *)
Theorem wav_header_is_consistent (sampleRate : Z) (samples : list Sample) :
  exists bytes,
    encodeWAV sampleRate samples = Some bytes /\
    length bytes = 44 + 2 * length samples /\
    take 4 bytes = codes "RIFF" /\
    take 4 (drop 8 bytes) = codes "WAVE" /\
    take 4 (drop 12 bytes) = codes "fmt " /\
    take 4 (drop 36 bytes) = codes "data" /\
    uintAt 4 16 bytes = 16%Z /\
    uintAt 2 20 bytes = 1%Z /\ uintAt 2 22 bytes = 1%Z /\
    uintAt 2 32 bytes = 2%Z /\ uintAt 2 34 bytes = 16%Z /\
    ((Z.of_nat (length bytes) < 4294967296)%Z ->
     uintAt 4 4 bytes = (Z.of_nat (length bytes) - 8)%Z /\
     uintAt 4 40 bytes = (Z.of_nat (length bytes) - 44)%Z) /\
    ((0 <= sampleRate < 2147483648)%Z ->
     uintAt 4 24 bytes = sampleRate /\
     uintAt 4 28 bytes = (sampleRate * uintAt 2 32 bytes)%Z).
Proof.
  eexists. split; [apply encodeWAV_layout|].
  split; [by rewrite length_app, header_length, pcm_length|].
  do 9 (split; [reflexivity|]). split.
  - rewrite length_app, header_length, pcm_length. intros Hlen.
    unfold uintAt, header, le32, le16, codes.
    cbn [map list_ascii_of_string app drop take leValue].
    rewrite firstn_O. cbn [leValue].
    rewrite (Z.mod_small (36 + Z.of_nat (length samples * 2)) 4294967296),
      (Z.mod_small (Z.of_nat (length samples * 2)) 4294967296) by lia.
    rewrite !le32_value by lia. lia.
  - intros Hsr.
    unfold uintAt, header, le32, le16, codes.
    cbn [map list_ascii_of_string app drop take leValue].
    rewrite (Z.mod_small sampleRate), (Z.mod_small (sampleRate * 2)) by lia.
    rewrite !le32_value by lia. split; [done|].
    change (2 mod 65536)%Z with 2%Z. rewrite le16_value by lia. lia.
Qed.

(** *** Truncation *)

Local Open Scope Q_scope.

Lemma truncate_nonneg y :
  0 <= y -> (0 <= truncate y)%Z /\
  inject_Z (truncate y) <= y /\ y < inject_Z (truncate y) + 1.
Proof.
  destruct y as [n d]. unfold truncate, Qle, Qlt. cbn. intros Hn.
  assert (H0 : (0 <= n)%Z) by lia.
  rewrite Z.quot_div_nonneg by lia.
  pose proof (Z.div_mod n (Z.pos d) ltac:(lia)) as Hdm.
  pose proof (Z.mod_pos_bound n (Z.pos d) ltac:(lia)) as Hb.
  pose proof (Z.div_pos n (Z.pos d) H0 ltac:(lia)) as Hq.
  split; [lia|]. split; nia.
Qed.

Lemma truncate_opp y : truncate (- y) = (- truncate y)%Z.
Proof. destruct y as [n d]. unfold truncate. cbn. apply Z.quot_opp_l. lia. Qed.

Lemma truncate_nonpos y :
  y <= 0 -> (truncate y <= 0)%Z /\
  inject_Z (truncate y) - 1 < y /\ y <= inject_Z (truncate y).
Proof.
  intros Hy. destruct (truncate_nonneg (- y)) as (H1 & H2 & H3); [lra|].
  rewrite truncate_opp in H1, H2, H3. rewrite inject_Z_opp in H2, H3.
  split; [lia|]. split; lra.
Qed.

Lemma inject_Z_lt_succ a b : inject_Z a < inject_Z b + 1 -> (a <= b)%Z.
Proof.
  intros H. assert (H' : inject_Z a < inject_Z (b + 1)).
  { rewrite inject_Z_plus. exact H. }
  rewrite <- Zlt_Qlt in H'. lia.
Qed.

Lemma truncate_mono y y' : y <= y' -> (truncate y <= truncate y')%Z.
Proof.
  intros H. destruct (Qlt_le_dec y 0) as [Hy|Hy].
  - destruct (truncate_nonpos y) as (H1 & H2 & H3); [lra|].
    destruct (Qlt_le_dec y' 0) as [Hy'|Hy'].
    + destruct (truncate_nonpos y') as (H4 & H5 & H6); [lra|].
      apply inject_Z_lt_succ. lra.
    + destruct (truncate_nonneg y') as (H4 & _); [lra|]. lia.
  - destruct (truncate_nonneg y) as (H1 & H2 & H3); [lra|].
    destruct (truncate_nonneg y') as (H4 & H5 & H6); [lra|].
    apply inject_Z_lt_succ. lra.
Qed.

Lemma truncate_unique y (a : Z) :
  inject_Z a <= y -> y < inject_Z a + 1 -> 0 <= y -> truncate y = a.
Proof.
  intros H1 H2 H0. destruct (truncate_nonneg y H0) as (_ & H3 & H4).
  assert (truncate y <= a)%Z by (apply inject_Z_lt_succ; lra).
  assert (a <= truncate y)%Z by (apply inject_Z_lt_succ; lra).
  lia.
Qed.

(** *** Clamping and scaling *)

Lemma clamp_range x :
  exists c, clamp (Finite x) = Finite c /\ -1 <= c <= 1 /\
    (-1 <= x <= 1 -> c == x) /\ (1 <= x -> c == 1) /\ (x <= -1 -> c == -1).
Proof.
  exists (Qmax (-1) (Qmin 1 x)). split; [done|].
  pose proof (Q.min_spec 1 x) as Hmin.
  pose proof (Q.max_spec (-1) (Qmin 1 x)) as Hmax.
  revert Hmin Hmax. generalize (Qmax (-1) (Qmin 1 x)). generalize (Qmin 1 x).
  intros m c [[H1 H2]|[H1 H2]] [[H3 H4]|[H3 H4]];
    repeat split; intros; lra.
Qed.

Lemma clamp_mono x x' :
  x <= x' -> Qmax (-1) (Qmin 1 x) <= Qmax (-1) (Qmin 1 x').
Proof.
  intros H. apply Q.max_le_compat_l. by apply Q.min_le_compat_l.
Qed.

(** The number stored for a clamped sample [c], and its range. *)
Lemma quantise_clamped x c :
  clamp (Finite x) = Finite c -> -1 <= c <= 1 ->
  (0 <= c -> quantise (Finite x) = truncate (c * 32767) /\
             (0 <= quantise (Finite x) <= 32767)%Z) /\
  (c < 0 -> quantise (Finite x) = truncate (c * 32768) /\
            (-32768 <= quantise (Finite x) <= 0)%Z).
Proof.
  intros Hc Hr. unfold quantise. rewrite Hc. cbn [scale].
  split; intros H0.
  - assert (Hb : Qle_bool 0 c = true) by (by apply Qle_bool_iff).
    rewrite Hb. split; [done|].
    destruct (truncate_nonneg (c * 32767)) as (H1 & H2 & H3); [lra|].
    split; [done|]. apply inject_Z_lt_succ.
    change (inject_Z 32767) with 32767. lra.
  - assert (Hb : Qle_bool 0 c = false).
    { apply not_true_iff_false. rewrite Qle_bool_iff. lra. }
    rewrite Hb. split; [done|].
    destruct (truncate_nonpos (c * 32768)) as (H1 & H2 & H3); [lra|].
    split; [|done].
    assert (- truncate (c * 32768) <= 32768)%Z; [|lia].
    apply inject_Z_lt_succ. rewrite inject_Z_opp.
    change (inject_Z 32768) with 32768. lra.
Qed.

Lemma quantise_range s : (-32768 <= quantise s <= 32767)%Z.
Proof.
  destruct s as [x| | |]; try (vm_compute; split; discriminate).
  destruct (clamp_range x) as (c & Hc & Hr & _).
  destruct (quantise_clamped x c Hc Hr) as [Hp Hn].
  destruct (Qlt_le_dec c 0) as [H|H].
  - destruct (Hn H) as [_ ?]. lia.
  - destruct (Hp H) as [_ ?]. lia.
Qed.

(** X23. The 16-bit number the encoder stores for a sample: it always
    lies in the 16-bit range; a sample of 1 or more, or plus infinity,
    gives 32767, a sample of -1 or less, or minus infinity, gives
    -32768, NaN gives 0; a sample between gives its product with 32767
    (from 0 up) or 32768 (below 0) cut towards zero, less than one step
    away; and a larger sample never gives a smaller number. *)
Theorem samples_are_clipped_and_truncated :
  (forall s, (-32768 <= quantise s <= 32767)%Z) /\
  quantise NaN = 0%Z /\
  quantise PlusInfinity = 32767%Z /\ quantise MinusInfinity = (-32768)%Z /\
  (forall x, 1 <= x -> quantise (Finite x) = 32767%Z) /\
  (forall x, x <= -1 -> quantise (Finite x) = (-32768)%Z) /\
  (forall x, 0 <= x <= 1 ->
     inject_Z (quantise (Finite x)) <= x * 32767 /\
     x * 32767 < inject_Z (quantise (Finite x)) + 1) /\
  (forall x, -1 <= x < 0 ->
     inject_Z (quantise (Finite x)) - 1 < x * 32768 /\
     x * 32768 <= inject_Z (quantise (Finite x))) /\
  (forall x x', x <= x' -> (quantise (Finite x) <= quantise (Finite x'))%Z).
Proof.
  split; [apply quantise_range|].
  split; [done|]. split; [done|]. split; [done|].
  split; [|split; [|split; [|split]]].
  - intros x Hx. destruct (clamp_range x) as (c & Hc & Hr & _ & H1 & _).
    specialize (H1 Hx).
    destruct (quantise_clamped x c Hc Hr) as [Hp _].
    destruct Hp as [-> _]; [lra|].
    apply truncate_unique; change (inject_Z 32767) with 32767; lra.
  - intros x Hx. destruct (clamp_range x) as (c & Hc & Hr & _ & _ & H1).
    specialize (H1 Hx).
    destruct (quantise_clamped x c Hc Hr) as [_ Hn].
    destruct Hn as [-> _]; [lra|].
    assert (H : truncate (- (c * 32768)) = 32768%Z).
    { apply truncate_unique; change (inject_Z 32768) with 32768; lra. }
    rewrite truncate_opp in H. lia.
  - intros x Hx. destruct (clamp_range x) as (c & Hc & Hr & H1 & _).
    assert (Hcx : c == x) by (apply H1; lra).
    destruct (quantise_clamped x c Hc Hr) as [Hp _].
    destruct Hp as [-> _]; [lra|].
    destruct (truncate_nonneg (c * 32767)) as (_ & H2 & H3); [lra|].
    split; lra.
  - intros x Hx. destruct (clamp_range x) as (c & Hc & Hr & H1 & _).
    assert (Hcx : c == x) by (apply H1; lra).
    destruct (quantise_clamped x c Hc Hr) as [_ Hn].
    destruct Hn as [-> _]; [lra|].
    destruct (truncate_nonpos (c * 32768)) as (_ & H2 & H3); [lra|].
    split; lra.
  - intros x x' Hx.
    pose proof (clamp_mono x x' Hx) as Hm.
    destruct (clamp_range x) as (c & Hc & Hr & _).
    destruct (clamp_range x') as (c' & Hc' & Hr' & _).
    assert (c = Qmax (-1) (Qmin 1 x)) by (cbn in Hc; congruence).
    assert (c' = Qmax (-1) (Qmin 1 x')) by (cbn in Hc'; congruence).
    subst c c'.
    destruct (quantise_clamped x _ Hc Hr) as [Hp Hn].
    destruct (quantise_clamped x' _ Hc' Hr') as [Hp' Hn'].
    destruct (Qlt_le_dec (Qmax (-1) (Qmin 1 x)) 0) as [H|H];
      destruct (Qlt_le_dec (Qmax (-1) (Qmin 1 x')) 0) as [H'|H'].
    + destruct (Hn H) as [-> _]. destruct (Hn' H') as [-> _].
      apply truncate_mono. lra.
    + destruct (Hn H) as [_ ?]. destruct (Hp' H') as [_ ?]. lia.
    + lra.
    + destruct (Hp H) as [-> _]. destruct (Hp' H') as [-> _].
      apply truncate_mono. lra.
Qed.

Lemma toInt16_quantise s :
  toInt16 (scale (clamp s)) = (quantise s mod 65536)%Z.
Proof. unfold quantise. by destruct (scale (clamp s)). Qed.

(** X22. Every sample can be read back: in the file the encoder
    produces, the signed 16-bit number at offset 44 + 2 i, least
    significant byte first, is the number that stands for sample i; no
    sample wraps around. *)
Theorem wav_samples_round_trip (sampleRate : Z) (samples : list Sample)
    (i : nat) (s : Sample) :
  samples !! i = Some s ->
  exists bytes,
    encodeWAV sampleRate samples = Some bytes /\
    int16At (44 + 2 * i)%nat bytes = quantise s /\
    (-32768 <= int16At (44 + 2 * i)%nat bytes <= 32767)%Z.
Proof.
  intros Hi. eexists. split; [apply encodeWAV_layout|].
  pose proof (quantise_range s) as Hr.
  assert (H : int16At (44 + 2 * i)%nat
                (header sampleRate (length samples) ++ pcm samples) =
              quantise s); [|by rewrite H].
  unfold int16At, uintAt.
  rewrite (drop_app_add' (header sampleRate (length samples))) by reflexivity.
  rewrite (pcm_at samples i s Hi), toInt16_quantise.
  cbn [le16 leValue].
  assert (Hm : (0 <= quantise s mod 65536 < 65536)%Z)
    by (apply Z.mod_pos_bound; lia).
  rewrite le16_value by exact Hm.
  destruct (Z.ltb_spec (quantise s mod 65536) 32768) as [Hlt|Hge].
  - destruct (Z.le_gt_cases 0 (quantise s)) as [H0|H0].
    + rewrite Z.mod_small by lia. done.
    + rewrite <- (Z_mod_plus_full _ 1), Z.mod_small in Hlt by lia. lia.
  - destruct (Z.le_gt_cases 0 (quantise s)) as [H0|H0].
    + rewrite Z.mod_small in Hge by lia. lia.
    + rewrite <- (Z_mod_plus_full _ 1), Z.mod_small by lia. lia.
Qed.

Lemma wav_samples_round_trip_witness :
  exists bytes,
    encodeWAV 16000 [Finite (1 # 2); Finite (-2); NaN] = Some bytes /\
    int16At (44 + 2 * 1)%nat bytes = quantise (Finite (-2)) /\
    (-32768 <= int16At (44 + 2 * 1)%nat bytes <= 32767)%Z.
Proof.
  apply (wav_samples_round_trip 16000 [Finite (1 # 2); Finite (-2); NaN] 1
           (Finite (-2))).
  reflexivity.
Defined.

End WavFacts.

(** ** A connection the client closes *)

Module ClosingFacts.
Import Js Server Closing.

Lemma emitSentences_aborted sentences : forall index,
  emitSentences true sentences index = (index, []).
Proof.
  induction sentences as [|s sentences IH]; intros index; [done|].
  cbn [emitSentences negb]. rewrite andb_false_r. apply IH.
Qed.

Lemma onContent_aborted delta d :
  aborted d = true ->
  snd (onContent delta d) = [] /\ aborted (fst (onContent delta d)) = true.
Proof.
  intros Ha. unfold onContent. destruct (falsy delta); [done|].
  destruct (stripThinking (insideThinking d) delta) as [inside content'].
  destruct (falsy content'); [done|].
  destruct (scanSentences 10 (sentenceBuffer d ++ content'))
    as [sentences lastIndex].
  rewrite Ha. destruct sentences as [|s sentences]; [done|].
  by rewrite emitSentences_aborted.
Qed.

Lemma feed_aborted deltas : forall d,
  aborted d = true ->
  snd (feed deltas d) = [] /\ aborted (fst (feed deltas d)) = true.
Proof.
  induction deltas as [|delta deltas IH]; intros d Ha; [done|].
  cbn [feed fst snd]. destruct (onContent_aborted delta d Ha) as [-> Ha'].
  by apply IH.
Qed.

Lemma feed_app a : forall b d,
  feed (a ++ b) d =
  (fst (feed b (fst (feed a d))), snd (feed a d) ++ snd (feed b (fst (feed a d)))).
Proof.
  induction a as [|x a IH]; intros b d.
  - cbn. by destruct (feed b d).
  - cbn [app feed fst snd]. rewrite IH. cbn [fst snd]. by rewrite app_assoc.
Qed.

(** X24. Once the client has closed the connection the route writes
    nothing more: whatever deltas still arrive, no token, no sentence and
    no [done] event follows. What was written is what an undisturbed
    response writes first. *)
Theorem closed_connection_gets_nothing_more (before after : list jsstring) :
  decodeClosed before after = snd (feed before init) /\
  Forall (fun e => isDone e = false) (decodeClosed before after) /\
  exists rest, decode (before ++ after) = decodeClosed before after ++ rest.
Proof.
  assert (H : decodeClosed before after = snd (feed before init)).
  { unfold decodeClosed.
    destruct (feed_aborted after (close (fst (feed before init))) eq_refl)
      as [-> Ha].
    unfold onEnd. rewrite Ha. by rewrite !app_nil_r. }
  split; [exact H|]. split.
  - rewrite H. by destruct (ServerMore.feed_facts before init)
      as (_ & n & _ & _ & Hd & _).
  - rewrite H. unfold decode. rewrite feed_app. cbn [fst snd].
    eexists. by rewrite <- app_assoc.
Qed.

End ClosingFacts.

(** ** The request sent upstream *)

Module PromptFacts.
Import Js History Prompt.

(** X25. What the model is sent: after any sequence of [chatStream]
    calls, the request the route builds from the page's next request
    begins with the system prompt, which occurs nowhere else, ends with
    the user's new message, and holds at most [MAX_HISTORY] + 1
    messages. *)
Theorem upstream_request_is_bounded
    (calls : list (jsstring * Outcome)) (userText : jsstring) :
  let request :=
    upstreamMessages (Some (pushUser userText (historyAfter calls []))) in
  length request <= S MAX_HISTORY /\
  head request = Some System /\
  List.last request System = FromPage (mkTurn user userText) /\
  System ∉ tail request.
Proof.
  intros request. unfold request, upstreamMessages.
  pose proof (HistoryFacts.pushUser_length userText (historyAfter calls []))
    as Hl.
  set (h := historyAfter calls []) in *.
  assert (Hlast : exists pre, pushUser userText h = pre ++ [mkTurn user userText]).
  { unfold pushUser. set (h1 := h ++ [mkTurn user userText]).
    destruct (MAX_HISTORY <? length h1) eqn:E; [|by exists h].
    apply Nat.ltb_lt in E. exists (drop (length h1 - MAX_HISTORY) h).
    unfold h1 in *. rewrite length_app in *. cbn [length] in *.
    rewrite drop_app_le; [done|]. unfold MAX_HISTORY in *. lia. }
  destruct Hlast as [pre Hpre]. rewrite Hpre in *.
  split; [cbn [length]; rewrite length_map; lia|].
  split; [done|]. split.
  - rewrite map_app. cbn [map].
    change (System :: map FromPage pre ++ [FromPage (mkTurn user userText)])
      with ((System :: map FromPage pre) ++ [FromPage (mkTurn user userText)]).
    apply last_last.
  - cbn [tail]. intros Hin. apply list_elem_of_fmap in Hin as (t & Ht & _).
    discriminate Ht.
Qed.

End PromptFacts.

(** ** The transcript panel *)

Module TranscriptFacts.
Import Js History Transcript.

Lemma trimLoop_drop fuel : forall children,
  length children <= fuel + 50 ->
  trimLoop fuel children = drop (length children - 50) children.
Proof.
  induction fuel as [|fuel IH]; intros children Hl.
  - cbn. replace (length children - 50) with 0 by lia. done.
  - cbn [trimLoop]. destruct (Nat.ltb_spec 50 (length children)) as [Hgt|Hle].
    + destruct children as [|c children]; [cbn in Hgt; lia|].
      cbn [tail]. rewrite IH by (cbn in Hl; lia). cbn [length].
      replace (S (length children) - 50) with (S (length children - 50)) by
        (cbn in Hgt; lia).
      done.
    + replace (length children - 50) with 0 by lia. done.
Qed.

Lemma trimEntries_drop children :
  trimEntries children = drop (length children - 50) children.
Proof. apply trimLoop_drop. lia. Qed.

Lemma trimEntries_length children : length (trimEntries children) <= 50.
Proof. rewrite trimEntries_drop, length_drop. lia. Qed.

Lemma ascending_weaken l : forall a b, a <= b -> ascending b l -> ascending a l.
Proof. destruct l as [|x l]; [done|]. intros a b Hab [H1 H2]. split; [lia|done]. Qed.

Lemma ascending_drop n : forall l from,
  ascending from l -> ascending from (drop n l).
Proof.
  induction n as [|n IH]; intros l from Hl; [done|].
  destruct l as [|x l]; [done|]. cbn [drop]. destruct Hl as [H1 H2].
  apply IH. apply (ascending_weaken l from (S x)); [lia|done].
Qed.

Lemma ascending_snoc l : forall from x,
  ascending from l -> Forall (fun y => y < x) l -> from <= x ->
  ascending from (l ++ [x]).
Proof.
  induction l as [|y l IH]; intros from x Hl Hlt Hx.
  - cbn. done.
  - destruct Hl as [H1 H2]. apply Forall_cons in Hlt as [Hy Hlt].
    cbn [app ascending]. split; [done|]. apply IH; [done|done|lia].
Qed.

Lemma elements_onElement e f children :
  (forall x, element (f x) = element x) ->
  map element (onElement e f children) = map element children.
Proof.
  intros Hf. unfold onElement. rewrite map_map. apply map_ext.
  intros x. by destruct (element x =? e).
Qed.

Lemma onElement_length e f children :
  length (onElement e f children) = length children.
Proof. unfold onElement. by rewrite length_map. Qed.

(** The elements of the panel stay in the order of their creation. *)
Lemma uiStep_elements c ui :
  ascending 0 (elements ui) -> Forall (fun y => y < created ui) (elements ui) ->
  ascending 0 (elements (uiStep c ui)) /\
  Forall (fun y => y < created (uiStep c ui)) (elements (uiStep c ui)).
Proof.
  intros Ha Hc. unfold elements in *.
  assert (Hc' : Forall (fun y => y < S (created ui)) (map element (panel ui))).
  { eapply Forall_impl; [exact Hc|]. cbn. lia. }
  destruct c as [role text| |token|]; cbn [uiStep].
  - unfold addEntry. destruct (falsy text || (length (trim text) =? 0)); [done|].
    cbn [panel created]. rewrite trimEntries_drop.
    rewrite <- !skipn_map, map_app. cbn [map element]. split.
    + apply ascending_drop, ascending_snoc; [done|done|lia].
    + apply Forall_drop, Forall_app. split; [done|]. constructor; [lia|done].
  - unfold startStreaming. cbn [panel created].
    rewrite map_app. cbn [map element]. split.
    + apply ascending_snoc; [done|done|lia].
    + apply Forall_app. split; [done|]. constructor; [lia|done].
  - unfold appendToken. destruct (activeEntry ui) as [e|]; [|done].
    cbn [panel created]. by rewrite elements_onElement.
  - unfold endStreaming. destruct (activeEntry ui) as [e|]; cbn [panel created];
      rewrite trimEntries_drop, <- !skipn_map, ?elements_onElement by done;
      (split; [by apply ascending_drop|by apply Forall_drop]).
Qed.

Lemma uiRun_elements calls : forall ui,
  ascending 0 (elements ui) -> Forall (fun y => y < created ui) (elements ui) ->
  ascending 0 (elements (uiRun calls ui)).
Proof.
  induction calls as [|c calls IH]; intros ui Ha Hc; [done|].
  cbn [uiRun]. destruct (uiStep_elements c ui Ha Hc). by apply IH.
Qed.

Lemma uiRun_length calls : forall added ui,
  afterAdd added calls = true ->
  length (panel ui) <= 51 -> (added = true -> length (panel ui) <= 50) ->
  length (panel (uiRun calls ui)) <= 51.
Proof.
  induction calls as [|c calls IH]; intros added ui Hw Hl Ha; [done|].
  cbn [uiRun]. destruct c as [role text| |token|]; cbn [afterAdd uiStep] in *.
  - apply (IH _ _ Hw); unfold addEntry;
      destruct (falsy text || (length (trim text) =? 0)); cbn [negb panel];
      try done; intros; pose proof (trimEntries_length
        (panel ui ++ [mkEntry (created ui) role false (" "%char :: text)])); lia.
  - apply andb_true_iff in Hw as [-> Hw]. specialize (Ha eq_refl).
    apply (IH false _ Hw); [|done].
    unfold startStreaming. cbn [panel]. rewrite length_app. cbn. lia.
  - apply (IH false _ Hw); [|done].
    unfold appendToken. destruct (activeEntry ui); [|done].
    cbn [panel]. by rewrite onElement_length.
  - apply (IH false _ Hw); [|done].
    unfold endStreaming. destruct (activeEntry ui); cbn [panel];
      match goal with |- length (trimEntries ?x) <= _ =>
        pose proof (trimEntries_length x) end; lia.
Qed.

Lemma uiRun_unbounded n : forall ui,
  length (panel (uiRun (repeat StartStreaming n) ui)) = length (panel ui) + n.
Proof.
  induction n as [|n IH]; intros ui; [cbn; lia|].
  cbn [repeat uiRun uiStep]. rewrite IH. unfold startStreaming. cbn [panel].
  rewrite length_app. cbn. lia.
Qed.

(** X26. The transcript panel keeps the newest entries, in the order
    they were made. Used as the controller uses it - [startStreaming()]
    directly after an [addEntry] of a text that is not blank - the panel
    never holds more than 51 entries, and 50 after every [addEntry] of
    such a text and every [endStreaming()]. [startStreaming()] itself
    does not trim: called again and again it lets the panel grow without
    bound. *)
Theorem transcript_panel_is_bounded :
  (forall calls, afterAdd false calls = true ->
     length (panel (uiRun calls emptyUI)) <= 51) /\
  (forall calls, ascending 0 (elements (uiRun calls emptyUI))) /\
  (forall role text ui,
     (falsy text || (length (trim text) =? 0)) = false ->
     length (panel (addEntry role text ui)) <= 50) /\
  (forall ui, length (panel (endStreaming ui)) <= 50) /\
  (forall n, length (panel (uiRun (repeat StartStreaming n) emptyUI)) = n).
Proof.
  split; [|split; [|split; [|split]]].
  - intros calls Hw. apply (uiRun_length calls false emptyUI Hw); cbn; [lia|done].
  - intros calls. apply uiRun_elements; [done|constructor].
  - intros role text ui Ht. unfold addEntry. rewrite Ht. cbn [panel].
    apply trimEntries_length.
  - intros ui. unfold endStreaming. destruct (activeEntry ui); cbn [panel];
      apply trimEntries_length.
  - intros n. by rewrite uiRun_unbounded.
Qed.

End TranscriptFacts.

(** ** From a sentence event to its synthesis request *)

Module PipelineFacts.
Import Js Server Pipeline.

(** The texts of the sentence events of a response are not blank. *)
Lemma decode_sentences_not_blank deltas :
  Forall (fun it => trim (snd it) <> []) (sentencesOf (decode deltas)).
Proof.
  assert (Hc : forall (it : nat * jsstring),
             (exists raw, snd it = cleanText raw /\ snd it <> []) ->
             trim (snd it) <> []).
  { intros it (raw & Hr & Hne). rewrite Hr in *.
    by destruct (ServerMore.cleanText_clean raw) as [-> _]. }
  unfold decode. rewrite ServerMore.sentencesOf_app. apply Forall_app.
  destruct (ServerMore.feed_facts deltas init) as (Ha & n & H1 & H2 & H3 & H4).
  split.
  - eapply Forall_impl; [exact H4|]. exact Hc.
  - unfold onEnd. rewrite Ha. cbn [aborted init].
    destruct (0 <? length (cleanText (sentenceBuffer (fst (feed deltas init)))))
      eqn:E; [|by constructor].
    cbn [snd sentencesOf]. constructor; [|constructor]. apply Hc.
    eexists. split; [reflexivity|]. cbn [snd]. intros Hn. rewrite Hn in E. done.
Qed.

Lemma index_header (i : nat) :
  (if truthy (JNumber (inject_Z (Z.of_nat i)))
   then JNumber (inject_Z (Z.of_nat i)) else JNumber 0) =
  JNumber (inject_Z (Z.of_nat i)).
Proof. destruct i; [done|]. done. Qed.

(** X27. Every sentence the chat route emits is accepted by the speech
    route. For each sentence event of a response, the request the page
    makes with its text and index is never refused with status 400: the
    route makes exactly one request upstream, whose input is the text of
    the event, and answers with what comes back - the audio, under the
    index of the event, the upstream's failure status, or 500 when the
    request throws. *)
Theorem emitted_sentences_are_synthesised (deltas : list jsstring)
    (voice : jsstring) (upstream : SpeechRequest -> Upstream) :
  Forall (fun event =>
    snd (synthesise voice upstream event) =
      [mkSpeechRequest (snd event) voice] /\
    fst (synthesise voice upstream event) =
      match upstream (mkSpeechRequest (snd event) voice) with
      | UpThrows message => ReplyError 500 message
      | UpResponse false status detail => ReplyTtsFailed status detail
      | UpResponse true _ bytes =>
          ReplyAudio (JNumber (inject_Z (Z.of_nat (fst event)))) bytes
      end)
    (sentencesOf (decode deltas)).
Proof.
  eapply Forall_impl; [apply decode_sentences_not_blank|].
  intros [i t] Ht. cbn [fst snd] in *.
  unfold synthesise, ttsBody, tts. cbn [fst snd].
  destruct t as [|c t]; [done|].
  change (negb (truthy (JString (c :: t)))) with false. cbv iota.
  destruct (length (trim (c :: t)) =? 0) eqn:E.
  { apply Nat.eqb_eq in E. by destruct (trim (c :: t)). }
  rewrite index_header.
  by destruct (upstream (mkSpeechRequest (c :: t) voice)) as [[|] ? ?|?].
Qed.

End PipelineFacts.
